(** * GoogleTaskSyncer: the sync pass of [src/index.ts], embedded and verified

    The program mirrors the tasks of two Google Tasks accounts.  One pass
    ([syncTaskLists]) fetches both task lists, walks the tasks of account A
    and then those of account B, and creates, updates or deletes tasks on
    the other side, guided by a persisted ledger of paired ids
    ([syncState.tasks]).

    The embedding follows the TypeScript text: records for the interfaces,
    an insertion-ordered dictionary for the JS object and the [Map], a
    state-and-exception monad for the [async] methods (the state survives a
    [throw], as it does in JS), and a record [Host] for what the program
    gets from outside: the Tasks API, the clock, the file system and what
    the engine supplies, [Date] parsing, string-to-number coercion and the
    stack of a new [Error]. *)

From Stdlib Require Import String Ascii List ZArith Bool Arith Lia.
From Stdlib Require Import DecimalString DecimalNat.
Import ListNotations.
Local Open Scope string_scope.
Local Open Scope list_scope.
Local Open Scope Z_scope.

Set Implicit Arguments.

(* ================================================================== *)
(** ** Insertion-ordered dictionaries

    A JS object whose keys are not array indices, and a JS [Map], both
    enumerate their entries in insertion order; assigning to an existing
    key keeps its place.  The ledger keys all contain ["-"], so none is an
    array index. *)

Module Dict.

Definition t (V : Type) : Type := list (string * V).

Definition empty {V} : t V := [].

Fixpoint get {V} (k : string) (d : t V) : option V :=
  match d with
  | [] => None
  | (k', v) :: d' => if String.eqb k' k then Some v else get k d'
  end.

(** [d[k] = v], [map.set(k, v)] *)
Fixpoint set {V} (k : string) (v : V) (d : t V) : t V :=
  match d with
  | [] => [(k, v)]
  | (k', v') :: d' =>
      if String.eqb k' k then (k', v) :: d' else (k', v') :: set k v d'
  end.

(** [delete d[k]] *)
Definition delete {V} (k : string) (d : t V) : t V :=
  filter (fun e => negb (String.eqb (fst e) k)) d.

(** [Object.values(d)], [map.values()] *)
Definition values {V} (d : t V) : list V := map snd d.

Definition keys {V} (d : t V) : list string := map fst d.

(** [new Map(entries)]: later entries overwrite earlier ones. *)
Definition of_entries {V} (entries : list (string * V)) : t V :=
  fold_left (fun m e => set (fst e) (snd e) m) entries empty.

(** Assignment through a reference obtained by
    [Object.values(d).find(p)]: the first value satisfying [p] is
    changed in place. *)
Fixpoint modify_first {V} (p : V -> bool) (f : V -> V) (d : t V) : t V :=
  match d with
  | [] => []
  | (k, v) :: d' =>
      if p v then (k, f v) :: d' else (k, v) :: modify_first p f d'
  end.

(** An object holds one binding per key. *)
Definition wf {V} (d : t V) : Prop := NoDup (keys d).

End Dict.

(** [Set<string>] *)
Module StrSet.

Definition t : Type := list string.

Definition empty : t := [].

Definition has (s : string) (x : t) : bool := existsb (String.eqb s) x.

Definition add (s : string) (x : t) : t := if has s x then x else x ++ [s].

End StrSet.

(* ================================================================== *)
(** ** Data model (interfaces [Task], [SyncState], [TaskList]) *)

Record Task : Type := {
  id : string;
  title : string;
  notes : option string;
  status : string;
  due : option string;
  completed : option string;
  updated : string;
  parent : option string;
  position : option string
}.

Record SyncRecord : Type := {
  accountAId : string;
  accountBId : string;
  lastSyncedUpdate : string
}.

Record SyncState : Type := {
  tasks : Dict.t SyncRecord;
  lastSyncTime : string
}.

Module TaskList.
Record t : Type := { id : string; title : string }.
End TaskList.

(** The two accounts; [tasksApiA] and [tasksApiB] in the source. *)
Inductive Account : Type := AccountA | AccountB.

(** The [requestBody] of [tasks.insert] and [tasks.update]. *)
Record RequestBody : Type := {
  rb_id : option string;
  rb_title : string;
  rb_notes : option string;
  rb_status : string;
  rb_due : option string
}.

(** One page of [tasks.list]: [response.data]. *)
Record Page : Type := {
  items : option (list Task);
  nextPageToken : option string
}.

(** [error.code] is a number (an HTTP status), a string (a Node errno
    name) or missing. *)
Inductive Code : Type :=
| CodeUndefined
| CodeNumber (n : Z)
| CodeString (s : string).

(** What a [catch] block inspects of the value it caught: [error.code],
    [error.message], whether [error instanceof Error], [error.stack] and
    [String(error)]. *)
Record Error : Type := {
  code : Code;
  message : option string;
  is_Error : bool;
  stack : option string;
  as_string : string
}.

(** A promise settles with a value or with a thrown error. *)
Inductive Result (T : Type) : Type :=
| Ok (v : T)
| Throw (e : Error).

Arguments Ok {T} v.
Arguments Throw {T} e.

(** [core.info], [core.notice], [core.debug], ... of [@actions/core]. *)
Inductive Level : Type :=
| Info | Notice | Warning | ErrorLevel | Debug | StartGroup | EndGroup.

(** The calls of the three mutating client methods, as a test double of
    [createTask], [updateTask] and [deleteTask] would record them: the
    account, the task list, the task id and the request body.  A call is
    recorded when the method hands its request to [retryWithBackoff]. *)
Inductive Call : Type :=
| CallCreate (acc : Account) (taskListId : string) (body : RequestBody)
| CallUpdate (acc : Account) (taskListId taskId : string) (body : RequestBody)
| CallDelete (acc : Account) (taskListId taskId : string).

(* ================================================================== *)
(** ** String helpers for template literals and [String.prototype.includes] *)

Definition includes (s sub : string) : bool :=
  match String.index 0 sub s with Some _ => true | None => false end.

Definition nat_str (n : nat) : string := NilZero.string_of_uint (Nat.to_uint n).

Definition Z_str (z : Z) : string := NilZero.string_of_int (Z.to_int z).

Definition bool_str (b : bool) : string := if b then "true" else "false".

Definition Code_str (c : Code) : string :=
  match c with
  | CodeUndefined => "undefined"
  | CodeNumber n => Z_str n
  | CodeString s => s
  end.

Definition opt_str (o : option string) : string :=
  match o with Some s => s | None => "undefined" end.

(** Truthiness of an optional string: [undefined] and the empty string
    are falsy. *)
Definition truthy (o : option string) : bool :=
  match o with
  | Some s => negb (String.eqb s EmptyString)
  | None => false
  end.

Definition option_eqb (x y : option string) : bool :=
  match x, y with
  | Some a, Some b => String.eqb a b
  | None, None => true
  | _, _ => false
  end.

Infix "+++" := String.append (at level 60, right associativity).

(** The one-character string holding a double quote. *)
Definition dquote : string := String (ascii_of_nat 34) EmptyString.

(* ================================================================== *)
(** ** The host: everything the program calls but does not define *)

Record Host (World : Type) : Type := {
  (** [new Date(s).getTime()]; [None] is [NaN] (an invalid date) *)
  Date_getTime : string -> option Z;
  (** [ToNumber] on a string, used by [error.code >= 500]; [None] is [NaN] *)
  ToNumber : string -> option Z;
  (** the [stack] the engine gives to [new Error(msg)] *)
  Error_stack : string -> option string;
  (** [new Date().toISOString()] *)
  Date_now : World -> string;
  (** [process.env.TASK_LIST_NAME] *)
  env_TASK_LIST_NAME : World -> option string;
  (** [JSON.parse(await fs.readFile(stateFile))]; [None] when either throws *)
  fs_readState : World -> option SyncState;
  (** [fs.writeFile(stateFile, JSON.stringify(state))] *)
  fs_writeState : SyncState -> World -> Result unit * World;
  (** [tasksApi.tasklists.list()], giving [response.data.items] *)
  tasklists_list : Account -> World -> Result (option (list TaskList.t)) * World;
  (** [tasksApi.tasks.list({tasklist, pageToken, ...})], giving [response.data] *)
  tasks_list : Account -> string -> option string -> World -> Result Page * World;
  (** [tasksApi.tasks.insert({tasklist, requestBody})], giving [response.data] *)
  tasks_insert : Account -> string -> RequestBody -> World -> Result Task * World;
  (** [tasksApi.tasks.update({tasklist, task, requestBody})] *)
  tasks_update : Account -> string -> string -> RequestBody -> World -> Result Task * World;
  (** [tasksApi.tasks.delete({tasklist, task})] *)
  tasks_delete : Account -> string -> string -> World -> Result unit * World
}.

(* ================================================================== *)
(** ** The program state and its monad *)

Section Monad.

Context {World : Type}.

Record Env : Type := {
  world : World;                      (** the outside: both stores, disk, clock *)
  syncState : SyncState;              (** [this.syncState] *)
  console : list (Level * string);    (** what [core.*] printed, oldest first *)
  sleeps : list Z;                    (** the delays passed to [sleep], oldest first *)
  calls : list Call                   (** the recorded client calls, oldest first *)
}.

Definition M (T : Type) : Type := Env -> Result T * Env.

Definition ret {T} (v : T) : M T := fun s => (Ok v, s).

Definition bind {T U} (m : M T) (k : T -> M U) : M U :=
  fun s =>
    match m s with
    | (Ok v, s') => k v s'
    | (Throw e, s') => (Throw e, s')
    end.

Definition throw {T} (e : Error) : M T := fun s => (Throw e, s).

(** [try { m } catch (error) { h error }] *)
Definition try_catch {T} (m : M T) (h : Error -> M T) : M T :=
  fun s =>
    match m s with
    | (Ok v, s') => (Ok v, s')
    | (Throw e, s') => h e s'
    end.

(** [if (c) { m }] *)
Definition when (c : bool) (m : M unit) : M unit := if c then m else ret tt.

Definition log (l : Level) (msg : string) : M unit :=
  fun s => (Ok tt, {| world := world s; syncState := syncState s;
                      console := console s ++ [(l, msg)];
                      sleeps := sleeps s; calls := calls s |}).

(** [sleep(ms)]: the pass is suspended; the delay is recorded. *)
Definition sleep (ms : Z) : M unit :=
  fun s => (Ok tt, {| world := world s; syncState := syncState s;
                      console := console s;
                      sleeps := sleeps s ++ [ms]; calls := calls s |}).

Definition record_call (c : Call) : M unit :=
  fun s => (Ok tt, {| world := world s; syncState := syncState s;
                      console := console s;
                      sleeps := sleeps s; calls := calls s ++ [c] |}).

(** One request to the outside. *)
Definition request {T} (f : World -> Result T * World) : M T :=
  fun s =>
    let (r, w) := f (world s) in
    (r, {| world := w; syncState := syncState s; console := console s;
           sleeps := sleeps s; calls := calls s |}).

Definition get_syncState : M SyncState := fun s => (Ok (syncState s), s).

Definition put_syncState (st : SyncState) : M unit :=
  fun s => (Ok tt, {| world := world s; syncState := st; console := console s;
                      sleeps := sleeps s; calls := calls s |}).

(** Methods that page through a listing loop until the server stops
    sending continuation tokens; they are given fuel, and [None] stands
    for a run that outlasts it. *)
Definition MF (T : Type) : Type := Env -> option (Result T * Env).

Definition liftF {T} (m : M T) : MF T := fun s => Some (m s).

Definition bindF {T U} (m : MF T) (k : T -> MF U) : MF U :=
  fun s =>
    match m s with
    | Some (Ok v, s') => k v s'
    | Some (Throw e, s') => Some (Throw e, s')
    | None => None
    end.

End Monad.

Arguments Env World : clear implicits.
Arguments M World T : clear implicits.
Arguments MF World T : clear implicits.

Declare Scope monad_scope.
Delimit Scope monad_scope with monad.
Notation "x <- m ;; k" := (bind m (fun x => k))
  (at level 100, m at next level, right associativity) : monad_scope.
Notation "m ;; k" := (bind m (fun _ => k))
  (at level 100, right associativity) : monad_scope.
Notation "x <~ m ;; k" := (bindF m (fun x => k))
  (at level 100, m at next level, right associativity) : monad_scope.
Local Open Scope monad_scope.

Section Program.

Context {World : Type}.
Variable host : Host World.

#[local] Abbreviation M := (M World).
#[local] Abbreviation MF := (MF World).

Definition modify_tasks (f : Dict.t SyncRecord -> Dict.t SyncRecord) : M unit :=
  st <- get_syncState ;;
  put_syncState {| tasks := f (tasks st); lastSyncTime := lastSyncTime st |}.

(** [new Error(msg)] *)
Definition Error_new (msg : string) : Error :=
  {| code := CodeUndefined; message := Some msg; is_Error := true;
     stack := Error_stack host msg; as_string := "Error: " +++ msg |}.

(* ================================================================ *)
(** ** [retryWithBackoff] (lines 54-84) *)

Definition MAX_RETRIES : nat := 5.
Definition INITIAL_DELAY_MS : Z := 1000.

Definition code_is_number (c : Code) (n : Z) : bool :=
  match c with CodeNumber m => Z.eqb m n | _ => false end.

Definition code_is_string (c : Code) (s : string) : bool :=
  match c with CodeString t => String.eqb t s | _ => false end.

(** [error.code >= n] *)
Definition code_ge (c : Code) (n : Z) : bool :=
  match c with
  | CodeNumber m => Z.leb n m
  | CodeString s =>
      match ToNumber host s with Some m => Z.leb n m | None => false end
  | CodeUndefined => false
  end.

(** [error.message?.includes(sub)] *)
Definition message_includes (e : Error) (sub : string) : bool :=
  match message e with Some m => includes m sub | None => false end.

Definition isRateLimitError (error : Error) : bool :=
  code_is_number (code error) 429
  || message_includes error "Quota Exceeded"
  || message_includes error "Rate Limit Exceeded"
  || message_includes error "rateLimitExceeded".

Definition isServerError (error : Error) : bool :=
  code_ge (code error) 500 || code_is_string (code error) "ECONNRESET".

(** The [for] loop; [n] counts the iterations that remain, so that
    [attempt <= retries] holds exactly while [n] is not zero. *)
Fixpoint retryLoop {T} (n : nat) (operation : M T) (operationName : string)
    (retries attempt : nat) : M T :=
  match n with
  | O => throw (Error_new ("Failed after " +++ nat_str retries +++ " retries"))
  | S n' =>
      try_catch operation (fun error =>
        if isRateLimitError error && (attempt <? retries)%nat then
          let delayMs := INITIAL_DELAY_MS * 2 ^ Z.of_nat attempt in
          log ErrorLevel ("Rate limit hit for " +++ operationName +++ ". Retrying in "
                          +++ Z_str delayMs +++ "ms (attempt " +++ nat_str (attempt + 1)
                          +++ "/" +++ nat_str retries +++ ")...") ;;
          sleep delayMs ;;
          retryLoop n' operation operationName retries (attempt + 1)
        else if (attempt <? retries)%nat && isServerError error then
          let delayMs := INITIAL_DELAY_MS * 2 ^ Z.of_nat attempt in
          log ErrorLevel ("Server error for " +++ operationName +++ ". Retrying in "
                          +++ Z_str delayMs +++ "ms (attempt " +++ nat_str (attempt + 1)
                          +++ "/" +++ nat_str retries +++ ")...") ;;
          sleep delayMs ;;
          retryLoop n' operation operationName retries (attempt + 1)
        else throw error)
  end.

Definition retryWithBackoff {T} (operation : M T) (operationName : string)
    (retries : nat) : M T :=
  retryLoop (S retries) operation operationName retries 0.

(* ================================================================ *)
(** ** The client methods (lines 133-230) *)

Definition getTaskLists (acc : Account) : M (list TaskList.t) :=
  retryWithBackoff
    (items <- request (tasklists_list host acc) ;;
     ret (match items with Some l => l | None => [] end))
    "getTaskLists" MAX_RETRIES.

Definition body_of (taskId : option string) (task : Task) : RequestBody :=
  {| rb_id := taskId; rb_title := title task; rb_notes := notes task;
     rb_status := status task; rb_due := due task |}.

Definition createTask (acc : Account) (taskListId : string) (task : Task) : M Task :=
  record_call (CallCreate acc taskListId (body_of None task)) ;;
  retryWithBackoff
    (request (tasks_insert host acc taskListId (body_of None task)))
    ("createTask: " +++ title task) MAX_RETRIES.

Definition updateTask (acc : Account) (taskListId taskId : string) (task : Task)
    : M Task :=
  if String.eqb taskId EmptyString then
    throw (Error_new "Cannot update task: taskId is missing")
  else
    record_call (CallUpdate acc taskListId taskId (body_of (Some taskId) task)) ;;
    retryWithBackoff
      (request (tasks_update host acc taskListId taskId (body_of (Some taskId) task)))
      ("updateTask: " +++ title task) MAX_RETRIES.

Definition deleteTask (acc : Account) (taskListId taskId : string) : M unit :=
  record_call (CallDelete acc taskListId taskId) ;;
  retryWithBackoff
    (request (tasks_delete host acc taskListId taskId))
    ("deleteTask: " +++ taskId) MAX_RETRIES.

(** [new Date(x) > new Date(y)]: a comparison with [NaN] is false. *)
Definition date_gt (x y : string) : bool :=
  match Date_getTime host x, Date_getTime host y with
  | Some a, Some b => Z.ltb b a
  | _, _ => false
  end.

Definition shouldSyncTask (taskUpdated lastSynced : string) : bool :=
  date_gt taskUpdated lastSynced.

Definition tasksAreEqual (task1 task2 : Task) : bool :=
  String.eqb (title task1) (title task2)
  && option_eqb (notes task1) (notes task2)
  && String.eqb (status task1) (status task2)
  && option_eqb (due task1) (due task2).

Definition findTaskListByName (acc : Account) (listName : string)
    : M (option TaskList.t) :=
  lists <- getTaskLists acc ;;
  ret (find (fun l => String.eqb (TaskList.title l) listName) lists).


(** [getAllTasks] (lines 140-168): the [do ... while (pageToken)] loop. *)
Fixpoint getAllTasksLoop (fuel : nat) (acc : Account) (taskListId : string)
    (tasks : list Task) (pageToken : option string) : MF (list Task) :=
  match fuel with
  | O => fun _ => None
  | S fuel' =>
      response <~ liftF (retryWithBackoff
                    (request (tasks_list host acc taskListId pageToken))
                    ("getAllTasks (page "
                     +++ (if truthy pageToken then opt_str pageToken else "first")
                     +++ ")") MAX_RETRIES) ;;
      let tasks' := match items response with
                    | Some l => tasks ++ l
                    | None => tasks
                    end in
      let pageToken' := nextPageToken response in
      if truthy pageToken' then
        _ <~ liftF (sleep 200) ;;
        getAllTasksLoop fuel' acc taskListId tasks' pageToken'
      else liftF (ret tasks')
  end.

Definition getAllTasks (fuel : nat) (acc : Account) (taskListId : string)
    : MF (list Task) :=
  getAllTasksLoop fuel acc taskListId [] None.

(** [loadSyncState] and [saveSyncState] (lines 117-131) *)
Definition freshState : SyncState :=
  {| tasks := Dict.empty; lastSyncTime := "1970-01-01T00:00:00.000Z" |}.

Definition loadSyncState : M unit :=
  fun s =>
    match fs_readState host (world s) with
    | Some st => (put_syncState st ;; log Notice "Loaded existing sync state") s
    | None => (log Notice "No existing sync state found, starting fresh" ;;
               put_syncState freshState) s
    end.

Definition saveSyncState : M unit :=
  st <- get_syncState ;;
  request (fs_writeState host st) ;;
  log Notice "Sync state saved".

(* ================================================================ *)
(** ** [syncTaskLists] (lines 232-446) *)

(** The template literal [`${r.accountAId}-${r.accountBId}`]. *)
Definition pairKey (accountAId accountBId : string) : string :=
  accountAId +++ "-" +++ accountBId.

Definition recordKey (r : SyncRecord) : string :=
  pairKey (accountAId r) (accountBId r).

Definition setLastSyncedUpdate (v : string) (r : SyncRecord) : SyncRecord :=
  {| accountAId := accountAId r; accountBId := accountBId r;
     lastSyncedUpdate := v |}.

Definition account_letter (acc : Account) : string :=
  match acc with AccountA => "A" | AccountB => "B" end.

Definition is_404_or_400 (error : Error) : bool :=
  code_is_number (code error) 404 || code_is_number (code error) 400.

(** The four [try { ... } catch] blocks of the first loop (lines 315-327,
    330-340, 345-357 and 361-373) differ in the side that is written
    ([dst]) and in whether the skipped write is announced.  Writing to B
    copies [taskA] onto [taskB]; writing to A copies [taskB] onto
    [taskA].  [syncRecord] is the object found by
    [find(r => r.accountAId === taskA.id)], so assigning to its field
    changes the first such record of the ledger. *)
Definition copyOnto (dst : Account) (taskListA taskListB : TaskList.t)
    (taskA taskB : Task) (syncRecord : SyncRecord) (announce : bool) : M unit :=
  let taskListId := match dst with
                    | AccountA => TaskList.id taskListA
                    | AccountB => TaskList.id taskListB
                    end in
  let target := match dst with AccountA => taskA | AccountB => taskB end in
  let source := match dst with AccountA => taskB | AccountB => taskA end in
  try_catch
    ((if negb (tasksAreEqual taskA taskB) then
        _ <- updateTask dst taskListId (id target) source ;; ret tt
      else when announce (log Info "  Content identical, skipping update")) ;;
     modify_tasks (Dict.modify_first
                     (fun r => String.eqb (accountAId r) (id taskA))
                     (setLastSyncedUpdate (updated source))))
    (fun error =>
       log ErrorLevel ("Failed to update task in " +++ account_letter dst
                       +++ ". Code: " +++ Code_str (code error)
                       +++ " Message: " +++ opt_str (message error)) ;;
       when (is_404_or_400 error)
            (modify_tasks (Dict.delete (recordKey syncRecord)))).

(** The body of the first loop (lines 289-404); it returns
    [processedPairs]. *)
Definition processTaskA (taskListA taskListB : TaskList.t)
    (tasksBMap : Dict.t Task) (processedPairs : StrSet.t) (taskA : Task)
    : M StrSet.t :=
  st <- get_syncState ;;
  match find (fun r => String.eqb (accountAId r) (id taskA))
             (Dict.values (tasks st)) with
  | Some syncRecord =>
      match Dict.get (accountBId syncRecord) tasksBMap with
      | Some taskB =>
          let aModified := date_gt (updated taskA) (lastSyncedUpdate syncRecord) in
          let bModified := date_gt (updated taskB) (lastSyncedUpdate syncRecord) in
          log Info ("Checking task: " +++ title taskA) ;;
          log Info ("  A updated: " +++ updated taskA +++ ", B updated: "
                    +++ updated taskB +++ ", Last synced: "
                    +++ lastSyncedUpdate syncRecord) ;;
          log Info ("  A modified: " +++ bool_str aModified +++ ", B modified: "
                    +++ bool_str bModified) ;;
          (if aModified && bModified then
             if date_gt (updated taskA) (updated taskB) then
               log Info ("Conflict resolved: A -> B (" +++ title taskA +++ ")") ;;
               copyOnto AccountB taskListA taskListB taskA taskB syncRecord false
             else
               log Info ("Conflict resolved: B -> A (" +++ title taskB +++ ")") ;;
               copyOnto AccountA taskListA taskListB taskA taskB syncRecord false
           else if aModified then
             log Info ("Syncing A -> B: " +++ title taskA) ;;
             copyOnto AccountB taskListA taskListB taskA taskB syncRecord true
           else if bModified then
             log Info ("Syncing B -> A: " +++ title taskB) ;;
             copyOnto AccountA taskListA taskListB taskA taskB syncRecord true
           else
             log Info ("No changes for task: " +++ title taskA)) ;;
          ret (StrSet.add (recordKey syncRecord) processedPairs)
      | None =>
          log Info ("Deleting from A (deleted in B): " +++ title taskA) ;;
          try_catch
            (deleteTask AccountA (TaskList.id taskListA) (id taskA))
            (fun error =>
               log ErrorLevel ("Failed to delete task from A. Code: "
                               +++ Code_str (code error) +++ " Message: "
                               +++ opt_str (message error))) ;;
          modify_tasks (Dict.delete (recordKey syncRecord)) ;;
          ret processedPairs
      end
  | None =>
      log Info ("New task in A, creating in B: " +++ title taskA) ;;
      try_catch
        (newTaskB <- createTask AccountB (TaskList.id taskListB) taskA ;;
         modify_tasks (Dict.set (pairKey (id taskA) (id newTaskB))
                         {| accountAId := id taskA; accountBId := id newTaskB;
                            lastSyncedUpdate := updated taskA |}) ;;
         ret (StrSet.add (pairKey (id taskA) (id newTaskB)) processedPairs))
        (fun error =>
           log ErrorLevel ("Failed to create task in B. Code: "
                           +++ Code_str (code error) +++ " Message: "
                           +++ opt_str (message error)) ;;
           ret processedPairs)
  end.

(** The body of the second loop (lines 407-440). *)
Definition processTaskB (taskListA taskListB : TaskList.t)
    (processedPairs : StrSet.t) (taskB : Task) : M unit :=
  st <- get_syncState ;;
  match find (fun r => String.eqb (accountBId r) (id taskB))
             (Dict.values (tasks st)) with
  | Some syncRecord =>
      let pairKey := recordKey syncRecord in
      if StrSet.has pairKey processedPairs then ret tt
      else
        log Info ("Deleting from B (deleted in A): " +++ title taskB) ;;
        try_catch
          (deleteTask AccountB (TaskList.id taskListB) (id taskB))
          (fun error =>
             log ErrorLevel ("Failed to delete task from B. Code: "
                             +++ Code_str (code error) +++ " Message: "
                             +++ opt_str (message error))) ;;
        modify_tasks (Dict.delete pairKey)
  | None =>
      log Info ("New task in B, creating in A: " +++ title taskB) ;;
      try_catch
        (newTaskA <- createTask AccountA (TaskList.id taskListA) taskB ;;
         modify_tasks (Dict.set (pairKey (id newTaskA) (id taskB))
                         {| accountAId := id newTaskA; accountBId := id taskB;
                            lastSyncedUpdate := updated taskB |}))
        (fun error =>
           log ErrorLevel ("Failed to create task in A. Code: "
                           +++ Code_str (code error) +++ " Message: "
                           +++ opt_str (message error)))
  end.

(** [for (const taskA of tasksA) { ... }] *)
Fixpoint loopA (taskListA taskListB : TaskList.t) (tasksBMap : Dict.t Task)
    (processedPairs : StrSet.t) (tasksA : list Task) : M StrSet.t :=
  match tasksA with
  | [] => ret processedPairs
  | taskA :: rest =>
      processedPairs' <- processTaskA taskListA taskListB tasksBMap
                           processedPairs taskA ;;
      loopA taskListA taskListB tasksBMap processedPairs' rest
  end.

(** [for (const taskB of tasksB) { ... }] *)
Fixpoint loopB (taskListA taskListB : TaskList.t) (processedPairs : StrSet.t)
    (tasksB : list Task) : M unit :=
  match tasksB with
  | [] => ret tt
  | taskB :: rest =>
      processTaskB taskListA taskListB processedPairs taskB ;;
      loopB taskListA taskListB processedPairs rest
  end.

(** Lines 281-440: the reconciliation of two fetched snapshots against
    the ledger.  ([tasksAMap] is built by the source and never read.) *)
Definition reconcile (taskListA taskListB : TaskList.t)
    (tasksA tasksB : list Task) : M unit :=
  let tasksBMap := Dict.of_entries (map (fun t => (id t, t)) tasksB) in
  processedPairs <- loopA taskListA taskListB tasksBMap StrSet.empty tasksA ;;
  loopB taskListA taskListB processedPairs tasksB.

Definition set_lastSyncTime : M unit :=
  fun s =>
    put_syncState {| tasks := tasks (syncState s);
                     lastSyncTime := Date_now host (world s) |} s.

(** Lines 245-263: the two lists to sync. *)
Definition chooseTaskLists (firstA firstB : TaskList.t)
    : M (TaskList.t * TaskList.t) :=
  fun s =>
    let targetListName := env_TASK_LIST_NAME host (world s) in
    if truthy targetListName then
      (foundListA <- findTaskListByName AccountA (opt_str targetListName) ;;
       foundListB <- findTaskListByName AccountB (opt_str targetListName) ;;
       match foundListA, foundListB with
       | Some la, Some lb =>
           log Notice ("Syncing specific list: " +++ dquote
                       +++ opt_str targetListName +++ dquote) ;;
           ret (la, lb)
       | _, _ =>
           log Warning ("Warning: Task list " +++ dquote +++ opt_str targetListName
                        +++ dquote
                        +++ " not found in both accounts, using default list") ;;
           ret (firstA, firstB)
       end) s
    else ret (firstA, firstB) s.

Definition syncTaskLists (fuel : nat) : MF unit :=
  _ <~ liftF (log StartGroup "Sync Group") ;;
  _ <~ liftF (log Info "Starting sync...") ;;
  taskListsA <~ liftF (getTaskLists AccountA) ;;
  taskListsB <~ liftF (getTaskLists AccountB) ;;
  match taskListsA, taskListsB with
  | firstA :: _, firstB :: _ =>
      lists <~ liftF (chooseTaskLists firstA firstB) ;;
      let taskListA := fst lists in
      let taskListB := snd lists in
      _ <~ liftF (log Notice ("Syncing: Account A (" +++ TaskList.title taskListA
                              +++ ") <-> Account B (" +++ TaskList.title taskListB
                              +++ ")")) ;;
      tasksA <~ getAllTasks fuel AccountA (TaskList.id taskListA) ;;
      tasksB <~ getAllTasks fuel AccountB (TaskList.id taskListB) ;;
      _ <~ liftF (log Notice ("Found " +++ nat_str (length tasksA)
                              +++ " tasks in Account A, " +++ nat_str (length tasksB)
                              +++ " tasks in Account B")) ;;
      _ <~ liftF (reconcile taskListA taskListB tasksA tasksB) ;;
      _ <~ liftF set_lastSyncTime ;;
      _ <~ liftF saveSyncState ;;
      _ <~ liftF (log Info "Sync completed successfully!") ;;
      liftF (log EndGroup EmptyString)
  | _, _ =>
      liftF (log Notice "No task lists found in one or both accounts")
  end.

(** The [catch] block of [main] (lines 455-465). *)
Definition reportFailure (error : Error) : M unit :=
  if is_Error error then
    log ErrorLevel ("Sync failed: " +++ opt_str (message error)) ;;
    when (truthy (stack error)) (log Debug (opt_str (stack error)))
  else
    log ErrorLevel ("Sync failed: " +++ as_string error).

(** [main] (lines 450-467): the constructor, [initialize] (of which
    [loadSyncState] is the part with an effect on the state) and the
    pass; the result is the exit code of the process. *)
Definition initialEnv (w : World) : Env World :=
  {| world := w; syncState := freshState; console := []; sleeps := [];
     calls := [] |}.

Definition main (fuel : nat) (w : World) : option (Z * Env World) :=
  match (_ <~ liftF loadSyncState ;; syncTaskLists fuel) (initialEnv w) with
  | None => None
  | Some (Ok _, s) => Some (0, s)
  | Some (Throw error, s) => Some (1, snd (reportFailure error s))
  end.

End Program.

(* ================================================================== *)
(** ** A reference host

    A small in-memory stand-in for the two accounts, used to run the
    program on concrete inputs.  Each store is a list of tasks; a write
    stamps the task with the clock and advances it; [faults] is a queue
    that lets a scenario make the next requests fail.  Timestamps are the
    UTC form the Tasks API returns, [YYYY-MM-DDTHH:MM:SS.mmmZ] (the
    fraction is optional). *)

Module Iso.

Definition digit (c : ascii) : option Z :=
  let n := nat_of_ascii c in
  if ((48 <=? n) && (n <=? 57))%nat then Some (Z.of_nat (n - 48)) else None.

Fixpoint number (s : string) (acc : Z) : option Z :=
  match s with
  | EmptyString => Some acc
  | String c s' =>
      match digit c with
      | Some d => number s' (10 * acc + d)
      | None => None
      end
  end.

Definition field (s : string) (pos len : nat) : option Z :=
  let f := substring pos len s in
  if Nat.eqb (String.length f) len then number f 0 else None.

Definition is_leap (y : Z) : bool :=
  ((y mod 4 =? 0) && negb (y mod 100 =? 0)) || (y mod 400 =? 0).

Definition days_in_month (y m : Z) : Z :=
  if m =? 2 then (if is_leap y then 29 else 28)
  else if (m =? 4) || (m =? 6) || (m =? 9) || (m =? 11) then 30
  else 31.

(** Days from 1970-01-01 to the given civil date. *)
Definition days_from_civil (y m d : Z) : Z :=
  let y' := if m <=? 2 then y - 1 else y in
  let era := y' / 400 in
  let yoe := y' - era * 400 in
  let doy := (153 * (if m >? 2 then m - 3 else m + 9) + 2) / 5 + d - 1 in
  let doe := yoe * 365 + yoe / 4 - yoe / 100 + doy in
  era * 146097 + doe - 719468.

Definition parse (s : string) : option Z :=
  match field s 0 4, field s 5 2, field s 8 2,
        field s 11 2, field s 14 2, field s 17 2 with
  | Some y, Some mo, Some d, Some h, Some mi, Some se =>
      let seps := String.eqb (substring 4 1 s) "-"
                  && String.eqb (substring 7 1 s) "-"
                  && String.eqb (substring 10 1 s) "T"
                  && String.eqb (substring 13 1 s) ":"
                  && String.eqb (substring 16 1 s) ":" in
      let ranges := (1 <=? mo) && (mo <=? 12) && (1 <=? d)
                    && (d <=? days_in_month y mo)
                    && (h <=? 23) && (mi <=? 59) && (se <=? 59) in
      let ms := if String.eqb (substring 19 6 s) "Z" then Some 0
                else if String.eqb (substring 19 1 s) "."
                        && String.eqb (substring 23 2 s) "Z"
                     then field s 20 3
                     else None in
      match ms with
      | Some f =>
          if seps && ranges then
            Some ((((days_from_civil y mo d * 24 + h) * 60 + mi) * 60 + se) * 1000 + f)
          else None
      | None => None
      end
  | _, _, _, _, _, _ => None
  end.

Definition pad (width : nat) (z : Z) : string :=
  let t := Z_str z in
  (fix zeros (n : nat) : string :=
     match n with O => t | S n' => "0" +++ zeros n' end)
    (width - String.length t)%nat.

(** [new Date(ms).toISOString()], for years 0000 to 9999. *)
Definition format (ms : Z) : string :=
  let days := ms / 86400000 in
  let rest := ms mod 86400000 in
  let z := days + 719468 in
  let era := z / 146097 in
  let doe := z - era * 146097 in
  let yoe := (doe - doe / 1460 + doe / 36524 - doe / 146096) / 365 in
  let doy := doe - (365 * yoe + yoe / 4 - yoe / 100) in
  let mp := (5 * doy + 2) / 153 in
  let d := doy - (153 * mp + 2) / 5 + 1 in
  let m := if mp <? 10 then mp + 3 else mp - 9 in
  let y := yoe + era * 400 + (if m <=? 2 then 1 else 0) in
  pad 4 y +++ "-" +++ pad 2 m +++ "-" +++ pad 2 d +++ "T"
  +++ pad 2 (rest / 3600000) +++ ":" +++ pad 2 (rest / 60000 mod 60) +++ ":"
  +++ pad 2 (rest / 1000 mod 60) +++ "." +++ pad 3 (rest mod 1000) +++ "Z".

(** Decimal numerals, the part of [ToNumber] the examples use. *)
Definition to_number (s : string) : option Z :=
  match s with
  | EmptyString => Some 0
  | _ => number s 0
  end.

End Iso.

Module Ideal.

Record World : Type := {
  storeA : list Task;
  storeB : list Task;
  listsA : list TaskList.t;
  listsB : list TaskList.t;
  nextId : nat;
  clock : Z;
  disk : option SyncState;
  listName : option string;
  faults : list (option Error)
}.

Definition store (acc : Account) (w : World) : list Task :=
  match acc with AccountA => storeA w | AccountB => storeB w end.

Definition with_store (acc : Account) (l : list Task) (w : World) : World :=
  {| storeA := match acc with AccountA => l | AccountB => storeA w end;
     storeB := match acc with AccountA => storeB w | AccountB => l end;
     listsA := listsA w; listsB := listsB w;
     nextId := nextId w; clock := clock w; disk := disk w;
     listName := listName w; faults := faults w |}.

Definition tick (w : World) : World :=
  {| storeA := storeA w; storeB := storeB w;
     listsA := listsA w; listsB := listsB w;
     nextId := S (nextId w); clock := clock w + 1000; disk := disk w;
     listName := listName w; faults := faults w |}.

Definition pop_fault (w : World) : option Error * World :=
  match faults w with
  | [] => (None, w)
  | f :: rest =>
      (f, {| storeA := storeA w; storeB := storeB w;
             listsA := listsA w; listsB := listsB w;
             nextId := nextId w; clock := clock w; disk := disk w;
             listName := listName w; faults := rest |})
  end.

(** Every request first consults the fault queue. *)
Definition guarded {T} (f : World -> Result T * World) (w : World)
    : Result T * World :=
  match pop_fault w with
  | (Some e, w') => (Throw e, w')
  | (None, w') => f w'
  end.

Definition not_found : Error :=
  {| code := CodeNumber 404; message := Some "Not Found"; is_Error := true;
     stack := Some "Error: Not Found"; as_string := "Error: Not Found" |}.

Definition has_id (i : string) (l : list Task) : bool :=
  existsb (fun t => String.eqb (id t) i) l.

Definition written (i : string) (body : RequestBody) (old : option Task)
    (w : World) : Task :=
  {| id := i; title := rb_title body; notes := rb_notes body;
     status := rb_status body; due := rb_due body;
     completed := match old with Some t => completed t | None => None end;
     updated := Iso.format (clock w);
     parent := match old with Some t => parent t | None => None end;
     position := match old with Some t => position t | None => None end |}.

Definition insert (acc : Account) (taskListId : string) (body : RequestBody)
    : World -> Result Task * World :=
  guarded (fun w =>
    let t := written ("t" +++ nat_str (nextId w)) body None w in
    (Ok t, tick (with_store acc (store acc w ++ [t]) w))).

Definition update (acc : Account) (taskListId taskId : string)
    (body : RequestBody) : World -> Result Task * World :=
  guarded (fun w =>
    match find (fun t => String.eqb (id t) taskId) (store acc w) with
    | Some old =>
        let t := written taskId body (Some old) w in
        (Ok t,
         tick (with_store acc
                 (map (fun x => if String.eqb (id x) taskId then t else x)
                      (store acc w)) w))
    | None => (Throw not_found, w)
    end).

Definition delete (acc : Account) (taskListId taskId : string)
    : World -> Result unit * World :=
  guarded (fun w =>
    if has_id taskId (store acc w) then
      (Ok tt,
       with_store acc
         (filter (fun x => negb (String.eqb (id x) taskId)) (store acc w)) w)
    else (Throw not_found, w)).

Definition list_page (acc : Account) (taskListId : string)
    (pageToken : option string) : World -> Result Page * World :=
  guarded (fun w =>
    (Ok {| items := Some (store acc w); nextPageToken := None |}, w)).

Definition list_lists (acc : Account) : World -> Result (option (list TaskList.t)) * World :=
  guarded (fun w =>
    (Ok (Some (match acc with AccountA => listsA w | AccountB => listsB w end)), w)).

Definition write_state (st : SyncState) : World -> Result unit * World :=
  guarded (fun w =>
    (Ok tt, {| storeA := storeA w; storeB := storeB w;
               listsA := listsA w; listsB := listsB w;
               nextId := nextId w; clock := clock w; disk := Some st;
               listName := listName w; faults := faults w |})).

Definition host : Host World :=
  {| Date_getTime := Iso.parse;
     ToNumber := Iso.to_number;
     Error_stack := fun msg => Some ("Error: " +++ msg);
     Date_now := fun w => Iso.format (clock w);
     env_TASK_LIST_NAME := listName;
     fs_readState := disk;
     fs_writeState := write_state;
     tasklists_list := list_lists;
     tasks_list := list_page;
     tasks_insert := insert;
     tasks_update := update;
     tasks_delete := delete |}.

(** A task with the fields the pass reads. *)
Definition task (i t : string) (n : option string) (st : string)
    (u : string) : Task :=
  {| id := i; title := t; notes := n; status := st; due := None;
     completed := None; updated := u; parent := None; position := None |}.

Definition the_list : TaskList.t := {| TaskList.id := "L"; TaskList.title := "My Tasks" |}.

Definition start (a b : list Task) : World :=
  {| storeA := a; storeB := b; listsA := [the_list]; listsB := [the_list];
     nextId := 1; clock := 1735689600000; disk := None; listName := None;
     faults := [] |}.

Definition env (a b : list Task) (ledger : Dict.t SyncRecord) : Env World :=
  {| world := start a b;
     syncState := {| tasks := ledger; lastSyncTime := "1970-01-01T00:00:00.000Z" |};
     console := []; sleeps := []; calls := [] |}.

End Ideal.

(* ================================================================== *)
(** ** Running the program on the examples of the specification *)

Example iso_parse_epoch : Iso.parse "1970-01-01T00:00:00.000Z" = Some 0.
Proof. reflexivity. Qed.

Example iso_parse_2024 : Iso.parse "2024-01-01T00:00:00Z" = Some 1704067200000.
Proof. vm_compute. reflexivity. Qed.

Example iso_format_parse :
  Iso.parse (Iso.format 1709210096789) = Some 1709210096789.
Proof. vm_compute. reflexivity. Qed.

(** End-to-end: an empty ledger, one task in A, none in B: one
    [createTask] against B, and one record that links [a1] to the new id. *)
Example buy_milk :
  let a1 := Ideal.task "a1" "Buy milk" None "needsAction" "2024-01-01T00:00:00Z" in
  match main Ideal.host 10 (Ideal.start [a1] []) with
  | Some (exit, s) =>
      exit = 0
      /\ calls s = [CallCreate AccountB "L" (body_of None a1)]
      /\ tasks (syncState s)
         = [("a1-t1", {| accountAId := "a1"; accountBId := "t1";
                         lastSyncedUpdate := "2024-01-01T00:00:00Z" |})]
      /\ Ideal.disk (world s) = Some (syncState s)
  | None => False
  end.
Proof. vm_compute. repeat split; reflexivity. Qed.

(* ================================================================== *)
(** ** The retry policy

    The policy in the words of the specification: a request is made; a
    transient failure is answered by waiting for the next delay of the
    schedule and trying again; when the schedule is used up, or the
    failure is not transient, the error goes to the caller.  The result
    is the settled value, the world after the last request, and the delays
    that were slept. *)

Section Retry.

Context {World : Type}.
Variable host : Host World.

Definition isTransient (error : Error) : bool :=
  isRateLimitError error || isServerError host error.

Fixpoint retry_policy_spec {T} (delays : list Z)
    (f : World -> Result T * World) (w : World) : Result T * World * list Z :=
  match f w with
  | (Ok v, w') => (Ok v, w', [])
  | (Throw e, w') =>
      match delays with
      | d :: rest =>
          if isTransient e then
            let '(r, w'', ds) := retry_policy_spec rest f w' in (r, w'', d :: ds)
          else (Throw e, w', [])
      | [] => (Throw e, w', [])
      end
  end.

(** The delays of the iterations [attempt], [attempt + 1], ... *)
Fixpoint schedule (n attempt : nat) : list Z :=
  match n with
  | O => []
  | S n' => INITIAL_DELAY_MS * 2 ^ Z.of_nat attempt :: schedule n' (S attempt)
  end.

(** The state after one back-off: a line on the console, a delay slept. *)
Definition backed_off (s : Env World) (msg : string) (d : Z) : Env World :=
  {| world := world s; syncState := syncState s;
     console := console s ++ [(ErrorLevel, msg)];
     sleeps := sleeps s ++ [d]; calls := calls s |}.

Lemma retryLoop_ok T (op : M World T) name retries n attempt s v s' :
  op s = (Ok v, s') ->
  retryLoop host (S n) op name retries attempt s = (Ok v, s').
Proof.
  intros H. cbn [retryLoop]. unfold try_catch. rewrite H. reflexivity.
Qed.

Lemma retryLoop_again T (op : M World T) name retries n attempt s e s' :
  op s = (Throw e, s') ->
  (attempt < retries)%nat ->
  isTransient e = true ->
  exists msg,
    retryLoop host (S n) op name retries attempt s
    = retryLoop host n op name retries (attempt + 1)
        (backed_off s' msg (INITIAL_DELAY_MS * 2 ^ Z.of_nat attempt)).
Proof.
  intros H Hlt Htr. cbn [retryLoop]. unfold try_catch. rewrite H.
  apply Nat.ltb_lt in Hlt. rewrite Hlt, andb_true_r, andb_true_l.
  unfold isTransient in Htr.
  destruct (isRateLimitError e); cbn [orb] in Htr.
  - eexists. reflexivity.
  - rewrite Htr. eexists. reflexivity.
Qed.

Lemma retryLoop_throw T (op : M World T) name retries n attempt s e s' :
  op s = (Throw e, s') ->
  (retries <= attempt)%nat \/ isTransient e = false ->
  retryLoop host (S n) op name retries attempt s = (Throw e, s').
Proof.
  intros H Hc. cbn [retryLoop]. unfold try_catch. rewrite H.
  destruct Hc as [Hge|Htr].
  - apply Nat.ltb_ge in Hge. rewrite Hge, andb_false_r, andb_false_l.
    reflexivity.
  - unfold isTransient in Htr. apply orb_false_iff in Htr.
    destruct Htr as [H1 H2]. rewrite H1, H2, andb_false_l, andb_false_r.
    reflexivity.
Qed.

Lemma retryLoop_request T (f : World -> Result T * World) name retries :
  forall n attempt s,
    (attempt + n = retries)%nat ->
    let '(r, s') := retryLoop host (S n) (request f) name retries attempt s in
    let '(r0, w0, ds) := retry_policy_spec (schedule n attempt) f (world s) in
    r = r0 /\ world s' = w0 /\ sleeps s' = sleeps s ++ ds
    /\ syncState s' = syncState s /\ calls s' = calls s.
Proof.
  induction n as [|n IH]; intros attempt s Hn;
    cbn [schedule retry_policy_spec];
    destruct (f (world s)) as [[v|e] w'] eqn:Hf.
  - erewrite retryLoop_ok by (unfold request; rewrite Hf; reflexivity).
    cbn [world sleeps syncState calls]. rewrite app_nil_r. auto.
  - erewrite retryLoop_throw;
      [| unfold request; rewrite Hf; reflexivity | left; lia].
    cbn [world sleeps syncState calls]. rewrite app_nil_r. auto.
  - erewrite retryLoop_ok by (unfold request; rewrite Hf; reflexivity).
    cbn [world sleeps syncState calls]. rewrite app_nil_r. auto.
  - destruct (isTransient e) eqn:Htr.
    + destruct (@retryLoop_again T (request f) name retries (S n) attempt s e
                  {| world := w'; syncState := syncState s;
                     console := console s; sleeps := sleeps s;
                     calls := calls s |}) as [msg Hmsg];
        [unfold request; rewrite Hf; reflexivity | lia | exact Htr |].
      rewrite Hmsg.
      specialize (IH (attempt + 1)%nat
                    (backed_off {| world := w'; syncState := syncState s;
                                   console := console s; sleeps := sleeps s;
                                   calls := calls s |} msg
                                (INITIAL_DELAY_MS * 2 ^ Z.of_nat attempt))).
      replace (attempt + 1)%nat with (S attempt) in * by lia.
      destruct (retryLoop host (S n) (request f) name retries (S attempt) _)
        as [r s'].
      cbn [backed_off world sleeps syncState calls] in IH.
      destruct (retry_policy_spec (schedule n (S attempt)) f w')
        as [[r0 w0] ds].
      destruct IH as (H1 & H2 & H3 & H4 & H5); [lia|].
      repeat split; auto.
      rewrite H3, <- app_assoc. reflexivity.
    + erewrite retryLoop_throw;
        [| unfold request; rewrite Hf; reflexivity | right; exact Htr].
      cbn [world sleeps syncState calls]. rewrite app_nil_r. auto.
Qed.

(** The loop with [MAX_RETRIES = 5] is the policy with the five delays
    1000, 2000, 4000, 8000 and 16000 ms. *)
Lemma retryWithBackoff_follows_policy T (f : World -> Result T * World) name s :
  let '(r, s') := retryWithBackoff host (request f) name MAX_RETRIES s in
  let '(r0, w0, ds) :=
    retry_policy_spec [1000; 2000; 4000; 8000; 16000] f (world s) in
  r = r0 /\ world s' = w0 /\ sleeps s' = sleeps s ++ ds
  /\ syncState s' = syncState s /\ calls s' = calls s.
Proof.
  unfold retryWithBackoff.
  exact (@retryLoop_request T f name MAX_RETRIES MAX_RETRIES 0%nat s eq_refl).
Qed.

(** *** The policy in the words of the specification

    The specification names the transient errors by kind: rate limit,
    server error, connection reset.  [Transient server] spells the kinds
    out without reference to the tests of the code; [server] says which
    status codes count as a server error. *)
Inductive Transient (server : Z -> Prop) (e : Error) : Prop :=
| rate_limit_status :
    code e = CodeNumber 429 -> Transient server e
| rate_limit_message m phrase :
    message e = Some m ->
    In phrase ["Quota Exceeded"; "Rate Limit Exceeded"; "rateLimitExceeded"] ->
    includes m phrase = true ->
    Transient server e
| server_status n :
    code e = CodeNumber n -> server n -> Transient server e
| server_status_text t n :
    code e = CodeString t -> ToNumber host t = Some n -> server n ->
    Transient server e
| connection_reset :
    code e = CodeString "ECONNRESET" -> Transient server e.

(** The status codes 500 to 599, as the specification has it, and the
    status codes from 500 on, as the code has it. *)
Definition is_5xx (n : Z) : Prop := 500 <= n <= 599.

Definition from_500 (n : Z) : Prop := 500 <= n.

(** Retrying with back-off, as a relation: [backs_off transient f delays
    w r w' ds] holds when calling [f] from [w], and calling it again
    after each delay of [delays] as long as it fails with a transient
    error, ends in the world [w'] with the answer [r] after the delays
    [ds]. *)
Inductive backs_off {T} (transient : Error -> Prop)
    (f : World -> Result T * World)
    : list Z -> World -> Result T -> World -> list Z -> Prop :=
| answered delays w v w' :
    f w = (Ok v, w') ->
    backs_off transient f delays w (Ok v) w' []
| refused delays w e w' :
    f w = (Throw e, w') -> ~ transient e ->
    backs_off transient f delays w (Throw e) w' []
| exhausted w e w' :
    f w = (Throw e, w') ->
    backs_off transient f [] w (Throw e) w' []
| retried d delays w e w1 r w' ds :
    f w = (Throw e, w1) -> transient e ->
    backs_off transient f delays w1 r w' ds ->
    backs_off transient f (d :: delays) w r w' (d :: ds).

Lemma code_is_number_true c n : code_is_number c n = true <-> c = CodeNumber n.
Proof.
  destruct c as [|m|t]; cbn; split; try discriminate.
  - intros H. apply Z.eqb_eq in H. now subst.
  - intros H. injection H as ->. apply Z.eqb_refl.
Qed.

Lemma code_is_string_true c t : code_is_string c t = true <-> c = CodeString t.
Proof.
  destruct c as [|m|u]; cbn; split; try discriminate.
  - intros H. apply String.eqb_eq in H. now subst.
  - intros H. injection H as ->. apply String.eqb_refl.
Qed.

Lemma code_ge_true c k :
  code_ge host c k = true
  <-> (exists n, c = CodeNumber n /\ k <= n)
      \/ (exists t n, c = CodeString t /\ ToNumber host t = Some n /\ k <= n).
Proof.
  destruct c as [|m|t]; cbn; split.
  - discriminate.
  - intros [(n & H & _)|(u & n & H & _)]; discriminate.
  - intros H. apply Z.leb_le in H. left. eauto.
  - intros [(n & H & Hle)|(u & n & H & _)]; [|discriminate].
    injection H as ->. now apply Z.leb_le.
  - destruct (ToNumber host t) as [n|] eqn:Hn; [|discriminate].
    intros H. apply Z.leb_le in H. right. eauto.
  - intros [(n & H & _)|(u & n & H & Hn & Hle)]; [discriminate|].
    injection H as <-. rewrite Hn. now apply Z.leb_le.
Qed.

Lemma message_includes_true e phrase :
  message_includes e phrase = true
  <-> exists m, message e = Some m /\ includes m phrase = true.
Proof.
  unfold message_includes. destruct (message e) as [m|]; split.
  - eauto.
  - intros (m' & H & Hin). injection H as <-. exact Hin.
  - discriminate.
  - intros (m' & H & _). discriminate.
Qed.

(** The tests of the code pick out exactly the transient errors, with
    every status code from 500 on counted as a server error. *)
Lemma isTransient_iff e : isTransient e = true <-> Transient from_500 e.
Proof.
  unfold isTransient, isRateLimitError, isServerError.
  rewrite !orb_true_iff, code_is_number_true, !message_includes_true,
    code_ge_true, code_is_string_true.
  split.
  - intros [[[[H|(m & Hm & Hin)]|(m & Hm & Hin)]|(m & Hm & Hin)]
           |[[(n & Hc & Hn)|(t & n & Hc & Ht & Hn)]|H]].
    + now apply rate_limit_status.
    + apply rate_limit_message with (m := m) (phrase := "Quota Exceeded");
        cbn; auto.
    + apply rate_limit_message with (m := m) (phrase := "Rate Limit Exceeded");
        cbn; auto.
    + apply rate_limit_message with (m := m) (phrase := "rateLimitExceeded");
        cbn; auto.
    + now apply server_status with (n := n).
    + now apply server_status_text with (t := t) (n := n).
    + now apply connection_reset.
  - intros [H|m phrase Hm Hin Hinc|n Hc Hn|t n Hc Ht Hn|H].
    + auto.
    + left. cbn in Hin.
      destruct Hin as [<-|[<-|[<-|[]]]]; eauto 6.
    + right. left. left. eauto.
    + right. left. right. eauto.
    + auto.
Qed.

Lemma policy_backs_off T (f : World -> Result T * World) delays :
  forall w r w' ds,
    retry_policy_spec delays f w = (r, w', ds) ->
    backs_off (Transient from_500) f delays w r w' ds.
Proof.
  induction delays as [|d delays IH]; intros w r w' ds; cbn [retry_policy_spec];
    destruct (f w) as [[v|e] w1] eqn:Hf.
  - intros H. injection H as <- <- <-. now apply answered.
  - intros H. injection H as <- <- <-. now apply exhausted.
  - intros H. injection H as <- <- <-. now apply answered.
  - destruct (isTransient e) eqn:Htr.
    + destruct (retry_policy_spec delays f w1) as [[r1 w2] ds1] eqn:Hrest.
      intros H. injection H as <- <- <-.
      apply retried with (e := e) (w1 := w1); auto.
      now apply isTransient_iff.
    + intros H. injection H as <- <- <-.
      apply refused; auto.
      intros Hco. apply isTransient_iff in Hco. congruence.
Qed.

(** C8, as the code has it.  A call that goes through [retryWithBackoff]
    with [MAX_RETRIES = 5] is attempted again after a transient error, up
    to five times, after delays of exactly 1000, 2000, 4000, 8000 and
    16000 ms; when the five retries are used up the last error is thrown
    to the caller; an error that is not transient is thrown at once.
    Transient are: a rate limit (code 429, or a message that contains
    ["Quota Exceeded"], ["Rate Limit Exceeded"] or ["rateLimitExceeded"]),
    a server error, which is every code from 500 on and not only 500 to
    599, and a connection reset (code ["ECONNRESET"]).  Nothing but the
    world and the sleep record changes. *)
Theorem retryWithBackoff_retries_transient_errors T
    (f : World -> Result T * World) name s :
  exists r s' ds,
    retryWithBackoff host (request f) name MAX_RETRIES s = (r, s')
    /\ backs_off (Transient from_500) f [1000; 2000; 4000; 8000; 16000]
         (world s) r (world s') ds
    /\ sleeps s' = sleeps s ++ ds
    /\ syncState s' = syncState s /\ calls s' = calls s.
Proof.
  pose proof (@retryWithBackoff_follows_policy T f name s) as H.
  destruct (retryWithBackoff host (request f) name MAX_RETRIES s) as [r s'].
  destruct (retry_policy_spec [1000; 2000; 4000; 8000; 16000] f (world s))
    as [[r0 w0] ds] eqn:Hpol.
  destruct H as (-> & <- & Hs & Hst & Hc).
  exists r0, s', ds. split; [reflexivity|].
  split; [now apply policy_backs_off|]. auto.
Qed.

End Retry.

(** The reference world with a queue of faults: [Some e] makes the next
    request fail with [e], [None] lets it through. *)
Definition Ideal_failing (fs : list (option Error)) (a b : list Task)
    : Ideal.World :=
  {| Ideal.storeA := a; Ideal.storeB := b;
     Ideal.listsA := [Ideal.the_list]; Ideal.listsB := [Ideal.the_list];
     Ideal.nextId := 1; Ideal.clock := 1735689600000; Ideal.disk := None;
     Ideal.listName := None; Ideal.faults := fs |}.

Definition forbidden : Error :=
  {| code := CodeNumber 403; message := Some "Forbidden"; is_Error := true;
     stack := Some "Error: Forbidden"; as_string := "Error: Forbidden" |}.

Definition unavailable : Error :=
  {| code := CodeNumber 503; message := Some "Service Unavailable";
     is_Error := true; stack := Some "Error: Service Unavailable";
     as_string := "Error: Service Unavailable" |}.

Definition too_many_requests : Error :=
  {| code := CodeNumber 429; message := Some "Too Many Requests";
     is_Error := true; stack := Some "Error: Too Many Requests";
     as_string := "Error: Too Many Requests" |}.

(** The API reports an exhausted quota with status 403. *)
Definition quota_exceeded : Error :=
  {| code := CodeNumber 403; message := Some "Quota Exceeded for quota metric";
     is_Error := true; stack := Some "Error: Quota Exceeded for quota metric";
     as_string := "Error: Quota Exceeded for quota metric" |}.

Definition socket_hang_up : Error :=
  {| code := CodeString "ECONNRESET"; message := Some "socket hang up";
     is_Error := true; stack := Some "Error: socket hang up";
     as_string := "Error: socket hang up" |}.

(** An error whose code is above the range of the HTTP status codes. *)
Definition status_600 : Error :=
  {| code := CodeNumber 600; message := Some "Unknown Error";
     is_Error := true; stack := Some "Error: Unknown Error";
     as_string := "Error: Unknown Error" |}.

Definition env_of (w : Ideal.World) : Env Ideal.World :=
  {| world := w; syncState := freshState; console := []; sleeps := [];
     calls := [] |}.

(** The tests of the code on one error of each kind. *)
Example isTransient_by_kind :
  map (isTransient Ideal.host)
    [too_many_requests; quota_exceeded; unavailable; socket_hang_up;
     status_600; forbidden; Ideal.not_found]
  = [true; true; true; true; true; false; false].
Proof. reflexivity. Qed.

Lemma status_600_not_5xx : ~ Transient Ideal.host is_5xx status_600.
Proof.
  intros [H|m phrase Hm Hin Hinc|n Hc Hn|t n Hc Ht Hn|H]; try discriminate.
  - injection Hm as <-. cbn in Hin.
    destruct Hin as [<-|[<-|[<-|[]]]]; discriminate.
  - injection Hc as <-. unfold is_5xx in Hn. lia.
Qed.

(** C8 as the specification states it, with the server errors the codes
    500 to 599.  A [tasks.delete] fails once with code 600, which is no
    rate limit, no 5xx and no connection reset, so that the error should
    reach the caller at once; the call is attempted again after 1000 ms
    and succeeds. *)
Lemma status_600_is_retried :
  let a := Ideal.task "a1" "Buy milk" None "needsAction" "2024-01-01T00:00:00.000Z" in
  let f := tasks_delete Ideal.host AccountA "L" "a1" in
  let s := env_of (Ideal_failing [Some status_600] [a] []) in
  ~ Transient Ideal.host is_5xx status_600
  /\ retryWithBackoff Ideal.host (request f) "deleteTask" MAX_RETRIES s
     = (Ok tt,
        {| world := Ideal_failing [] [] []; syncState := freshState;
           console :=
             [(ErrorLevel,
               "Server error for deleteTask. Retrying in 1000ms (attempt 1/5)...")];
           sleeps := [1000]; calls := [] |})
  /\ ~ (exists r s' ds,
          retryWithBackoff Ideal.host (request f) "deleteTask" MAX_RETRIES s
          = (r, s')
          /\ backs_off (Transient Ideal.host is_5xx) f
               [1000; 2000; 4000; 8000; 16000] (world s) r (world s') ds
          /\ sleeps s' = sleeps s ++ ds
          /\ syncState s' = syncState s /\ calls s' = calls s).
Proof.
  intros a f s. split; [exact status_600_not_5xx|].
  split; [reflexivity|].
  intros (r & s' & ds & Hrun & Hb & _).
  inversion Hb as [delays w v w' Hf|delays w e w' Hf Hno|w e w' Hf
                  |d delays w e w1 r1 w' ds1 Hf Htr Hrest]; subst.
  - vm_compute in Hf. discriminate.
  - vm_compute in Hrun. injection Hrun as Hr _. discriminate.
  - vm_compute in Hf. injection Hf as <- _. now apply status_600_not_5xx.
Qed.

(** Three calls of [tasks.delete].  The first fails with a rate limit
    status, a quota message, a server error and a connection reset in
    turn, and succeeds at the fifth attempt; the second fails six times
    with 503, and the sixth error is thrown after the five delays; the
    third is refused with 403, which is thrown at once. *)
Lemma retryWithBackoff_retries_transient_errors_witness :
  let a := Ideal.task "a1" "Buy milk" None "needsAction" "2024-01-01T00:00:00.000Z" in
  let f := tasks_delete Ideal.host AccountA "L" "a1" in
  let run fs :=
    retryWithBackoff Ideal.host (request f) "deleteTask" MAX_RETRIES
      (env_of (Ideal_failing fs [a] [])) in
  let policy fs :=
    backs_off (Transient Ideal.host from_500) f [1000; 2000; 4000; 8000; 16000]
      (Ideal_failing fs [a] []) in
  let mixed := [Some too_many_requests; Some quota_exceeded; Some unavailable;
                Some socket_hang_up] in
  let down := repeat (Some unavailable) 6 in
  (fst (run mixed) = Ok tt
   /\ sleeps (snd (run mixed)) = [1000; 2000; 4000; 8000]
   /\ policy mixed (Ok tt) (Ideal_failing [] [] []) [1000; 2000; 4000; 8000])
  /\ (fst (run down) = Throw unavailable
      /\ sleeps (snd (run down)) = [1000; 2000; 4000; 8000; 16000]
      /\ policy down (Throw unavailable) (Ideal_failing [] [a] [])
           [1000; 2000; 4000; 8000; 16000])
  /\ (fst (run [Some forbidden]) = Throw forbidden
      /\ sleeps (snd (run [Some forbidden])) = []
      /\ policy [Some forbidden] (Throw forbidden) (Ideal_failing [] [a] []) []).
Proof.
  intros a f run policy mixed down.
  assert (Hall : forall fs,
            exists r s' ds,
              run fs = (r, s')
              /\ policy fs r (world s') ds /\ sleeps s' = ds).
  { intros fs.
    destruct (@retryWithBackoff_retries_transient_errors _ Ideal.host unit f
                "deleteTask" (env_of (Ideal_failing fs [a] [])))
      as (r & s' & ds & Hrun & Hb & Hs & _).
    exists r, s', ds. auto. }
  split; [|split].
  - destruct (Hall mixed) as (r & s' & ds & Hrun & Hb & Hs).
    vm_compute in Hrun. injection Hrun as <- <-. cbn in Hs. subst ds.
    split; [reflexivity|]. split; [reflexivity | exact Hb].
  - destruct (Hall down) as (r & s' & ds & Hrun & Hb & Hs).
    vm_compute in Hrun. injection Hrun as <- <-. cbn in Hs. subst ds.
    split; [reflexivity|]. split; [reflexivity | exact Hb].
  - destruct (Hall [Some forbidden]) as (r & s' & ds & Hrun & Hb & Hs).
    vm_compute in Hrun. injection Hrun as <- <-. cbn in Hs. subst ds.
    split; [reflexivity|]. split; [reflexivity | exact Hb].
Defined.


(* ================================================================== *)
(** ** What one client call does

    A call of [createTask], [updateTask] or [deleteTask] is recorded,
    then its request goes through [retryWithBackoff]: some attempts fail
    and are retried, the last one settles the call.  Only the world, the
    console and the sleep record change on the way. *)

Section ClientCalls.

Context {World : Type}.
Variable host : Host World.

(** [w'] is reached from [w] by attempts of [f] that all failed. *)
Inductive failed_attempts {T} (f : World -> Result T * World)
    : World -> World -> Prop :=
| fa_none w : failed_attempts f w w
| fa_more w e w' w'' :
    f w = (Throw e, w') -> failed_attempts f w' w'' -> failed_attempts f w w''.

(** The call was settled with [r] and left the world [w']. *)
Definition settles {T} (f : World -> Result T * World) (w : World)
    (r : Result T) (w' : World) : Prop :=
  exists w1, failed_attempts f w w1 /\ f w1 = (r, w').

(** The answer of a call and the world it leaves, by the retry policy. *)
Definition outcome {T} (f : World -> Result T * World) (w : World)
    : Result T * World :=
  let '(r, w', _) := retry_policy_spec host (schedule MAX_RETRIES 0) f w in
  (r, w').

Lemma retryWithBackoff_outcome T (f : World -> Result T * World) name s r s' :
  retryWithBackoff host (request f) name MAX_RETRIES s = (r, s') ->
  outcome f (world s) = (r, world s')
  /\ syncState s' = syncState s /\ calls s' = calls s.
Proof.
  unfold retryWithBackoff, outcome. intros H.
  pose proof (@retryLoop_request World host T f name MAX_RETRIES MAX_RETRIES
                0%nat s eq_refl) as Hp.
  rewrite H in Hp.
  destruct (retry_policy_spec host (schedule MAX_RETRIES 0) f (world s))
    as [[r0 w0] ds].
  destruct Hp as (-> & -> & _ & Hst & Hc). auto.
Qed.

Lemma policy_settles T (f : World -> Result T * World) :
  forall delays w r w' ds,
    retry_policy_spec host delays f w = (r, w', ds) -> settles f w r w'.
Proof.
  induction delays as [|d rest IH]; intros w r w' ds H; cbn in H;
    destruct (f w) as [[v|e] w1] eqn:Hf.
  - inversion H; subst. exists w. split; [constructor | exact Hf].
  - inversion H; subst. exists w. split; [constructor | exact Hf].
  - inversion H; subst. exists w. split; [constructor | exact Hf].
  - destruct (isTransient host e).
    + destruct (retry_policy_spec host rest f w1) as [[r1 w2] ds1] eqn:Hrec.
      inversion H; subst.
      destruct (IH _ _ _ _ Hrec) as (w3 & Hfa & Hlast).
      exists w3. split; [econstructor; eauto | exact Hlast].
    + inversion H; subst. exists w. split; [constructor | exact Hf].
Qed.

Lemma outcome_settles T (f : World -> Result T * World) w r w' :
  outcome f w = (r, w') -> settles f w r w'.
Proof.
  unfold outcome. intros H.
  destruct (retry_policy_spec host (schedule MAX_RETRIES 0) f w)
    as [[r0 w0] ds] eqn:Hp.
  inversion H; subst. eapply policy_settles; eauto.
Qed.

(** A request that is answered at once settles the call at once. *)
Lemma outcome_first_ok T (f : World -> Result T * World) w v w' :
  f w = (Ok v, w') -> outcome f w = (Ok v, w').
Proof. intros H. unfold outcome. cbn. rewrite H. reflexivity. Qed.

Lemma outcome_first_fatal T (f : World -> Result T * World) w e w' :
  f w = (Throw e, w') -> isTransient host e = false ->
  outcome f w = (Throw e, w').
Proof. intros H Ht. unfold outcome. cbn. rewrite H, Ht. reflexivity. Qed.

Lemma createTask_outcome acc taskListId task s r s' :
  createTask host acc taskListId task s = (r, s') ->
  outcome (tasks_insert host acc taskListId (body_of None task)) (world s)
  = (r, world s')
  /\ syncState s' = syncState s
  /\ calls s' = calls s ++ [CallCreate acc taskListId (body_of None task)].
Proof.
  unfold createTask, bind, record_call. cbn [fst snd]. intros H.
  apply retryWithBackoff_outcome in H. exact H.
Qed.

Lemma deleteTask_outcome acc taskListId taskId s r s' :
  deleteTask host acc taskListId taskId s = (r, s') ->
  outcome (tasks_delete host acc taskListId taskId) (world s) = (r, world s')
  /\ syncState s' = syncState s
  /\ calls s' = calls s ++ [CallDelete acc taskListId taskId].
Proof.
  unfold deleteTask, bind, record_call. cbn [fst snd]. intros H.
  apply retryWithBackoff_outcome in H. exact H.
Qed.

Lemma updateTask_outcome acc taskListId taskId task s r s' :
  taskId <> EmptyString ->
  updateTask host acc taskListId taskId task s = (r, s') ->
  outcome (tasks_update host acc taskListId taskId (body_of (Some taskId) task))
          (world s) = (r, world s')
  /\ syncState s' = syncState s
  /\ calls s' = calls s
                ++ [CallUpdate acc taskListId taskId (body_of (Some taskId) task)].
Proof.
  intros Hid. unfold updateTask.
  destruct (String.eqb_spec taskId EmptyString) as [->|_]; [congruence|].
  unfold bind, record_call. cbn [fst snd]. intros H.
  apply retryWithBackoff_outcome in H. exact H.
Qed.

Lemma updateTask_missing_id acc taskListId task s :
  updateTask host acc taskListId EmptyString task s
  = (Throw (Error_new host "Cannot update task: taskId is missing"), s).
Proof. reflexivity. Qed.

End ClientCalls.

(* ================================================================== *)
(** ** What one iteration of each loop does

    The effect of a loop body on the world, the ledger and the call
    record, for every answer the stores can give.  The console and the
    sleep record are left out: the program never reads them. *)

Section Steps.

Context {World : Type}.
Variable host : Host World.
Variables taskListA taskListB : TaskList.t.

Definition ledger (s : Env World) : Dict.t SyncRecord := tasks (syncState s).

Definition byA (i : string) (r : SyncRecord) : bool := String.eqb (accountAId r) i.
Definition byB (i : string) (r : SyncRecord) : bool := String.eqb (accountBId r) i.

Definition list_of (acc : Account) : string :=
  match acc with
  | AccountA => TaskList.id taskListA
  | AccountB => TaskList.id taskListB
  end.

(** Writing to [dst] copies [source] onto [target]. *)
Definition target (dst : Account) (taskA taskB : Task) : Task :=
  match dst with AccountA => taskA | AccountB => taskB end.

Definition source (dst : Account) (taskA taskB : Task) : Task :=
  match dst with AccountA => taskB | AccountB => taskA end.

(** The ledger after [syncRecord.lastSyncedUpdate = v] for the record of
    [taskA]. *)
Definition advanced (taskA : Task) (v : string) (d : Dict.t SyncRecord)
    : Dict.t SyncRecord :=
  Dict.modify_first (byA (id taskA)) (setLastSyncedUpdate v) d.

(** Which side the first loop writes to, if any (lines 304-376). *)
Definition direction (taskA taskB : Task) (syncRecord : SyncRecord)
    : option Account :=
  let aModified := date_gt host (updated taskA) (lastSyncedUpdate syncRecord) in
  let bModified := date_gt host (updated taskB) (lastSyncedUpdate syncRecord) in
  if aModified && bModified then
    if date_gt host (updated taskA) (updated taskB)
    then Some AccountB else Some AccountA
  else if aModified then Some AccountB
  else if bModified then Some AccountA
  else None.

Definition update_call (dst : Account) (taskA taskB : Task) : Call :=
  CallUpdate dst (list_of dst) (id (target dst taskA taskB))
    (body_of (Some (id (target dst taskA taskB))) (source dst taskA taskB)).

Definition update_request (dst : Account) (taskA taskB : Task)
    : World -> Result Task * World :=
  tasks_update host dst (list_of dst) (id (target dst taskA taskB))
    (body_of (Some (id (target dst taskA taskB))) (source dst taskA taskB)).

Definition copied (dst : Account) (taskA taskB : Task) (syncRecord : SyncRecord)
    (s s' : Env World) : Prop :=
  if tasksAreEqual taskA taskB then
    world s' = world s /\ calls s' = calls s
    /\ ledger s' = advanced taskA (updated (source dst taskA taskB)) (ledger s)
  else if String.eqb (id (target dst taskA taskB)) EmptyString then
    world s' = world s /\ calls s' = calls s /\ ledger s' = ledger s
  else
    calls s' = calls s ++ [update_call dst taskA taskB]
    /\ exists r,
         outcome host (update_request dst taskA taskB) (world s) = (r, world s')
         /\ ledger s'
            = match r with
              | Ok _ => advanced taskA (updated (source dst taskA taskB)) (ledger s)
              | Throw e =>
                  if is_404_or_400 e
                  then Dict.delete (recordKey syncRecord) (ledger s)
                  else ledger s
              end.

Lemma copyOnto_spec dst taskA taskB syncRecord announce s :
  exists s',
    copyOnto host dst taskListA taskListB taskA taskB syncRecord announce s
    = (Ok tt, s')
    /\ lastSyncTime (syncState s') = lastSyncTime (syncState s)
    /\ copied dst taskA taskB syncRecord s s'.
Proof.
  unfold copyOnto, copied.
  fold (list_of dst). fold (target dst taskA taskB). fold (source dst taskA taskB).
  destruct (tasksAreEqual taskA taskB) eqn:Heq; cbn [negb].
  - destruct announce; cbn; eexists; (split; [reflexivity|]); cbn; auto.
  - destruct (String.eqb_spec (id (target dst taskA taskB)) EmptyString) as [He|Hne].
    + rewrite He. unfold try_catch, bind at 1 2.
      rewrite updateTask_missing_id. cbn.
      eexists; (split; [reflexivity|]); cbn; auto.
    + unfold try_catch, bind at 1 2.
      destruct (updateTask host dst (list_of dst) (id (target dst taskA taskB))
                  (source dst taskA taskB) s) as [r s1] eqn:Hu.
      apply updateTask_outcome in Hu; [|exact Hne].
      destruct Hu as (Hset & Hst & Hcalls).
      destruct r as [t|e].
      * cbn. eexists; (split; [reflexivity|]); cbn.
        unfold ledger. rewrite Hst. repeat split; auto.
        exists (Ok t). split; auto.
      * unfold bind, log. cbn [fst snd].
        destruct (is_404_or_400 e) eqn:H404; cbn;
          (eexists; (split; [reflexivity|]); cbn;
           unfold ledger; cbn; rewrite ?Hst; repeat split; auto;
           exists (Throw e); rewrite H404; split; auto).
Qed.

Definition new_record_A (taskA newTaskB : Task) : SyncRecord :=
  {| accountAId := id taskA; accountBId := id newTaskB;
     lastSyncedUpdate := updated taskA |}.

Definition new_record_B (newTaskA taskB : Task) : SyncRecord :=
  {| accountAId := id newTaskA; accountBId := id taskB;
     lastSyncedUpdate := updated taskB |}.

Definition stepA (tasksBMap : Dict.t Task) (P : StrSet.t) (taskA : Task)
    (s : Env World) (P' : StrSet.t) (s' : Env World) : Prop :=
  match find (byA (id taskA)) (Dict.values (ledger s)) with
  | Some syncRecord =>
      match Dict.get (accountBId syncRecord) tasksBMap with
      | Some taskB =>
          P' = StrSet.add (recordKey syncRecord) P
          /\ match direction taskA taskB syncRecord with
             | Some dst => copied dst taskA taskB syncRecord s s'
             | None =>
                 world s' = world s /\ calls s' = calls s
                 /\ ledger s' = ledger s
             end
      | None =>
          P' = P
          /\ calls s' = calls s
                        ++ [CallDelete AccountA (TaskList.id taskListA) (id taskA)]
          /\ (exists r, outcome host (tasks_delete host AccountA
                                         (TaskList.id taskListA) (id taskA))
                           (world s) = (r, world s'))
          /\ ledger s' = Dict.delete (recordKey syncRecord) (ledger s)
      end
  | None =>
      calls s' = calls s
                 ++ [CallCreate AccountB (TaskList.id taskListB) (body_of None taskA)]
      /\ exists r,
           outcome host (tasks_insert host AccountB (TaskList.id taskListB)
                           (body_of None taskA)) (world s) = (r, world s')
           /\ match r with
              | Ok newTaskB =>
                  ledger s' = Dict.set (pairKey (id taskA) (id newTaskB))
                                (new_record_A taskA newTaskB) (ledger s)
                  /\ P' = StrSet.add (pairKey (id taskA) (id newTaskB)) P
              | Throw _ => ledger s' = ledger s /\ P' = P
              end
  end.

Lemma processTaskA_spec tasksBMap P taskA s :
  exists P' s',
    processTaskA host taskListA taskListB tasksBMap P taskA s = (Ok P', s')
    /\ lastSyncTime (syncState s') = lastSyncTime (syncState s)
    /\ stepA tasksBMap P taskA s P' s'.
Proof.
  unfold processTaskA, stepA, ledger.
  unfold bind at 1. unfold get_syncState at 1. cbn [fst snd].
  fold (byA (id taskA)).
  destruct (find (byA (id taskA)) (Dict.values (tasks (syncState s))))
    as [syncRecord|] eqn:Hfind.
  - destruct (Dict.get (accountBId syncRecord) tasksBMap) as [taskB|] eqn:Hget.
    + unfold direction.
      set (aModified := date_gt host (updated taskA) (lastSyncedUpdate syncRecord)).
      set (bModified := date_gt host (updated taskB) (lastSyncedUpdate syncRecord)).
      unfold bind at 1 2 3. unfold log at 1 2 3. cbn [fst snd].
      match goal with
      | |- context [bind _ (fun _ => ret (StrSet.add _ _)) ?s0] => set (s1 := s0)
      end.
      assert (Hcopy : forall dst announce msg,
        exists s',
          bind (bind (log Info msg)
                  (fun _ => copyOnto host dst taskListA taskListB taskA taskB
                              syncRecord announce))
               (fun _ => ret (StrSet.add (recordKey syncRecord) P)) s1
          = (Ok (StrSet.add (recordKey syncRecord) P), s')
          /\ lastSyncTime (syncState s') = lastSyncTime (syncState s)
          /\ copied dst taskA taskB syncRecord s s').
      { intros dst announce msg. unfold bind at 1 2. unfold log at 1.
        cbn [fst snd].
        match goal with
        | |- context [copyOnto host dst taskListA taskListB taskA taskB
                        syncRecord announce ?s0] =>
            destruct (copyOnto_spec dst taskA taskB syncRecord announce s0)
              as (s' & Hc & Hl & Hcp)
        end.
        rewrite Hc. exists s'. split; [reflexivity|]. split; [exact Hl|].
        unfold copied in *. unfold ledger in *. exact Hcp. }
      destruct (aModified && bModified).
      * destruct (date_gt host (updated taskA) (updated taskB)).
        -- destruct (Hcopy AccountB false
                       ("Conflict resolved: A -> B (" +++ title taskA +++ ")"))
             as (s' & H1 & H2 & H3).
           exists (StrSet.add (recordKey syncRecord) P), s'. auto.
        -- destruct (Hcopy AccountA false
                       ("Conflict resolved: B -> A (" +++ title taskB +++ ")"))
             as (s' & H1 & H2 & H3).
           exists (StrSet.add (recordKey syncRecord) P), s'. auto.
      * destruct aModified.
        -- destruct (Hcopy AccountB true ("Syncing A -> B: " +++ title taskA))
             as (s' & H1 & H2 & H3).
           exists (StrSet.add (recordKey syncRecord) P), s'. auto.
        -- destruct bModified.
           ++ destruct (Hcopy AccountA true ("Syncing B -> A: " +++ title taskB))
                as (s' & H1 & H2 & H3).
              exists (StrSet.add (recordKey syncRecord) P), s'. auto.
           ++ eexists _, _. split; [reflexivity|]. cbn. auto.
    + unfold bind at 1 2 3. unfold log at 1. cbn [fst snd].
      unfold try_catch.
      match goal with
      | |- context [deleteTask host AccountA ?l ?i ?s0] =>
          destruct (deleteTask host AccountA l i s0) as [r s1] eqn:Hd
      end.
      apply deleteTask_outcome in Hd. cbn [world syncState calls] in Hd.
      destruct Hd as (Hset & Hst & Hcalls).
      destruct r as [[]|e]; cbn;
        (eexists _, _; split; [reflexivity|]; cbn; rewrite ?Hst;
         repeat split; eauto).
  - unfold bind at 1. unfold log at 1. cbn [fst snd].
    unfold try_catch. unfold bind at 1.
    match goal with
    | |- context [createTask host AccountB ?l ?t ?s0] =>
        destruct (createTask host AccountB l t s0) as [r s1] eqn:Hc
    end.
    apply createTask_outcome in Hc. cbn [world syncState calls] in Hc.
    destruct Hc as (Hset & Hst & Hcalls).
    destruct r as [newTaskB|e]; cbn;
      (eexists _, _; split; [reflexivity|]; cbn; rewrite ?Hst;
       repeat split; auto).
    + exists (Ok newTaskB). split; [exact Hset|]. split; reflexivity.
    + exists (Throw e). split; [exact Hset|]. split; reflexivity.
Qed.

Definition stepB (P : StrSet.t) (taskB : Task) (s s' : Env World) : Prop :=
  match find (byB (id taskB)) (Dict.values (ledger s)) with
  | Some syncRecord =>
      if StrSet.has (recordKey syncRecord) P then s' = s
      else
        calls s' = calls s
                   ++ [CallDelete AccountB (TaskList.id taskListB) (id taskB)]
        /\ (exists r, outcome host (tasks_delete host AccountB
                                       (TaskList.id taskListB) (id taskB))
                         (world s) = (r, world s'))
        /\ ledger s' = Dict.delete (recordKey syncRecord) (ledger s)
  | None =>
      calls s' = calls s
                 ++ [CallCreate AccountA (TaskList.id taskListA) (body_of None taskB)]
      /\ exists r,
           outcome host (tasks_insert host AccountA (TaskList.id taskListA)
                           (body_of None taskB)) (world s) = (r, world s')
           /\ match r with
              | Ok newTaskA =>
                  ledger s' = Dict.set (pairKey (id newTaskA) (id taskB))
                                (new_record_B newTaskA taskB) (ledger s)
              | Throw _ => ledger s' = ledger s
              end
  end.

Lemma processTaskB_spec P taskB s :
  exists s',
    processTaskB host taskListA taskListB P taskB s = (Ok tt, s')
    /\ lastSyncTime (syncState s') = lastSyncTime (syncState s)
    /\ stepB P taskB s s'.
Proof.
  unfold processTaskB, stepB, ledger.
  unfold bind at 1. unfold get_syncState at 1. cbn [fst snd].
  fold (byB (id taskB)).
  destruct (find (byB (id taskB)) (Dict.values (tasks (syncState s))))
    as [syncRecord|] eqn:Hfind.
  - destruct (StrSet.has (recordKey syncRecord) P).
    + exists s. cbn. auto.
    + unfold bind at 1 2. unfold log at 1. cbn [fst snd].
      unfold try_catch.
      match goal with
      | |- context [deleteTask host AccountB ?l ?i ?s0] =>
          destruct (deleteTask host AccountB l i s0) as [r s1] eqn:Hd
      end.
      apply deleteTask_outcome in Hd. cbn [world syncState calls] in Hd.
      destruct Hd as (Hset & Hst & Hcalls).
      destruct r as [[]|e]; cbn;
        (eexists; split; [reflexivity|]; cbn; rewrite ?Hst;
         repeat split; eauto).
  - unfold bind at 1. unfold log at 1. cbn [fst snd].
    unfold try_catch. unfold bind at 1.
    match goal with
    | |- context [createTask host AccountA ?l ?t ?s0] =>
        destruct (createTask host AccountA l t s0) as [r s1] eqn:Hc
    end.
    apply createTask_outcome in Hc. cbn [world syncState calls] in Hc.
    destruct Hc as (Hset & Hst & Hcalls).
    destruct r as [newTaskA|e]; cbn;
      (eexists; split; [reflexivity|]; cbn; rewrite ?Hst;
       repeat split; auto).
    + exists (Ok newTaskA). split; [exact Hset|]. reflexivity.
    + exists (Throw e). split; [exact Hset|]. reflexivity.
Qed.

End Steps.

(* ================================================================== *)
(** ** Facts about dictionaries and string sets *)

Section DictFacts.

Context {V : Type}.
Implicit Types (d : Dict.t V) (k : string) (v : V).

Lemma Dict_delete_In k d k' v :
  In (k', v) (Dict.delete k d) <-> In (k', v) d /\ k' <> k.
Proof.
  unfold Dict.delete. rewrite filter_In. cbn [fst].
  rewrite negb_true_iff, String.eqb_neq. tauto.
Qed.

Lemma Dict_delete_values k d v :
  In v (Dict.values (Dict.delete k d)) -> In v (Dict.values d).
Proof.
  unfold Dict.values. rewrite !in_map_iff.
  intros ([k' v'] & <- & Hin). apply Dict_delete_In in Hin.
  exists (k', v'). tauto.
Qed.

Lemma Dict_set_In k v d k' v' :
  In (k', v') (Dict.set k v d) -> (k' = k /\ v' = v) \/ In (k', v') d.
Proof.
  induction d as [|[k0 v0] d IH]; cbn.
  - intros [H|[]]. inversion H; auto.
  - destruct (String.eqb_spec k0 k) as [->|Hne]; cbn.
    + intros [H|H]; [inversion H; auto | auto].
    + intros [H|H]; [auto | destruct (IH H); auto].
Qed.

Lemma Dict_set_values k v d v' :
  In v' (Dict.values (Dict.set k v d)) -> v' = v \/ In v' (Dict.values d).
Proof.
  unfold Dict.values. rewrite !in_map_iff.
  intros ([k1 v1] & <- & Hin). apply Dict_set_In in Hin.
  destruct Hin as [[_ ->]|Hin]; [auto|]. right. exists (k1, v1). auto.
Qed.

Lemma Dict_get_set k v d : Dict.get k (Dict.set k v d) = Some v.
Proof.
  induction d as [|[k0 v0] d IH]; cbn.
  - rewrite String.eqb_refl. reflexivity.
  - destruct (String.eqb_spec k0 k) as [->|Hne]; cbn.
    + rewrite String.eqb_refl. reflexivity.
    + destruct (String.eqb_spec k0 k); [contradiction | exact IH].
Qed.

Lemma Dict_get_In k d v : Dict.get k d = Some v -> In (k, v) d.
Proof.
  induction d as [|[k0 v0] d IH]; cbn; [discriminate|].
  destruct (String.eqb_spec k0 k) as [->|Hne].
  - intros H. inversion H. auto.
  - auto.
Qed.

Lemma Dict_get_None k d : Dict.get k d = None <-> ~ In k (Dict.keys d).
Proof.
  induction d as [|[k0 v0] d IH]; cbn; [tauto|].
  destruct (String.eqb_spec k0 k) as [->|Hne].
  - split; [discriminate | intros H; exfalso; auto].
  - rewrite IH. tauto.
Qed.

(** A new key goes to the end. *)
Lemma Dict_set_fresh k v d :
  Dict.get k d = None -> Dict.set k v d = d ++ [(k, v)].
Proof.
  induction d as [|[k0 v0] d IH]; cbn; [reflexivity|].
  destruct (String.eqb_spec k0 k) as [->|Hne]; [discriminate|].
  intros H. rewrite IH by exact H. reflexivity.
Qed.

Lemma Dict_set_keys_incl k v d k' :
  In k' (Dict.keys (Dict.set k v d)) <-> k' = k \/ In k' (Dict.keys d).
Proof.
  induction d as [|[k0 v0] d IH]; cbn.
  - intuition congruence.
  - destruct (String.eqb_spec k0 k) as [->|Hne]; cbn.
    + intuition congruence.
    + rewrite IH. intuition congruence.
Qed.

Lemma Dict_set_wf k v d : Dict.wf d -> Dict.wf (Dict.set k v d).
Proof.
  unfold Dict.wf.
  induction d as [|[k0 v0] d IH]; cbn; intros H.
  - constructor; [intros [] | constructor].
  - inversion H as [|? ? Hnin Hnd]; subst.
    destruct (String.eqb_spec k0 k) as [->|Hne]; cbn.
    + constructor; assumption.
    + constructor; [|auto].
      fold (Dict.keys (Dict.set k v d)). rewrite Dict_set_keys_incl.
      intros [->|Hin]; [congruence | contradiction].
Qed.

Lemma Dict_delete_wf k d : Dict.wf d -> Dict.wf (Dict.delete k d).
Proof.
  unfold Dict.wf, Dict.delete, Dict.keys.
  induction d as [|[k0 v0] d IH]; cbn; intros H; [constructor|].
  inversion H as [|? ? Hnin Hnd]; subst.
  destruct (negb (String.eqb k0 k)); cbn; [|auto].
  constructor; [|auto].
  rewrite in_map_iff. intros ([k1 v1] & Hk & Hin). cbn in Hk. subst k1.
  apply filter_In in Hin. apply Hnin.
  apply in_map_iff. exists (k0, v1). tauto.
Qed.

Lemma Dict_modify_first_keys p f d :
  Dict.keys (Dict.modify_first p f d) = Dict.keys d.
Proof.
  unfold Dict.keys.
  induction d as [|[k0 v0] d IH]; cbn; [reflexivity|].
  destruct (p v0); cbn; [reflexivity | f_equal; exact IH].
Qed.

Lemma Dict_modify_first_map {W} (g : V -> W) p f d :
  (forall v, g (f v) = g v) ->
  map g (Dict.values (Dict.modify_first p f d)) = map g (Dict.values d).
Proof.
  intros Hg. unfold Dict.values.
  induction d as [|[k0 v0] d IH]; cbn; [reflexivity|].
  destruct (p v0); cbn; [now rewrite Hg | f_equal; exact IH].
Qed.

Lemma Dict_modify_first_In p f d k v :
  In (k, v) (Dict.modify_first p f d) ->
  In (k, v) d \/ exists v0, In (k, v0) d /\ p v0 = true /\ v = f v0.
Proof.
  induction d as [|[k0 v0] d IH]; cbn; [tauto|].
  destruct (p v0) eqn:Hp; cbn.
  - intros [H|H]; [|auto]. inversion H; subst. right. exists v0. auto.
  - intros [H|H]; [auto|]. destruct (IH H) as [?|(v1 & ? & ? & ?)]; [auto|].
    right. exists v1. auto.
Qed.

Lemma Dict_modify_first_find p f d v :
  find p (Dict.values d) = Some v ->
  (forall x, p (f x) = p x) ->
  find p (Dict.values (Dict.modify_first p f d)) = Some (f v).
Proof.
  intros H Hp. induction d as [|[k0 v0] d IH]; cbn in *; [discriminate|].
  destruct (p v0) eqn:Hp0; cbn.
  - inversion H; subst. rewrite Hp, Hp0. reflexivity.
  - rewrite Hp0. auto.
Qed.

Lemma Dict_modify_first_none p f d :
  find p (Dict.values d) = None -> Dict.modify_first p f d = d.
Proof.
  induction d as [|[k0 v0] d IH]; cbn; [reflexivity|].
  destruct (p v0); [discriminate|]. intros H. now rewrite IH.
Qed.

Lemma Dict_values_In d v : In v (Dict.values d) <-> exists k, In (k, v) d.
Proof.
  unfold Dict.values. rewrite in_map_iff. split.
  - intros ([k v'] & <- & H). exists k. exact H.
  - intros (k & H). exists (k, v). auto.
Qed.

End DictFacts.

Lemma StrSet_has_add k k' P :
  StrSet.has k (StrSet.add k' P) = String.eqb k k' || StrSet.has k P.
Proof.
  unfold StrSet.add, StrSet.has.
  destruct (existsb (String.eqb k') P) eqn:H.
  - destruct (String.eqb_spec k k') as [->|Hne]; cbn; [|reflexivity].
    now rewrite H.
  - rewrite existsb_app. cbn. rewrite orb_false_r. apply orb_comm.
Qed.

Lemma find_none_iff {A} (p : A -> bool) l :
  find p l = None <-> forall x, In x l -> p x = false.
Proof.
  split; [apply find_none|].
  induction l as [|a l IH]; cbn; [reflexivity|]. intros H.
  rewrite (H a) by auto. apply IH. auto.
Qed.

(* ================================================================== *)
(** ** One iteration of the first loop on a tracked pair *)

Section PairClaims.

Context {World : Type}.
Variable host : Host World.
Variables taskListA taskListB : TaskList.t.

Lemma date_gt_true x y :
  date_gt host x y = true <->
  exists a b, Date_getTime host x = Some a /\ Date_getTime host y = Some b
              /\ b < a.
Proof.
  unfold date_gt.
  destruct (Date_getTime host x) as [a|], (Date_getTime host y) as [b|];
    split; try discriminate.
  - intros H. apply Z.ltb_lt in H. eauto.
  - intros (a' & b' & Ha & Hb & Hlt). inversion Ha; inversion Hb; subst.
    now apply Z.ltb_lt.
  - intros (a' & b' & Ha & Hb & Hlt). discriminate.
  - intros (a' & b' & Ha & Hb & Hlt). discriminate.
  - intros (a' & b' & Ha & Hb & Hlt). discriminate.
Qed.

Lemma date_gt_asym x y : date_gt host x y = true -> date_gt host y x = false.
Proof.
  unfold date_gt.
  destruct (Date_getTime host x) as [a|], (Date_getTime host y) as [b|];
    try discriminate.
  intros H. apply Z.ltb_lt in H. apply Z.ltb_ge. lia.
Qed.

Lemma date_gt_values x y a b :
  Date_getTime host x = Some a -> Date_getTime host y = Some b ->
  date_gt host x y = (b <? a).
Proof. unfold date_gt. intros -> ->. reflexivity. Qed.

Lemma byA_setLastSyncedUpdate i v r :
  byA i (setLastSyncedUpdate v r) = byA i r.
Proof. reflexivity. Qed.

(** The write to [dst], when the first loop has chosen that side and the
    store answers the update (if one is needed). *)
Lemma processTaskA_copies dst tasksBMap P taskA taskB syncRecord s t w' :
  find (byA (id taskA)) (Dict.values (ledger s)) = Some syncRecord ->
  Dict.get (accountBId syncRecord) tasksBMap = Some taskB ->
  direction host taskA taskB syncRecord = Some dst ->
  (tasksAreEqual taskA taskB = false ->
   id (target dst taskA taskB) <> EmptyString) ->
  (tasksAreEqual taskA taskB = false ->
   update_request host taskListA taskListB dst taskA taskB (world s)
   = (Ok t, w')) ->
  exists s',
    processTaskA host taskListA taskListB tasksBMap P taskA s
    = (Ok (StrSet.add (recordKey syncRecord) P), s')
    /\ calls s' = calls s
                  ++ (if tasksAreEqual taskA taskB then []
                      else [update_call taskListA taskListB dst taskA taskB])
    /\ world s' = (if tasksAreEqual taskA taskB then world s else w')
    /\ ledger s' = advanced taskA (updated (source dst taskA taskB)) (ledger s)
    /\ find (byA (id taskA)) (Dict.values (ledger s'))
       = Some (setLastSyncedUpdate (updated (source dst taskA taskB)) syncRecord).
Proof.
  intros Hfind Hget Hdir Hid Hreq.
  destruct (processTaskA_spec host taskListA taskListB tasksBMap P taskA s)
    as (P' & s' & Hrun & _ & Hstep).
  unfold stepA in Hstep. rewrite Hfind, Hget, Hdir in Hstep.
  destruct Hstep as [-> Hcopy]. exists s'. split; [exact Hrun|].
  unfold copied in Hcopy.
  assert (Hfound : forall l, l = advanced taskA
                                   (updated (source dst taskA taskB)) (ledger s) ->
            find (byA (id taskA)) (Dict.values l)
            = Some (setLastSyncedUpdate (updated (source dst taskA taskB))
                      syncRecord)).
  { intros l ->. unfold advanced.
    apply Dict_modify_first_find; [exact Hfind | reflexivity]. }
  destruct (tasksAreEqual taskA taskB).
  - destruct Hcopy as (Hw & Hc & Hl).
    rewrite Hc, app_nil_r. auto.
  - specialize (Hid eq_refl). apply String.eqb_neq in Hid.
    rewrite Hid in Hcopy.
    destruct Hcopy as (Hc & r & Hout & Hl).
    rewrite (outcome_first_ok host _ _ (Hreq eq_refl)) in Hout.
    inversion Hout; subst r. auto.
Qed.


(** C2, as the code has it.  A tie after a true conflict
    ([a.updated] and [b.updated] are the same instant, later than
    [lastSyncedUpdate]) is resolved for B: the test
    [aUpdated > bUpdated] fails, A's task is overwritten with B's
    content and [lastSyncedUpdate] becomes [b.updated]. *)
Theorem tie_prefers_B tasksBMap P taskA taskB syncRecord s t w' ta t0 :
  find (byA (id taskA)) (Dict.values (ledger s)) = Some syncRecord ->
  Dict.get (accountBId syncRecord) tasksBMap = Some taskB ->
  Date_getTime host (updated taskA) = Some ta ->
  Date_getTime host (updated taskB) = Some ta ->
  Date_getTime host (lastSyncedUpdate syncRecord) = Some t0 ->
  t0 < ta ->
  id taskA <> EmptyString ->
  (tasksAreEqual taskA taskB = false ->
   tasks_update host AccountA (TaskList.id taskListA) (id taskA)
     (body_of (Some (id taskA)) taskB) (world s) = (Ok t, w')) ->
  exists s',
    processTaskA host taskListA taskListB tasksBMap P taskA s
    = (Ok (StrSet.add (recordKey syncRecord) P), s')
    /\ calls s'
       = calls s
         ++ (if tasksAreEqual taskA taskB then []
             else [CallUpdate AccountA (TaskList.id taskListA) (id taskA)
                     {| rb_id := Some (id taskA); rb_title := title taskB;
                        rb_notes := notes taskB; rb_status := status taskB;
                        rb_due := due taskB |}])
    /\ world s' = (if tasksAreEqual taskA taskB then world s else w')
    /\ find (byA (id taskA)) (Dict.values (ledger s'))
       = Some {| accountAId := accountAId syncRecord;
                 accountBId := accountBId syncRecord;
                 lastSyncedUpdate := updated taskB |}.
Proof.
  intros Hfind Hget Ha Hb H0 Hlt Hid Hreq.
  destruct (@processTaskA_copies AccountA tasksBMap P taskA taskB syncRecord
              s t w' Hfind Hget) as (s' & H1 & H2 & H3 & H4 & H5); auto.
  - unfold direction.
    rewrite (date_gt_values _ _ Ha H0), (date_gt_values _ _ Hb H0),
      (date_gt_values _ _ Ha Hb).
    assert (Hlt' : (t0 <? ta) = true) by (apply Z.ltb_lt; lia).
    rewrite Hlt', Z.ltb_irrefl. reflexivity.
  - exists s'. auto.
Qed.


End PairClaims.

(* ================================================================== *)
(** ** The ledger invariant *)

(** Every record is stored under the key made of its two ids. *)
Definition keyed (d : Dict.t SyncRecord) : Prop :=
  forall k r, In (k, r) d -> k = recordKey r.

Definition idsA (d : Dict.t SyncRecord) : list string :=
  map accountAId (Dict.values d).

Definition idsB (d : Dict.t SyncRecord) : list string :=
  map accountBId (Dict.values d).

(** A task id of either store appears in at most one record (and so there
    is at most one record per pair of ids). *)
Definition unique_ids (d : Dict.t SyncRecord) : Prop :=
  NoDup (idsA d) /\ NoDup (idsB d).

Lemma NoDup_map_inj {A B} (f : A -> B) l x y :
  NoDup (map f l) -> In x l -> In y l -> f x = f y -> x = y.
Proof.
  induction l as [|a l IH]; cbn; [tauto|].
  intros Hnd Hx Hy Hf. inversion Hnd as [|? ? Hnin Hnd']; subst.
  destruct Hx as [->|Hx], Hy as [->|Hy]; auto.
  - exfalso. apply Hnin. rewrite Hf. now apply in_map.
  - exfalso. apply Hnin. rewrite <- Hf. now apply in_map.
Qed.

Lemma find_some_In {A} (p : A -> bool) l x :
  find p l = Some x -> In x l /\ p x = true.
Proof. apply find_some. Qed.

Lemma delete_record_gone_A d r i :
  keyed d -> NoDup (idsA d) ->
  find (byA i) (Dict.values d) = Some r ->
  find (byA i) (Dict.values (Dict.delete (recordKey r) d)) = None.
Proof.
  intros Hk Hnd Hfind. apply find_some in Hfind. destruct Hfind as [Hin Hp].
  apply find_none_iff. intros r' Hin'.
  destruct (byA i r') eqn:Hp'; [exfalso | reflexivity].
  apply Dict_values_In in Hin'. destruct Hin' as [k' Hin'].
  apply Dict_delete_In in Hin'. destruct Hin' as [Hin' Hne].
  assert (r' = r).
  { apply (NoDup_map_inj accountAId (Dict.values d)); auto.
    - apply Dict_values_In. eauto.
    - unfold byA in *. apply String.eqb_eq in Hp, Hp'. congruence. }
  subst r'. apply Hne. now apply Hk.
Qed.

Lemma delete_record_gone_B d r i :
  keyed d -> NoDup (idsB d) ->
  find (byB i) (Dict.values d) = Some r ->
  find (byB i) (Dict.values (Dict.delete (recordKey r) d)) = None.
Proof.
  intros Hk Hnd Hfind. apply find_some in Hfind. destruct Hfind as [Hin Hp].
  apply find_none_iff. intros r' Hin'.
  destruct (byB i r') eqn:Hp'; [exfalso | reflexivity].
  apply Dict_values_In in Hin'. destruct Hin' as [k' Hin'].
  apply Dict_delete_In in Hin'. destruct Hin' as [Hin' Hne].
  assert (r' = r).
  { apply (NoDup_map_inj accountBId (Dict.values d)); auto.
    - apply Dict_values_In. eauto.
    - unfold byB in *. apply String.eqb_eq in Hp, Hp'. congruence. }
  subst r'. apply Hne. now apply Hk.
Qed.

(* ================================================================== *)
(** ** One iteration on a new task, and on a task whose partner is gone *)

Section LoneTaskClaims.

Context {World : Type}.
Variable host : Host World.
Variables taskListA taskListB : TaskList.t.



End LoneTaskClaims.

(* ================================================================== *)
(** ** The pair claims on concrete tasks *)

Module Scenario.

Definition t0 : string := "2024-01-01T00:00:00.000Z".
Definition t1 : string := "2024-01-02T00:00:00.000Z".
Definition t2 : string := "2024-01-03T00:00:00.000Z".

Definition pair_record : SyncRecord :=
  {| accountAId := "a1"; accountBId := "b1"; lastSyncedUpdate := t0 |}.

Definition pair_ledger : Dict.t SyncRecord := [("a1-b1", pair_record)].

Definition L : TaskList.t := Ideal.the_list.

(** The value of an answered request. *)
Definition answer {T} (d : T) (x : Result T * Ideal.World) : T :=
  match fst x with Ok v => v | Throw _ => d end.

End Scenario.

Import Scenario.


(** C2 as the specification states it, on a concrete tie: both sides
    carry the instant [t2], later than the ledger's [t0], and their
    content differs.  The specification expects B to be overwritten with
    A's content; the pass writes to A instead, with B's content, and
    leaves B alone. *)
Lemma tie_prefers_A_counterexample :
  let a := Ideal.task "a1" "Buy oat milk" (Some "2 l") "needsAction" t2 in
  let b := Ideal.task "b1" "Buy milk" None "completed" t2 in
  let s := Ideal.env [a] [b] pair_ledger in
  let s' := snd (processTaskA Ideal.host L L [("b1", b)] [] a s) in
  Iso.parse (updated a) = Iso.parse (updated b)
  /\ date_gt Ideal.host (updated a) (lastSyncedUpdate pair_record) = true
  /\ date_gt Ideal.host (updated b) (lastSyncedUpdate pair_record) = true
  /\ calls s'
     = [CallUpdate AccountA "L" "a1"
          {| rb_id := Some "a1"; rb_title := "Buy milk"; rb_notes := None;
             rb_status := "completed"; rb_due := None |}]
  /\ ~ In (CallUpdate AccountB "L" "b1" (body_of (Some "b1") a)) (calls s')
  /\ Ideal.storeB (world s') = [b]
  /\ map title (Ideal.storeA (world s')) = ["Buy milk"].
Proof.
  vm_compute. repeat split; try reflexivity.
  intros [H|[]]. discriminate H.
Qed.

Lemma tie_prefers_B_witness :
  let a := Ideal.task "a1" "Buy oat milk" (Some "2 l") "needsAction" t2 in
  let b := Ideal.task "b1" "Buy milk" None "completed" t2 in
  exists s',
    processTaskA Ideal.host L L [("b1", b)] [] a (Ideal.env [a] [b] pair_ledger)
    = (Ok ["a1-b1"], s')
    /\ calls s'
       = [CallUpdate AccountA "L" "a1"
            {| rb_id := Some "a1"; rb_title := "Buy milk"; rb_notes := None;
               rb_status := "completed"; rb_due := None |}]
    /\ find (byA "a1") (Dict.values (ledger s'))
       = Some {| accountAId := "a1"; accountBId := "b1";
                 lastSyncedUpdate := t2 |}.
Proof.
  intros a b.
  pose (res := Ideal.update AccountA "L" "a1" (body_of (Some "a1") b)
                 (Ideal.start [a] [b])).
  destruct (@tie_prefers_B Ideal.World Ideal.host L L
              [("b1", b)] [] a b pair_record (Ideal.env [a] [b] pair_ledger)
              (answer a res) (snd res) 1704240000000 1704067200000)
    as (s' & H1 & H2 & H3 & H4);
    try reflexivity.
  - discriminate.
  - exists s'. split; [exact H1|]. split; [exact H2 | exact H4].
Defined.




(* ================================================================== *)
(** ** The two loops *)

Section Loops.

Context {World : Type}.
Variable host : Host World.
Variables taskListA taskListB : TaskList.t.

Lemma loopA_cons tasksBMap P taskA rest s P1 s1 :
  processTaskA host taskListA taskListB tasksBMap P taskA s = (Ok P1, s1) ->
  loopA host taskListA taskListB tasksBMap P (taskA :: rest) s
  = loopA host taskListA taskListB tasksBMap P1 rest s1.
Proof. intros H. cbn [loopA]. unfold bind. rewrite H. reflexivity. Qed.

Lemma loopB_cons P taskB rest s s1 :
  processTaskB host taskListA taskListB P taskB s = (Ok tt, s1) ->
  loopB host taskListA taskListB P (taskB :: rest) s
  = loopB host taskListA taskListB P rest s1.
Proof. intros H. cbn [loopB]. unfold bind. rewrite H. reflexivity. Qed.

(** An invariant of the first loop: [I done P s] speaks of the tasks
    already processed, the processed pairs and the state. *)
Lemma loopA_invariant tasksBMap (I : list Task -> StrSet.t -> Env World -> Prop) :
  forall rest done P s,
    I done P s ->
    (forall done' taskA rest' P0 s0 P1 s1,
        done ++ rest = done' ++ taskA :: rest' ->
        I done' P0 s0 ->
        processTaskA host taskListA taskListB tasksBMap P0 taskA s0 = (Ok P1, s1) ->
        stepA host taskListA taskListB tasksBMap P0 taskA s0 P1 s1 ->
        I (done' ++ [taskA]) P1 s1) ->
    exists P' s',
      loopA host taskListA taskListB tasksBMap P rest s = (Ok P', s')
      /\ I (done ++ rest) P' s'.
Proof.
  induction rest as [|taskA rest IH]; intros done P s HI Hstep.
  - exists P, s. rewrite app_nil_r. split; [reflexivity | exact HI].
  - destruct (processTaskA_spec host taskListA taskListB tasksBMap P taskA s)
      as (P1 & s1 & Hrun & _ & Hspec).
    erewrite loopA_cons by exact Hrun.
    destruct (IH (done ++ [taskA]) P1 s1) as (P' & s' & Hloop & HI').
    + apply (Hstep done taskA rest P s P1 s1); auto.
    + intros done' a rest' P0 s0 P2 s2 Heq. apply (Hstep done' a rest').
      rewrite <- Heq, <- app_assoc. reflexivity.
    + exists P', s'. split; [exact Hloop|].
      rewrite <- app_assoc in HI'. exact HI'.
Qed.

Lemma loopB_invariant P (I : list Task -> Env World -> Prop) :
  forall rest done s,
    I done s ->
    (forall done' taskB rest' s0 s1,
        done ++ rest = done' ++ taskB :: rest' ->
        I done' s0 ->
        processTaskB host taskListA taskListB P taskB s0 = (Ok tt, s1) ->
        stepB host taskListA taskListB P taskB s0 s1 ->
        I (done' ++ [taskB]) s1) ->
    exists s',
      loopB host taskListA taskListB P rest s = (Ok tt, s')
      /\ I (done ++ rest) s'.
Proof.
  induction rest as [|taskB rest IH]; intros done s HI Hstep.
  - exists s. rewrite app_nil_r. split; [reflexivity | exact HI].
  - destruct (processTaskB_spec host taskListA taskListB P taskB s)
      as (s1 & Hrun & _ & Hspec).
    erewrite loopB_cons by exact Hrun.
    destruct (IH (done ++ [taskB]) s1) as (s' & Hloop & HI').
    + apply (Hstep done taskB rest s s1); auto.
    + intros done' b rest' s0 s2 Heq. apply (Hstep done' b rest').
      rewrite <- Heq, <- app_assoc. reflexivity.
    + exists s'. split; [exact Hloop|].
      rewrite <- app_assoc in HI'. exact HI'.
Qed.

(** The loops always run to their end: every call sits in a [try]. *)
Lemma loopA_returns tasksBMap tasksA P s :
  exists P' s', loopA host taskListA taskListB tasksBMap P tasksA s = (Ok P', s').
Proof.
  destruct (@loopA_invariant tasksBMap (fun _ _ _ => True) tasksA [] P s I)
    as (P' & s' & H & _); eauto.
Qed.

Lemma loopB_returns tasksB P s :
  exists s', loopB host taskListA taskListB P tasksB s = (Ok tt, s').
Proof.
  destruct (@loopB_invariant P (fun _ _ => True) tasksB [] s I)
    as (s' & H & _); eauto.
Qed.

Lemma loopA_app tasksBMap l1 l2 P s P1 s1 :
  loopA host taskListA taskListB tasksBMap P l1 s = (Ok P1, s1) ->
  loopA host taskListA taskListB tasksBMap P (l1 ++ l2) s
  = loopA host taskListA taskListB tasksBMap P1 l2 s1.
Proof.
  revert P s. induction l1 as [|a l1 IH]; intros P s H.
  - cbn in H. inversion H. reflexivity.
  - destruct (processTaskA_spec host taskListA taskListB tasksBMap P a s)
      as (P0 & s0 & Hrun & _).
    cbn [app]. erewrite !loopA_cons by exact Hrun.
    erewrite loopA_cons in H by exact Hrun. auto.
Qed.

Lemma loopB_app l1 l2 P s s1 :
  loopB host taskListA taskListB P l1 s = (Ok tt, s1) ->
  loopB host taskListA taskListB P (l1 ++ l2) s
  = loopB host taskListA taskListB P l2 s1.
Proof.
  revert s. induction l1 as [|b l1 IH]; intros s H.
  - cbn in H. inversion H. reflexivity.
  - destruct (processTaskB_spec host taskListA taskListB P b s)
      as (s0 & Hrun & _).
    cbn [app]. erewrite !loopB_cons by exact Hrun.
    erewrite loopB_cons in H by exact Hrun. auto.
Qed.

Lemma reconcile_loops tasksA tasksB s P s1 :
  loopA host taskListA taskListB
    (Dict.of_entries (map (fun t => (id t, t)) tasksB)) StrSet.empty tasksA s
  = (Ok P, s1) ->
  reconcile host taskListA taskListB tasksA tasksB s
  = loopB host taskListA taskListB P tasksB s1.
Proof. intros H. unfold reconcile, bind. rewrite H. reflexivity. Qed.

Lemma reconcile_returns tasksA tasksB s :
  exists s', reconcile host taskListA taskListB tasksA tasksB s = (Ok tt, s').
Proof.
  destruct (loopA_returns (Dict.of_entries (map (fun t => (id t, t)) tasksB))
              tasksA StrSet.empty s) as (P & s1 & HA).
  erewrite reconcile_loops by exact HA. apply loopB_returns.
Qed.

End Loops.

(* ================================================================== *)
(** ** What a pass reports *)

Section Report.

Context {World : Type}.
Variable host : Host World.

Lemma bindF_Ok T U (m : MF World T) (k : T -> MF World U) s v s' :
  bindF m k s = Some (Ok v, s') ->
  exists x s1, m s = Some (Ok x, s1) /\ k x s1 = Some (Ok v, s').
Proof.
  unfold bindF. destruct (m s) as [[[x|e] s1]|]; try discriminate.
  intros H. eauto.
Qed.

Definition ends_with (s : Env World) (lines : list (Level * string)) : Prop :=
  exists before, console s = before ++ lines.

Lemma syncTaskLists_report fuel s s' :
  syncTaskLists host fuel s = Some (Ok tt, s') ->
  ends_with s' [(Info, "Sync completed successfully!"); (EndGroup, EmptyString)]
  \/ ends_with s' [(Notice, "No task lists found in one or both accounts")].
Proof.
  unfold syncTaskLists. intros H.
  apply bindF_Ok in H. destruct H as (_ & s1 & _ & H).
  apply bindF_Ok in H. destruct H as (_ & s2 & _ & H).
  apply bindF_Ok in H. destruct H as (taskListsA & s3 & _ & H).
  apply bindF_Ok in H. destruct H as (taskListsB & s4 & _ & H).
  assert (Hnone : liftF (log Notice "No task lists found in one or both accounts") s4
                  = Some (Ok tt, s') ->
                  ends_with s' [(Notice, "No task lists found in one or both accounts")]).
  { unfold liftF, log. intros E. inversion E; subst. cbn. eexists. reflexivity. }
  destruct taskListsA as [|firstA restA]; [right; auto|].
  destruct taskListsB as [|firstB restB]; [right; auto|].
  left.
  apply bindF_Ok in H. destruct H as (lists & s5 & _ & H).
  apply bindF_Ok in H. destruct H as (_ & s6 & _ & H).
  apply bindF_Ok in H. destruct H as (tasksA & s7 & _ & H).
  apply bindF_Ok in H. destruct H as (tasksB & s8 & _ & H).
  apply bindF_Ok in H. destruct H as (_ & s9 & _ & H).
  apply bindF_Ok in H. destruct H as (_ & s10 & _ & H).
  apply bindF_Ok in H. destruct H as (_ & s11 & _ & H).
  apply bindF_Ok in H. destruct H as (_ & s12 & _ & H).
  apply bindF_Ok in H. destruct H as (u13 & s13 & H13 & H).
  unfold liftF, log in H13, H.
  injection H13 as _ Hs13. injection H as Hs'. subst s13 s'.
  cbn. exists (console s12). rewrite <- app_assoc. reflexivity.
Qed.

(** The lines [main] prints when the pass has thrown: for an [Error] the
    message and then, when there is one, the stack as a debug line; for
    any other thrown value its string form. *)
Definition failure_lines (error : Error) : list (Level * string) :=
  if is_Error error then
    (ErrorLevel, "Sync failed: " +++ opt_str (message error))
    :: (if truthy (stack error) then [(Debug, opt_str (stack error))] else [])
  else
    [(ErrorLevel, "Sync failed: " +++ as_string error)].

Lemma reportFailure_lines error (s : Env World) :
  reportFailure error s
  = (Ok tt, {| world := world s; syncState := syncState s;
               console := console s ++ failure_lines error;
               sleeps := sleeps s; calls := calls s |}).
Proof.
  unfold reportFailure, failure_lines, log, when, bind, ret.
  destruct (is_Error error); [|reflexivity].
  destruct (truthy (stack error)); cbn.
  - rewrite <- app_assoc. reflexivity.
  - reflexivity.
Qed.

(** C9, as the code has it.  A pass that completes reports its outcome in
    its closing lines, which are fixed texts: after a reconciliation the
    console ends with ["Sync completed successfully!"] and the end of the
    group, and the process exits with 0 (a pass that finds no task list in
    one of the accounts ends with a notice instead); when the pass throws,
    [main] adds to what the pass had printed the line ["Sync failed: ..."]
    as an error, followed by the stack as a debug line when the error has
    one, and exits with 1.  None of these closing lines carries a number of
    created, updated, deleted or skipped tasks. *)
Theorem pass_reports_outcome fuel w exit s :
  main host fuel w = Some (exit, s) ->
  (exit = 0
   /\ (ends_with s [(Info, "Sync completed successfully!"); (EndGroup, EmptyString)]
       \/ ends_with s [(Notice, "No task lists found in one or both accounts")]))
  \/ (exit = 1
      /\ exists error s1,
           (_ <~ liftF (loadSyncState host) ;; syncTaskLists host fuel) (initialEnv w)
           = Some (Throw error, s1)
           /\ console s = console s1 ++ failure_lines error).
Proof.
  unfold main.
  destruct (bindF (liftF (loadSyncState host)) (fun _ => syncTaskLists host fuel)
              (initialEnv w)) as [[[[]|error] s1]|] eqn:Hrun; try discriminate.
  - intros H. inversion H; subst. left. split; [reflexivity|].
    apply bindF_Ok in Hrun. destruct Hrun as (_ & s0 & _ & Hrun).
    eapply syncTaskLists_report; eauto.
  - intros H. inversion H; subst. right. split; [reflexivity|].
    exists error, s1. split; [reflexivity|].
    rewrite reportFailure_lines. reflexivity.
Qed.

End Report.

(** One pass that creates, updates and deletes, and one that has nothing
    to do: both exit with 0 and close with the same lines. *)
Lemma pass_reports_outcome_witness :
  exists s,
    main Ideal.host 10
      (Ideal.start [Ideal.task "a1" "Buy milk" None "needsAction" t0] [])
    = Some (0, s)
    /\ ends_with s [(Info, "Sync completed successfully!"); (EndGroup, EmptyString)].
Proof.
  destruct (main Ideal.host 10
              (Ideal.start [Ideal.task "a1" "Buy milk" None "needsAction" t0] []))
    as [[exit s]|] eqn:Hmain; [|vm_compute in Hmain; discriminate].
  destruct (pass_reports_outcome Ideal.host 10 _ Hmain)
    as [[He [Hend|Hend]]|[He Hend]].
  - exists s. subst exit. split; [reflexivity | exact Hend].
  - exfalso. destruct Hend as [before Hend].
    vm_compute in Hmain. inversion Hmain; subst. cbn in Hend.
    apply (f_equal (@rev _)) in Hend. rewrite rev_app_distr in Hend.
    cbn in Hend. discriminate.
  - exfalso. vm_compute in Hmain. inversion Hmain; subst. discriminate.
Defined.

(** C9 as the specification states it, on two concrete passes.  The first
    pass updates one task, creates one and deletes one; the second finds
    its only pair unchanged.  Both exit with 0, and the whole console of
    each is shown: the lines name tasks one by one, the closing lines are
    the same in both, and no line gives a number of created, updated,
    deleted or skipped tasks (the only numbers printed are how many tasks
    were fetched). *)
Lemma operation_counts_counterexample :
  let busy :=
    {| Ideal.storeA := [Ideal.task "a1" "Buy oat milk" None "needsAction" t2;
                        Ideal.task "a2" "Call mum" None "needsAction" t1;
                        Ideal.task "a3" "Old chore" None "completed" t0];
       Ideal.storeB := [Ideal.task "b1" "Buy milk" None "needsAction" t1];
       Ideal.listsA := [Ideal.the_list]; Ideal.listsB := [Ideal.the_list];
       Ideal.nextId := 1; Ideal.clock := 1735689600000;
       Ideal.disk :=
         Some {| tasks := [("a1-b1", pair_record);
                           ("a3-b3", {| accountAId := "a3"; accountBId := "b3";
                                        lastSyncedUpdate := t0 |})];
                 lastSyncTime := t0 |};
       Ideal.listName := None; Ideal.faults := [] |} in
  let idle :=
    {| Ideal.storeA := [Ideal.task "a1" "Buy milk" None "needsAction" t0];
       Ideal.storeB := [Ideal.task "b1" "Buy milk" None "needsAction" t0];
       Ideal.listsA := [Ideal.the_list]; Ideal.listsB := [Ideal.the_list];
       Ideal.nextId := 1; Ideal.clock := 1735689600000;
       Ideal.disk := Some {| tasks := [("a1-b1", pair_record)];
                             lastSyncTime := t0 |};
       Ideal.listName := None; Ideal.faults := [] |} in
  exists s1 s2,
    main Ideal.host 10 busy = Some (0, s1)
    /\ main Ideal.host 10 idle = Some (0, s2)
    /\ calls s1
       = [CallUpdate AccountB "L" "b1"
            (body_of (Some "b1")
               (Ideal.task "a1" "Buy oat milk" None "needsAction" t2));
          CallCreate AccountB "L"
            (body_of None (Ideal.task "a2" "Call mum" None "needsAction" t1));
          CallDelete AccountA "L" "a3"]
    /\ calls s2 = []
    /\ console s1
       = [(Notice, "Loaded existing sync state");
          (StartGroup, "Sync Group");
          (Info, "Starting sync...");
          (Notice, "Syncing: Account A (My Tasks) <-> Account B (My Tasks)");
          (Notice, "Found 3 tasks in Account A, 1 tasks in Account B");
          (Info, "Checking task: Buy oat milk");
          (Info, "  A updated: 2024-01-03T00:00:00.000Z, B updated: 2024-01-02T00:00:00.000Z, Last synced: 2024-01-01T00:00:00.000Z");
          (Info, "  A modified: true, B modified: true");
          (Info, "Conflict resolved: A -> B (Buy oat milk)");
          (Info, "New task in A, creating in B: Call mum");
          (Info, "Deleting from A (deleted in B): Old chore");
          (Notice, "Sync state saved");
          (Info, "Sync completed successfully!");
          (EndGroup, EmptyString)]
    /\ console s2
       = [(Notice, "Loaded existing sync state");
          (StartGroup, "Sync Group");
          (Info, "Starting sync...");
          (Notice, "Syncing: Account A (My Tasks) <-> Account B (My Tasks)");
          (Notice, "Found 1 tasks in Account A, 1 tasks in Account B");
          (Info, "Checking task: Buy milk");
          (Info, "  A updated: 2024-01-01T00:00:00.000Z, B updated: 2024-01-01T00:00:00.000Z, Last synced: 2024-01-01T00:00:00.000Z");
          (Info, "  A modified: false, B modified: false");
          (Info, "No changes for task: Buy milk");
          (Notice, "Sync state saved");
          (Info, "Sync completed successfully!");
          (EndGroup, EmptyString)]
    /\ skipn 11 (console s1) = skipn 9 (console s2).
Proof.
  intros busy idle.
  destruct (main Ideal.host 10 busy) as [[e1 s1]|] eqn:H1;
    [|vm_compute in H1; discriminate].
  destruct (main Ideal.host 10 idle) as [[e2 s2]|] eqn:H2;
    [|vm_compute in H2; discriminate].
  vm_compute in H1. vm_compute in H2.
  injection H1 as <- <-. injection H2 as <- <-.
  eexists _, _. repeat split; reflexivity.
Qed.

(* ================================================================== *)
(** ** Ids under the ledger operations *)

Section IdFacts.

Variable g : SyncRecord -> string.

Lemma ids_delete_In k d i :
  In i (map g (Dict.values (Dict.delete k d))) -> In i (map g (Dict.values d)).
Proof.
  rewrite !in_map_iff. intros (r & <- & Hin).
  exists r. split; [reflexivity|]. eapply Dict_delete_values; eauto.
Qed.

Lemma ids_delete_NoDup k d :
  NoDup (map g (Dict.values d)) ->
  NoDup (map g (Dict.values (Dict.delete k d))).
Proof.
  unfold Dict.delete, Dict.values.
  induction d as [|[k0 v0] d IH]; cbn; intros H; [constructor|].
  inversion H as [|? ? Hnin Hnd]; subst.
  destruct (negb (String.eqb k0 k)); cbn; [|auto].
  constructor; [|auto].
  intros Hin. apply Hnin. apply (ids_delete_In k d). exact Hin.
Qed.

Lemma ids_set_In k v d i :
  In i (map g (Dict.values (Dict.set k v d))) ->
  i = g v \/ In i (map g (Dict.values d)).
Proof.
  rewrite !in_map_iff. intros (r & <- & Hin).
  apply Dict_set_values in Hin. destruct Hin as [->|Hin]; [auto|].
  right. exists r. auto.
Qed.

Lemma ids_set_NoDup k v d :
  NoDup (map g (Dict.values d)) ->
  ~ In (g v) (map g (Dict.values d)) ->
  NoDup (map g (Dict.values (Dict.set k v d))).
Proof.
  induction d as [|[k0 v0] d IH]; cbn; intros Hnd Hnin.
  - constructor; [intros [] | constructor].
  - inversion Hnd as [|? ? Hnin0 Hnd0]; subst.
    destruct (String.eqb k0 k); cbn.
    + constructor; [tauto | exact Hnd0].
    + constructor.
      * intros Hin. apply (ids_set_In k v d) in Hin.
        destruct Hin as [Heq|Hin]; [|contradiction].
        apply Hnin. left. exact Heq.
      * apply IH; tauto.
Qed.

Lemma ids_modify_first p v d :
  (forall r, g (setLastSyncedUpdate v r) = g r) ->
  map g (Dict.values (Dict.modify_first p (setLastSyncedUpdate v) d))
  = map g (Dict.values d).
Proof. intros H. apply Dict_modify_first_map. exact H. Qed.

End IdFacts.

Lemma keyed_delete k d : keyed d -> keyed (Dict.delete k d).
Proof.
  intros H k' r Hin. apply Dict_delete_In in Hin. apply H. tauto.
Qed.

Lemma keyed_set a b v d :
  keyed d ->
  keyed (Dict.set (pairKey a b)
           {| accountAId := a; accountBId := b; lastSyncedUpdate := v |} d).
Proof.
  intros H k' r Hin. apply Dict_set_In in Hin.
  destruct Hin as [[-> ->]|Hin]; [reflexivity | now apply H].
Qed.

Lemma keyed_modify_first p v d :
  keyed d -> keyed (Dict.modify_first p (setLastSyncedUpdate v) d).
Proof.
  intros H k' r Hin. apply Dict_modify_first_In in Hin.
  destruct Hin as [Hin|(r0 & Hin & _ & ->)]; [now apply H|].
  apply (H _ _ Hin).
Qed.

(* ================================================================== *)
(** ** Stores that hand out fresh ids

    What the pass relies on when it pairs a task with the task it has
    just created: the id in the answer of [tasks.insert] is new.  [known
    acc w i] says that the store of [acc] has already used the id [i] in
    the world [w]; the stores never forget an id, and an insert answers
    with an id that was not known and is known from then on. *)

Section Fresh.

Context {World : Type}.
Variable host : Host World.
Variable known : Account -> World -> string -> Prop.
Variables taskListA taskListB : TaskList.t.

Definition keeps_known {T} (f : World -> Result T * World) : Prop :=
  forall w r w' acc i, f w = (r, w') -> known acc w i -> known acc w' i.

Record FreshIds : Prop := {
  insert_keeps : forall acc l b, keeps_known (tasks_insert host acc l b);
  update_keeps : forall acc l i b, keeps_known (tasks_update host acc l i b);
  delete_keeps : forall acc l i, keeps_known (tasks_delete host acc l i);
  insert_fresh : forall acc l b w t w',
      tasks_insert host acc l b w = (Ok t, w') ->
      ~ known acc w (id t) /\ known acc w' (id t)
}.

Hypothesis fresh : FreshIds.

Lemma failed_attempts_keep T (f : World -> Result T * World) w w1 :
  keeps_known f -> failed_attempts f w w1 ->
  forall acc i, known acc w i -> known acc w1 i.
Proof.
  intros Hf Hfa. induction Hfa as [|w e w' w'' Hstep Hfa IH]; [auto|].
  intros acc i Hk. apply IH. eapply Hf; eauto.
Qed.

Lemma outcome_keeps T (f : World -> Result T * World) w r w' :
  keeps_known f -> outcome host f w = (r, w') ->
  forall acc i, known acc w i -> known acc w' i.
Proof.
  intros Hf Hout acc i Hk. apply outcome_settles in Hout.
  destruct Hout as (w1 & Hfa & Hlast).
  eapply Hf; [exact Hlast|]. eapply failed_attempts_keep; eauto.
Qed.

Lemma outcome_insert_fresh acc l b w t w' :
  outcome host (tasks_insert host acc l b) w = (Ok t, w') ->
  ~ known acc w (id t) /\ known acc w' (id t).
Proof.
  intros Hout. apply outcome_settles in Hout.
  destruct Hout as (w1 & Hfa & Hlast).
  destruct (insert_fresh fresh _ _ _ _ Hlast) as [Hnew Hold].
  split; [|exact Hold].
  intros Hk. apply Hnew.
  eapply failed_attempts_keep; eauto. apply (insert_keeps fresh).
Qed.

(** The world only grows along an iteration. *)
Lemma stepA_keeps tasksBMap P taskA s P' s' :
  stepA host taskListA taskListB tasksBMap P taskA s P' s' ->
  forall acc i, known acc (world s) i -> known acc (world s') i.
Proof.
  unfold stepA. intros H acc i Hk.
  destruct (find (byA (id taskA)) (Dict.values (ledger s))) as [r|].
  - destruct (Dict.get (accountBId r) tasksBMap) as [taskB|].
    + destruct H as [_ H].
      destruct (direction host taskA taskB r) as [dst|].
      * unfold copied in H.
        destruct (tasksAreEqual taskA taskB);
          [destruct H as (-> & _); exact Hk|].
        destruct (String.eqb (id (target dst taskA taskB)) EmptyString);
          [destruct H as (-> & _); exact Hk|].
        destruct H as (_ & r0 & Hout & _).
        eapply outcome_keeps; eauto. apply (update_keeps fresh).
      * destruct H as (-> & _). exact Hk.
    + destruct H as (_ & _ & (r0 & Hout) & _).
      eapply outcome_keeps; eauto. apply (delete_keeps fresh).
  - destruct H as (_ & r0 & Hout & _).
    eapply outcome_keeps; eauto. apply (insert_keeps fresh).
Qed.

Lemma stepB_keeps P taskB s s' :
  stepB host taskListA taskListB P taskB s s' ->
  forall acc i, known acc (world s) i -> known acc (world s') i.
Proof.
  unfold stepB. intros H acc i Hk.
  destruct (find (byB (id taskB)) (Dict.values (ledger s))) as [r|].
  - destruct (StrSet.has (recordKey r) P); [subst; exact Hk|].
    destruct H as (_ & (r0 & Hout) & _).
    eapply outcome_keeps; eauto. apply (delete_keeps fresh).
  - destruct H as (_ & r0 & Hout & _).
    eapply outcome_keeps; eauto. apply (insert_keeps fresh).
Qed.

(** The ledger invariant together with what makes it last: the stores
    know every id the ledger holds. *)
Definition ledger_known (s : Env World) : Prop :=
  (forall i, In i (idsA (ledger s)) -> known AccountA (world s) i)
  /\ (forall i, In i (idsB (ledger s)) -> known AccountB (world s) i).

Definition sound (s : Env World) : Prop :=
  unique_ids (ledger s) /\ ledger_known s.

Lemma find_byA_none_ids i d :
  find (byA i) (Dict.values d) = None -> ~ In i (idsA d).
Proof.
  intros H Hin. unfold idsA in Hin. apply in_map_iff in Hin.
  destruct Hin as (r & Hr & Hin).
  apply (find_none _ _ H) in Hin. unfold byA in Hin.
  rewrite Hr, String.eqb_refl in Hin. discriminate.
Qed.

Lemma find_byB_none_ids i d :
  find (byB i) (Dict.values d) = None -> ~ In i (idsB d).
Proof.
  intros H Hin. unfold idsB in Hin. apply in_map_iff in Hin.
  destruct Hin as (r & Hr & Hin).
  apply (find_none _ _ H) in Hin. unfold byB in Hin.
  rewrite Hr, String.eqb_refl in Hin. discriminate.
Qed.

(** Any ledger the steps can produce from a sound one is sound, as long
    as the world has kept its ids. *)
Lemma sound_same s s' :
  sound s -> ledger s' = ledger s ->
  (forall acc i, known acc (world s) i -> known acc (world s') i) ->
  sound s'.
Proof.
  intros (Hu & Hka & Hkb) Hl Hw. unfold sound, ledger_known.
  rewrite Hl. repeat split; try apply Hu; intros i Hi; apply Hw; auto.
Qed.

Lemma sound_advanced s s' taskA v :
  sound s -> ledger s' = advanced taskA v (ledger s) ->
  (forall acc i, known acc (world s) i -> known acc (world s') i) ->
  sound s'.
Proof.
  intros ((Hua & Hub) & Hka & Hkb) Hl Hw.
  unfold sound, ledger_known, unique_ids, idsA, idsB, advanced in *.
  rewrite Hl, !ids_modify_first by reflexivity.
  repeat split; auto.
Qed.

Lemma sound_delete s s' k :
  sound s -> ledger s' = Dict.delete k (ledger s) ->
  (forall acc i, known acc (world s) i -> known acc (world s') i) ->
  sound s'.
Proof.
  intros ((Hua & Hub) & Hka & Hkb) Hl Hw.
  unfold sound, ledger_known, unique_ids, idsA, idsB in *.
  rewrite Hl. repeat split.
  - now apply ids_delete_NoDup.
  - now apply ids_delete_NoDup.
  - intros i Hi. apply Hw, Hka. eapply ids_delete_In; eauto.
  - intros i Hi. apply Hw, Hkb. eapply ids_delete_In; eauto.
Qed.

Lemma sound_set s s' k a b v :
  sound s ->
  ledger s' = Dict.set k
                {| accountAId := a; accountBId := b; lastSyncedUpdate := v |}
                (ledger s) ->
  (forall acc i, known acc (world s) i -> known acc (world s') i) ->
  ~ In a (idsA (ledger s)) -> ~ In b (idsB (ledger s)) ->
  known AccountA (world s') a -> known AccountB (world s') b ->
  sound s'.
Proof.
  intros ((Hua & Hub) & Hka & Hkb) Hl Hw Hna Hnb Ha Hb.
  unfold sound, ledger_known, unique_ids, idsA, idsB in *.
  rewrite Hl. repeat split.
  - now apply ids_set_NoDup.
  - now apply ids_set_NoDup.
  - intros i Hi. apply ids_set_In in Hi. destruct Hi as [->|Hi]; auto.
  - intros i Hi. apply ids_set_In in Hi. destruct Hi as [->|Hi]; auto.
Qed.

Lemma stepA_sound tasksBMap P taskA s P' s' :
  sound s -> known AccountA (world s) (id taskA) ->
  stepA host taskListA taskListB tasksBMap P taskA s P' s' ->
  sound s'.
Proof.
  intros Hs Hka Hstep.
  assert (Hw : forall acc i, known acc (world s) i -> known acc (world s') i)
    by (eapply stepA_keeps; eauto).
  unfold stepA in Hstep.
  destruct (find (byA (id taskA)) (Dict.values (ledger s))) as [r|] eqn:Hfind.
  - destruct (Dict.get (accountBId r) tasksBMap) as [taskB|].
    + destruct Hstep as [_ H].
      destruct (direction host taskA taskB r) as [dst|].
      * unfold copied in H.
        destruct (tasksAreEqual taskA taskB).
        { destruct H as (_ & _ & Hl). eapply sound_advanced; eauto. }
        destruct (String.eqb (id (target dst taskA taskB)) EmptyString).
        { destruct H as (_ & _ & Hl). eapply sound_same; eauto. }
        destruct H as (_ & r0 & _ & Hl).
        destruct r0 as [t|e]; [eapply sound_advanced; eauto|].
        destruct (is_404_or_400 e);
          [eapply sound_delete; eauto | eapply sound_same; eauto].
      * destruct H as (_ & _ & Hl). eapply sound_same; eauto.
    + destruct Hstep as (_ & _ & _ & Hl). eapply sound_delete; eauto.
  - destruct Hstep as (_ & r0 & Hout & H).
    destruct r0 as [newTaskB|e].
    + destruct H as [Hl _].
      destruct (outcome_insert_fresh _ _ _ _ Hout) as [Hnew Hold].
      eapply sound_set; eauto.
      * now apply find_byA_none_ids.
      * intros Hin. apply Hnew. destruct Hs as (_ & _ & Hkb). auto.
    + destruct H as [Hl _]. eapply sound_same; eauto.
Qed.

Lemma stepB_sound P taskB s s' :
  sound s -> known AccountB (world s) (id taskB) ->
  stepB host taskListA taskListB P taskB s s' ->
  sound s'.
Proof.
  intros Hs Hkb Hstep.
  assert (Hw : forall acc i, known acc (world s) i -> known acc (world s') i)
    by (eapply stepB_keeps; eauto).
  unfold stepB in Hstep.
  destruct (find (byB (id taskB)) (Dict.values (ledger s))) as [r|] eqn:Hfind.
  - destruct (StrSet.has (recordKey r) P); [subst; exact Hs|].
    destruct Hstep as (_ & _ & Hl). eapply sound_delete; eauto.
  - destruct Hstep as (_ & r0 & Hout & H).
    destruct r0 as [newTaskA|e].
    + destruct (outcome_insert_fresh _ _ _ _ Hout) as [Hnew Hold].
      eapply sound_set; eauto.
      * intros Hin. apply Hnew. destruct Hs as (_ & Hka & _). auto.
      * now apply find_byB_none_ids.
    + eapply sound_same; eauto.
Qed.

(** The snapshots hold ids the stores have handed out. *)
Definition snapshots_known (tasksA tasksB : list Task) (s : Env World) : Prop :=
  (forall a, In a tasksA -> known AccountA (world s) (id a))
  /\ (forall b, In b tasksB -> known AccountB (world s) (id b)).

Lemma snapshots_known_keep tasksA tasksB s s' :
  snapshots_known tasksA tasksB s ->
  (forall acc i, known acc (world s) i -> known acc (world s') i) ->
  snapshots_known tasksA tasksB s'.
Proof. intros [HA HB] Hw. split; intros x Hx; apply Hw; auto. Qed.

Lemma loopA_sound tasksBMap tasksA tasksB P s :
  sound s -> snapshots_known tasksA tasksB s ->
  exists P' s',
    loopA host taskListA taskListB tasksBMap P tasksA s = (Ok P', s')
    /\ sound s' /\ snapshots_known tasksA tasksB s'.
Proof.
  intros Hs Hk.
  destruct (@loopA_invariant World host taskListA taskListB tasksBMap
              (fun _ _ s => sound s /\ snapshots_known tasksA tasksB s)
              tasksA [] P s (conj Hs Hk)) as (P' & s' & Hrun & HI).
  - intros done a rest P0 s0 P1 s1 Heq [Hs0 Hk0] _ Hstep.
    assert (Hin : In a tasksA).
    { cbn in Heq. rewrite Heq. apply in_or_app. right. left. reflexivity. }
    split.
    + eapply stepA_sound; eauto. apply Hk0. exact Hin.
    + eapply snapshots_known_keep; eauto. eapply stepA_keeps; eauto.
  - exists P', s'. tauto.
Qed.

Lemma loopB_sound tasksA tasksB P s :
  sound s -> snapshots_known tasksA tasksB s ->
  exists s',
    loopB host taskListA taskListB P tasksB s = (Ok tt, s')
    /\ sound s' /\ snapshots_known tasksA tasksB s'.
Proof.
  intros Hs Hk.
  destruct (@loopB_invariant World host taskListA taskListB P
              (fun _ s => sound s /\ snapshots_known tasksA tasksB s)
              tasksB [] s (conj Hs Hk)) as (s' & Hrun & HI).
  - intros done b rest s0 s1 Heq [Hs0 Hk0] _ Hstep.
    assert (Hin : In b tasksB).
    { cbn in Heq. rewrite Heq. apply in_or_app. right. left. reflexivity. }
    split.
    + eapply stepB_sound; eauto. apply Hk0. exact Hin.
    + eapply snapshots_known_keep; eauto. eapply stepB_keeps; eauto.
  - exists s'. tauto.
Qed.

(** C7. From a ledger in which no task id of A and no task id of B
    occurs in two records, the pass runs to its end and leaves such a
    ledger: ids stay unique on each side, and so no pair of ids has two
    records.  The stores are taken to hand out fresh ids and to know the
    ids of the ledger and of the snapshots. *)
Theorem reconcile_keeps_ids_unique tasksA tasksB s :
  unique_ids (ledger s) ->
  ledger_known s ->
  snapshots_known tasksA tasksB s ->
  exists s',
    reconcile host taskListA taskListB tasksA tasksB s = (Ok tt, s')
    /\ NoDup (map accountAId (Dict.values (ledger s')))
    /\ NoDup (map accountBId (Dict.values (ledger s')))
    /\ NoDup (map (fun r => (accountAId r, accountBId r))
                (Dict.values (ledger s'))).
Proof.
  intros Hu Hl Hk.
  destruct (@loopA_sound (Dict.of_entries (map (fun t => (id t, t)) tasksB))
              tasksA tasksB StrSet.empty s (conj Hu Hl) Hk)
    as (P & s1 & HA & Hs1 & Hk1).
  destruct (@loopB_sound tasksA tasksB P s1 Hs1 Hk1) as (s' & HB & Hs' & _).
  exists s'. erewrite reconcile_loops by exact HA.
  destruct Hs' as [[Hua Hub] _].
  repeat split; auto.
  clear - Hua. unfold idsA in Hua.
  induction (Dict.values (ledger s')) as [|r l IH]; cbn in *; [constructor|].
  inversion Hua as [|? ? Hnin Hnd]; subst. constructor; [|auto].
  intros Hin. apply Hnin. apply in_map_iff in Hin.
  destruct Hin as (r' & Heq & Hin).
  assert (E : accountAId r = accountAId r') by congruence.
  rewrite E. now apply in_map.
Qed.

End Fresh.

(* ================================================================== *)
(** ** The reference host hands out fresh ids *)

Lemma nat_str_inj n m : nat_str n = nat_str m -> n = m.
Proof.
  unfold nat_str. intros H.
  assert (Hnil : forall k, Nat.to_uint k <> Decimal.Nil).
  { intros k Hk. pose proof (Unsigned.of_to k) as E. rewrite Hk in E.
    cbn in E. subst k. discriminate Hk. }
  apply Unsigned.to_uint_inj.
  pose proof (NilZero.usu (Nat.to_uint n) (Hnil n)) as En.
  pose proof (NilZero.usu (Nat.to_uint m) (Hnil m)) as Em.
  rewrite H in En. congruence.
Qed.

(** The ids [t1], [t2], ... from the counter on are still to come. *)
Definition Ideal_known (acc : Account) (w : Ideal.World) (i : string) : Prop :=
  forall n, (Ideal.nextId w <= n)%nat -> i <> "t" +++ nat_str n.

Lemma Ideal_guarded_keeps T (f : Ideal.World -> Result T * Ideal.World) :
  (forall w r w', f w = (r, w') -> (Ideal.nextId w <= Ideal.nextId w')%nat) ->
  forall w r w', Ideal.guarded f w = (r, w') ->
                 (Ideal.nextId w <= Ideal.nextId w')%nat.
Proof.
  intros Hf w r w'. unfold Ideal.guarded, Ideal.pop_fault.
  destruct (Ideal.faults w) as [|[e|] rest]; cbn.
  - apply Hf.
  - intros H. inversion H; subst. cbn. lia.
  - intros H. apply Hf in H. cbn in H. exact H.
Qed.

Lemma Ideal_counter_keeps T (f : Ideal.World -> Result T * Ideal.World) :
  (forall w r w', f w = (r, w') -> (Ideal.nextId w <= Ideal.nextId w')%nat) ->
  keeps_known Ideal_known f.
Proof.
  intros Hf w r w' acc i H Hk n Hn. apply Hk. apply Hf in H. lia.
Qed.

Lemma Ideal_fresh : FreshIds Ideal.host Ideal_known.
Proof.
  constructor.
  - intros acc l b. apply Ideal_counter_keeps. apply Ideal_guarded_keeps.
    intros w r w' H. inversion H; subst. destruct acc; cbn; lia.
  - intros acc l i b. apply Ideal_counter_keeps. apply Ideal_guarded_keeps.
    intros w r w'.
    destruct (find (fun t => String.eqb (id t) i) (Ideal.store acc w));
      intros H; inversion H; subst; destruct acc; cbn; lia.
  - intros acc l i. apply Ideal_counter_keeps. apply Ideal_guarded_keeps.
    intros w r w'.
    destruct (Ideal.has_id i (Ideal.store acc w));
      intros H; inversion H; subst; destruct acc; cbn; lia.
  - intros acc l b w t w'. cbn [tasks_insert Ideal.host].
    unfold Ideal.insert, Ideal.guarded, Ideal.pop_fault.
    destruct (Ideal.faults w) as [|[e|] rest]; cbn; intros H;
      inversion H; subst; clear H; cbn.
    + split.
      * intros Hk. apply (Hk (Ideal.nextId w)); [lia | reflexivity].
      * intros n Hn E. inversion E as [E']. apply nat_str_inj in E'.
        destruct acc; cbn in Hn; lia.
    + split.
      * intros Hk. apply (Hk (Ideal.nextId w)); [lia | reflexivity].
      * intros n Hn E. inversion E as [E']. apply nat_str_inj in E'.
        destruct acc; cbn in Hn; lia.
Qed.

(** An id that does not start with [t] is none of the ids to come. *)
Lemma Ideal_known_other acc w c i :
  c <> "t"%char -> Ideal_known acc w (String c i).
Proof. intros Hc n _ E. inversion E. contradiction. Qed.

(** One pass over two lists with a tracked pair in conflict, a new task on
    each side and a task whose partner is gone. *)
Lemma reconcile_keeps_ids_unique_witness :
  let tasksA := [Ideal.task "a1" "Buy oat milk" None "needsAction" t2;
                 Ideal.task "a2" "Call mum" None "needsAction" t1;
                 Ideal.task "a3" "Old chore" None "completed" t0] in
  let tasksB := [Ideal.task "b1" "Buy milk" None "needsAction" t1;
                 Ideal.task "b2" "Water plants" None "needsAction" t1] in
  let ledger0 := [("a1-b1", pair_record);
                  ("a3-b3", {| accountAId := "a3"; accountBId := "b3";
                               lastSyncedUpdate := t0 |})] in
  exists s',
    reconcile Ideal.host L L tasksA tasksB (Ideal.env tasksA tasksB ledger0)
    = (Ok tt, s')
    /\ NoDup (map accountAId (Dict.values (ledger s')))
    /\ NoDup (map accountBId (Dict.values (ledger s')))
    /\ NoDup (map (fun r => (accountAId r, accountBId r))
                (Dict.values (ledger s'))).
Proof.
  intros tasksA tasksB ledger0.
  apply (@reconcile_keeps_ids_unique Ideal.World Ideal.host Ideal_known L L
           Ideal_fresh).
  - split; repeat constructor; cbn; intuition discriminate.
  - split; intros i Hi; cbn in Hi;
      repeat (destruct Hi as [<-|Hi];
              [apply Ideal_known_other; discriminate|]); destruct Hi.
  - split; intros x Hx; cbn in Hx;
      repeat (destruct Hx as [<-|Hx];
              [apply Ideal_known_other; discriminate|]); destruct Hx.
Defined.

(* ================================================================== *)
(** ** The lookup map of the B snapshot *)

Lemma Dict_get_set_other {V} k k' (v : V) d :
  k' <> k -> Dict.get k (Dict.set k' v d) = Dict.get k d.
Proof.
  intros Hne. induction d as [|[k0 v0] d IH]; cbn.
  - destruct (String.eqb_spec k' k); [contradiction | reflexivity].
  - destruct (String.eqb_spec k0 k') as [->|Hne0]; cbn.
    + destruct (String.eqb_spec k' k); [contradiction | reflexivity].
    + destruct (String.eqb_spec k0 k); [reflexivity | exact IH].
Qed.

Lemma find_app {A} (p : A -> bool) l1 l2 :
  find p (l1 ++ l2)
  = match find p l1 with Some x => Some x | None => find p l2 end.
Proof.
  induction l1 as [|a l1 IH]; cbn; [reflexivity|].
  destruct (p a); [reflexivity | exact IH].
Qed.

(** [new Map(entries).get(k)] is the last entry with the key [k]. *)
Lemma Dict_get_fold_set {V} k (entries : list (string * V)) :
  forall m,
    Dict.get k (fold_left (fun m e => Dict.set (fst e) (snd e) m) entries m)
    = match find (fun e => String.eqb (fst e) k) (rev entries) with
      | Some e => Some (snd e)
      | None => Dict.get k m
      end.
Proof.
  induction entries as [|e entries IH]; intros m; cbn; [reflexivity|].
  rewrite IH, find_app. cbn.
  destruct (find (fun e0 => String.eqb (fst e0) k) (rev entries));
    [reflexivity|].
  destruct (String.eqb_spec (fst e) k) as [<-|Hne].
  - apply Dict_get_set.
  - now apply Dict_get_set_other.
Qed.

Definition snapshot_map (tasksB : list Task) : Dict.t Task :=
  Dict.of_entries (map (fun t => (id t, t)) tasksB).

Lemma snapshot_map_get k tasksB t :
  Dict.get k (snapshot_map tasksB) = Some t -> id t = k /\ In t tasksB.
Proof.
  unfold snapshot_map, Dict.of_entries. rewrite Dict_get_fold_set. cbn.
  destruct (find _ _) as [[k0 t0]|] eqn:Hfind; [|discriminate].
  intros H. inversion H; subst. apply find_some in Hfind.
  destruct Hfind as [Hin Hk]. cbn in Hk. apply String.eqb_eq in Hk.
  apply in_rev, in_map_iff in Hin. destruct Hin as (t' & Heq & Hin).
  inversion Heq; subst. auto.
Qed.

Lemma snapshot_map_none k tasksB :
  Dict.get k (snapshot_map tasksB) = None -> ~ In k (map id tasksB).
Proof.
  unfold snapshot_map, Dict.of_entries. rewrite Dict_get_fold_set. cbn.
  destruct (find _ _) as [[k0 t0]|] eqn:Hfind; [discriminate|].
  intros _ Hin. apply in_map_iff in Hin. destruct Hin as (t & <- & Hin).
  assert (E : String.eqb (fst (id t, t)) (id t) = false).
  { apply (find_none _ _ Hfind (id t, t)).
    apply -> in_rev. apply in_map_iff. eauto. }
  cbn in E. rewrite String.eqb_refl in E. discriminate.
Qed.

Lemma snapshot_map_unique tasksB t :
  NoDup (map id tasksB) -> In t tasksB ->
  Dict.get (id t) (snapshot_map tasksB) = Some t.
Proof.
  intros Hnd Hin.
  destruct (Dict.get (id t) (snapshot_map tasksB)) as [t'|] eqn:Hget.
  - apply snapshot_map_get in Hget. destruct Hget as [Hid Hin'].
    f_equal. eapply NoDup_map_inj; eauto.
  - apply snapshot_map_none in Hget. exfalso. apply Hget. now apply in_map.
Qed.

(* ================================================================== *)
(** ** What the steps keep, whatever the stores answer *)

Section StepFacts.

Context {World : Type}.
Variable host : Host World.
Variables taskListA taskListB : TaskList.t.

Lemma keyed_advanced taskA v d : keyed d -> keyed (advanced taskA v d).
Proof. apply keyed_modify_first. Qed.

Lemma stepA_keyed tasksBMap P taskA s P' s' :
  keyed (ledger s) ->
  stepA host taskListA taskListB tasksBMap P taskA s P' s' ->
  keyed (ledger s').
Proof.
  intros Hk Hstep. unfold stepA in Hstep.
  destruct (find (byA (id taskA)) (Dict.values (ledger s))) as [r|].
  - destruct (Dict.get (accountBId r) tasksBMap) as [taskB|].
    + destruct Hstep as [_ H].
      destruct (direction host taskA taskB r) as [dst|].
      * unfold copied in H.
        destruct (tasksAreEqual taskA taskB).
        { destruct H as (_ & _ & ->). now apply keyed_advanced. }
        destruct (String.eqb (id (target dst taskA taskB)) EmptyString).
        { destruct H as (_ & _ & ->). exact Hk. }
        destruct H as (_ & r0 & _ & ->).
        destruct r0 as [t|e]; [now apply keyed_advanced|].
        destruct (is_404_or_400 e); [now apply keyed_delete | exact Hk].
      * destruct H as (_ & _ & ->). exact Hk.
    + destruct Hstep as (_ & _ & _ & ->). now apply keyed_delete.
  - destruct Hstep as (_ & r0 & _ & H).
    destruct r0 as [newTaskB|e]; destruct H as [-> _];
      [now apply keyed_set | exact Hk].
Qed.

Lemma stepB_keyed P taskB s s' :
  keyed (ledger s) ->
  stepB host taskListA taskListB P taskB s s' ->
  keyed (ledger s').
Proof.
  intros Hk Hstep. unfold stepB in Hstep.
  destruct (find (byB (id taskB)) (Dict.values (ledger s))) as [r|].
  - destruct (StrSet.has (recordKey r) P); [subst; exact Hk|].
    destruct Hstep as (_ & _ & ->). now apply keyed_delete.
  - destruct Hstep as (_ & r0 & _ & H).
    destruct r0 as [newTaskA|e]; rewrite H;
      [now apply keyed_set | exact Hk].
Qed.

(** The set of processed pairs only grows. *)
Lemma stepA_processed_grows tasksBMap P taskA s P' s' k :
  stepA host taskListA taskListB tasksBMap P taskA s P' s' ->
  StrSet.has k P = true -> StrSet.has k P' = true.
Proof.
  intros Hstep Hk. unfold stepA in Hstep.
  destruct (find (byA (id taskA)) (Dict.values (ledger s))) as [r|].
  - destruct (Dict.get (accountBId r) tasksBMap) as [taskB|].
    + destruct Hstep as [-> _]. rewrite StrSet_has_add, Hk. apply orb_true_r.
    + destruct Hstep as [-> _]. exact Hk.
  - destruct Hstep as (_ & r0 & _ & H).
    destruct r0 as [newTaskB|e]; destruct H as [_ ->]; [|exact Hk].
    rewrite StrSet_has_add, Hk. apply orb_true_r.
Qed.

Lemma find_modify_first_none {V} (p q : V -> bool) f (d : Dict.t V) :
  (forall x, q (f x) = q x) ->
  find q (Dict.values d) = None ->
  find q (Dict.values (Dict.modify_first p f d)) = None.
Proof.
  intros Hq H. apply find_none_iff. intros x Hin.
  apply Dict_values_In in Hin. destruct Hin as [k Hin].
  apply Dict_modify_first_In in Hin.
  destruct Hin as [Hin|(x0 & Hin & _ & ->)].
  - apply (find_none _ _ H). apply Dict_values_In. eauto.
  - rewrite Hq. apply (find_none _ _ H). apply Dict_values_In. eauto.
Qed.

Lemma find_delete_none {V} (q : V -> bool) k (d : Dict.t V) :
  find q (Dict.values d) = None ->
  find q (Dict.values (Dict.delete k d)) = None.
Proof.
  intros H. apply find_none_iff. intros x Hin.
  apply (find_none _ _ H). eapply Dict_delete_values; eauto.
Qed.

Lemma find_set_none {V} (q : V -> bool) k v (d : Dict.t V) :
  find q (Dict.values d) = None -> q v = false ->
  find q (Dict.values (Dict.set k v d)) = None.
Proof.
  intros H Hv. apply find_none_iff. intros x Hin.
  apply Dict_set_values in Hin. destruct Hin as [->|Hin]; [exact Hv|].
  apply (find_none _ _ H _ Hin).
Qed.

End StepFacts.

(* ================================================================== *)
(** ** A pair evicted by a failed write *)

Section Eviction.

Context {World : Type}.
Variable host : Host World.
Variable known : Account -> World -> string -> Prop.
Variables taskListA taskListB : TaskList.t.
Hypothesis fresh : FreshIds host known.

(** What the first loop keeps over any stretch of tasks. *)
Lemma loopA_keeps tasksBMap l P s P' s' :
  loopA host taskListA taskListB tasksBMap P l s = (Ok P', s') ->
  keyed (ledger s) -> sound known s ->
  (forall a, In a l -> known AccountA (world s) (id a)) ->
  keyed (ledger s') /\ sound known s'
  /\ (forall acc i, known acc (world s) i -> known acc (world s') i)
  /\ (forall k, StrSet.has k P = true -> StrSet.has k P' = true).
Proof.
  intros Hrun Hk Hs Hl.
  destruct (@loopA_invariant World host taskListA taskListB tasksBMap
              (fun _ P1 s1 =>
                 keyed (ledger s1) /\ sound known s1
                 /\ (forall acc i, known acc (world s) i -> known acc (world s1) i)
                 /\ (forall k, StrSet.has k P = true -> StrSet.has k P1 = true))
              l [] P s) as (P'' & s'' & Hrun' & HI).
  - auto.
  - intros done a rest P0 s0 P1 s1 Heq (Hk0 & Hs0 & Hw0 & Hp0) _ Hstep.
    assert (Hin : In a l).
    { cbn in Heq. rewrite Heq. apply in_or_app. right. left. reflexivity. }
    assert (Hw : forall acc i, known acc (world s0) i -> known acc (world s1) i)
      by (eapply stepA_keeps; eauto).
    split; [eapply stepA_keyed; eauto|].
    split; [eapply stepA_sound; eauto|].
    split; [auto|].
    intros k Hk1. eapply stepA_processed_grows; eauto.
  - rewrite Hrun in Hrun'. inversion Hrun'; subst. exact HI.
Qed.

Lemma loopB_keeps l P s s' :
  loopB host taskListA taskListB P l s = (Ok tt, s') ->
  forall acc i, known acc (world s) i -> known acc (world s') i.
Proof.
  intros Hrun.
  destruct (@loopB_invariant World host taskListA taskListB P
              (fun _ s1 =>
                 forall acc i, known acc (world s) i -> known acc (world s1) i)
              l [] s) as (s'' & Hrun' & HI).
  - auto.
  - intros done b rest s0 s1 Heq Hw0 _ Hstep acc i Hk.
    eapply stepB_keeps; eauto.
  - rewrite Hrun in Hrun'. inversion Hrun'; subst. exact HI.
Qed.

(** No record names the B task [i], and none will: a task created by the
    first loop gets a fresh id, and the second loop pairs only the task
    it is looking at. *)
Lemma stepA_absentB tasksBMap P taskA s P' s' i :
  find (byB i) (Dict.values (ledger s)) = None ->
  known AccountB (world s) i ->
  stepA host taskListA taskListB tasksBMap P taskA s P' s' ->
  find (byB i) (Dict.values (ledger s')) = None.
Proof.
  intros Habs Hk Hstep. unfold stepA in Hstep.
  destruct (find (byA (id taskA)) (Dict.values (ledger s))) as [r|].
  - destruct (Dict.get (accountBId r) tasksBMap) as [taskB|].
    + destruct Hstep as [_ H].
      destruct (direction host taskA taskB r) as [dst|].
      * unfold copied in H.
        destruct (tasksAreEqual taskA taskB).
        { destruct H as (_ & _ & ->). now apply find_modify_first_none. }
        destruct (String.eqb (id (target dst taskA taskB)) EmptyString).
        { destruct H as (_ & _ & ->). exact Habs. }
        destruct H as (_ & r0 & _ & ->).
        destruct r0 as [t|e]; [now apply find_modify_first_none|].
        destruct (is_404_or_400 e); [now apply find_delete_none | exact Habs].
      * destruct H as (_ & _ & ->). exact Habs.
    + destruct Hstep as (_ & _ & _ & ->). now apply find_delete_none.
  - destruct Hstep as (_ & r0 & Hout & H).
    destruct r0 as [newTaskB|e]; destruct H as [-> _]; [|exact Habs].
    apply find_set_none; [exact Habs|].
    destruct (outcome_insert_fresh fresh _ _ _ _ Hout) as [Hnew _].
    unfold byB, new_record_A. cbn. apply String.eqb_neq.
    intros E. apply Hnew. rewrite E. exact Hk.
Qed.

Lemma stepB_absentB P taskB s s' i :
  find (byB i) (Dict.values (ledger s)) = None ->
  id taskB <> i ->
  stepB host taskListA taskListB P taskB s s' ->
  find (byB i) (Dict.values (ledger s')) = None.
Proof.
  intros Habs Hne Hstep. unfold stepB in Hstep.
  destruct (find (byB (id taskB)) (Dict.values (ledger s))) as [r|].
  - destruct (StrSet.has (recordKey r) P); [subst; exact Habs|].
    destruct Hstep as (_ & _ & ->). now apply find_delete_none.
  - destruct Hstep as (_ & r0 & _ & H).
    destruct r0 as [newTaskA|e]; rewrite H; [|exact Habs].
    apply find_set_none; [exact Habs|].
    unfold byB, new_record_B. cbn. now apply String.eqb_neq.
Qed.

Lemma loopA_absentB tasksBMap l P s P' s' i :
  loopA host taskListA taskListB tasksBMap P l s = (Ok P', s') ->
  find (byB i) (Dict.values (ledger s)) = None ->
  known AccountB (world s) i ->
  find (byB i) (Dict.values (ledger s')) = None.
Proof.
  intros Hrun Habs Hk.
  destruct (@loopA_invariant World host taskListA taskListB tasksBMap
              (fun _ _ s1 =>
                 find (byB i) (Dict.values (ledger s1)) = None
                 /\ known AccountB (world s1) i)
              l [] P s) as (P'' & s'' & Hrun' & HI).
  - auto.
  - intros done a rest P0 s0 P1 s1 _ [Habs0 Hk0] _ Hstep. split.
    + eapply stepA_absentB; eauto.
    + eapply stepA_keeps; eauto.
  - rewrite Hrun in Hrun'. inversion Hrun'; subst. apply HI.
Qed.

Lemma loopB_absentB l P s s' i :
  loopB host taskListA taskListB P l s = (Ok tt, s') ->
  find (byB i) (Dict.values (ledger s)) = None ->
  ~ In i (map id l) ->
  find (byB i) (Dict.values (ledger s')) = None.
Proof.
  intros Hrun Habs Hnin.
  destruct (@loopB_invariant World host taskListA taskListB P
              (fun _ s1 => find (byB i) (Dict.values (ledger s1)) = None)
              l [] s) as (s'' & Hrun' & HI).
  - auto.
  - intros done b rest s0 s1 Heq Habs0 _ Hstep.
    eapply stepB_absentB; eauto.
    intros E. apply Hnin. cbn in Heq. rewrite Heq, <- E.
    apply in_map, in_or_app. right. left. reflexivity.
  - rewrite Hrun in Hrun'. inversion Hrun'; subst. apply HI.
Qed.

Lemma not_found_is_fatal e :
  is_404_or_400 e = true -> isRateLimitError e = false ->
  isTransient host e = false.
Proof.
  unfold is_404_or_400, isTransient, isServerError. intros H Hrl.
  rewrite Hrl. cbn [orb].
  destruct (code e) as [|n|c]; cbn in *; try discriminate.
  apply orb_true_iff in H. rewrite !Z.eqb_eq in H.
  rewrite orb_false_r. apply Z.leb_gt. lia.
Qed.

(** The record found for a task of A is the one found for its B id. *)
Lemma find_byB_of_byA d r i :
  NoDup (idsB d) -> find (byA i) (Dict.values d) = Some r ->
  find (byB (accountBId r)) (Dict.values d) = Some r.
Proof.
  intros Hnd Hfind. apply find_some in Hfind. destruct Hfind as [Hin _].
  destruct (find (byB (accountBId r)) (Dict.values d)) as [r'|] eqn:Hb.
  - apply find_some in Hb. destruct Hb as [Hin' Hp].
    unfold byB in Hp. apply String.eqb_eq in Hp.
    f_equal. eapply NoDup_map_inj; eauto.
  - apply (find_none _ _ Hb) in Hin. unfold byB in Hin.
    rewrite String.eqb_refl in Hin. discriminate.
Qed.

(** C10. The pass over [tasksA = pre ++ taskA :: post] and
    [tasksB = preB ++ taskB :: postB], from a ledger that keeps its
    invariant.  At [taskA]'s turn its record pairs it with [taskB], a
    write is due, and the store answers the update with a 404 or a 400:
    the record is deleted from the ledger there and then, while the pair
    is still marked as processed.  When the second loop reaches [taskB]
    it finds no record for it, calls [createTask] on A with [taskB]'s
    content and, once the store has answered, assigns a record that pairs
    the brand-new A id with [taskB]; the rest of the pass goes on from
    there. *)
Theorem evicted_pair_is_created_anew
    pre taskA post preB taskB postB syncRecord dst e w1
    s0 P1 s1 P2 s2 P3 s3 s4 :
  let tasksA := pre ++ taskA :: post in
  let tasksB := preB ++ taskB :: postB in
  let tasksBMap := Dict.of_entries (map (fun t => (id t, t)) tasksB) in
  keyed (ledger s0) ->
  unique_ids (ledger s0) ->
  ledger_known known s0 ->
  snapshots_known known tasksA tasksB s0 ->
  NoDup (map id tasksB) ->
  loopA host taskListA taskListB tasksBMap StrSet.empty pre s0 = (Ok P1, s1) ->
  find (byA (id taskA)) (Dict.values (ledger s1)) = Some syncRecord ->
  Dict.get (accountBId syncRecord) tasksBMap = Some taskB ->
  direction host taskA taskB syncRecord = Some dst ->
  tasksAreEqual taskA taskB = false ->
  id (target dst taskA taskB) <> EmptyString ->
  update_request host taskListA taskListB dst taskA taskB (world s1)
  = (Throw e, w1) ->
  is_404_or_400 e = true ->
  isRateLimitError e = false ->
  processTaskA host taskListA taskListB tasksBMap P1 taskA s1 = (Ok P2, s2) ->
  loopA host taskListA taskListB tasksBMap P2 post s2 = (Ok P3, s3) ->
  loopB host taskListA taskListB P3 preB s3 = (Ok tt, s4) ->
  ledger s2 = Dict.delete (recordKey syncRecord) (ledger s1)
  /\ find (byB (id taskB)) (Dict.values (ledger s2)) = None
  /\ StrSet.has (recordKey syncRecord) P3 = true
  /\ find (byB (id taskB)) (Dict.values (ledger s4)) = None
  /\ exists s5 r,
       processTaskB host taskListA taskListB P3 taskB s4 = (Ok tt, s5)
       /\ reconcile host taskListA taskListB tasksA tasksB s0
          = loopB host taskListA taskListB P3 postB s5
       /\ calls s5
          = calls s4
            ++ [CallCreate AccountA (TaskList.id taskListA)
                  {| rb_id := None; rb_title := title taskB;
                     rb_notes := notes taskB; rb_status := status taskB;
                     rb_due := due taskB |}]
       /\ outcome host (tasks_insert host AccountA (TaskList.id taskListA)
                          (body_of None taskB)) (world s4) = (r, world s5)
       /\ match r with
          | Ok newTaskA =>
              ~ known AccountA (world s4) (id newTaskA)
              /\ ledger s5
                 = Dict.set (pairKey (id newTaskA) (id taskB))
                     {| accountAId := id newTaskA; accountBId := id taskB;
                        lastSyncedUpdate := updated taskB |} (ledger s4)
          | Throw _ => ledger s5 = ledger s4
          end.
Proof.
  intros tasksA tasksB tasksBMap Hkeyed Huniq Hknown Hsnap HndB
         Hpre Hfind Hget Hdir Hneq Hid Hreq H404 Hrl Hstep Hpost HpreB.
  destruct Hsnap as [HsnapA HsnapB].
  (* the ledger is still sound when [taskA] is reached *)
  destruct (@loopA_keeps tasksBMap pre StrSet.empty s0 P1 s1 Hpre Hkeyed
              (conj Huniq Hknown))
    as (Hkeyed1 & Hsound1 & Hw01 & _).
  { intros a Ha. apply HsnapA. apply in_or_app. auto. }
  assert (HB : id taskB = accountBId syncRecord /\ In taskB tasksB)
    by (apply snapshot_map_get; exact Hget).
  destruct HB as [HidB HinB].
  (* the failed write evicts the record *)
  destruct (processTaskA_spec host taskListA taskListB tasksBMap P1 taskA s1)
    as (P2' & s2' & Hrun & _ & Hspec).
  rewrite Hstep in Hrun. inversion Hrun; subst P2' s2'. clear Hrun.
  assert (Hw12 : forall acc i, known acc (world s1) i -> known acc (world s2) i)
    by (eapply stepA_keeps; eauto).
  unfold stepA in Hspec. rewrite Hfind, Hget, Hdir in Hspec.
  destruct Hspec as [HP2 Hcopy]. unfold copied in Hcopy.
  rewrite Hneq in Hcopy. apply String.eqb_neq in Hid. rewrite Hid in Hcopy.
  destruct Hcopy as (_ & r & Hout & Hl2).
  rewrite (outcome_first_fatal host _ _ Hreq (@not_found_is_fatal e H404 Hrl))
    in Hout.
  inversion Hout; subst r. rewrite H404 in Hl2.
  assert (Habs2 : find (byB (id taskB)) (Dict.values (ledger s2)) = None).
  { rewrite Hl2, HidB. apply delete_record_gone_B; auto.
    - apply Hsound1.
    - eapply find_byB_of_byA; eauto. apply Hsound1. }
  assert (HkB : known AccountB (world s2) (id taskB)).
  { apply Hw12, Hw01, HsnapB. exact HinB. }
  (* the rest of the first loop *)
  assert (Habs3 : find (byB (id taskB)) (Dict.values (ledger s3)) = None)
    by (eapply loopA_absentB; eauto).
  assert (Hmark : StrSet.has (recordKey syncRecord) P3 = true).
  { assert (Hgrow : forall k, StrSet.has k P2 = true -> StrSet.has k P3 = true).
    { destruct (@loopA_invariant World host taskListA taskListB tasksBMap
                  (fun _ Q _ => forall k, StrSet.has k P2 = true ->
                                          StrSet.has k Q = true)
                  post [] P2 s2) as (P3' & s3' & Hrun & HI).
      - auto.
      - intros done a rest Q0 q0 Q1 q1 _ HQ _ Hst k Hk.
        eapply stepA_processed_grows; eauto.
      - rewrite Hpost in Hrun. inversion Hrun; subst. exact HI. }
    apply Hgrow. rewrite HP2, StrSet_has_add, String.eqb_refl. reflexivity. }
  (* the second loop up to [taskB] *)
  assert (Habs4 : find (byB (id taskB)) (Dict.values (ledger s4)) = None).
  { eapply loopB_absentB; eauto.
    unfold tasksB in HndB. rewrite map_app in HndB. cbn in HndB.
    apply NoDup_remove_2 in HndB. intros Hin. apply HndB.
    apply in_or_app. left. exact Hin. }
  repeat split; auto.
  destruct (processTaskB_spec host taskListA taskListB P3 taskB s4)
    as (s5 & HrunB & _ & HspecB).
  unfold stepB in HspecB. rewrite Habs4 in HspecB.
  destruct HspecB as (Hcalls & r & HoutB & HlB).
  exists s5, r. repeat split; auto.
  - (* the pass is the composition of its stretches *)
    assert (HA : loopA host taskListA taskListB tasksBMap StrSet.empty tasksA s0
                 = (Ok P3, s3)).
    { unfold tasksA. erewrite loopA_app by exact Hpre.
      erewrite loopA_cons by exact Hstep. exact Hpost. }
    erewrite reconcile_loops by exact HA.
    unfold tasksB. erewrite loopB_app by exact HpreB.
    erewrite loopB_cons by exact HrunB. reflexivity.
  - destruct r as [newTaskA|err]; [|exact HlB].
    split; [|exact HlB].
    apply (outcome_insert_fresh fresh _ _ _ _ HoutB).
Qed.

End Eviction.

(** The B task of a tracked pair was deleted in B after the snapshot was
    taken: the update of [b1] is answered with 404, the record is evicted,
    and the second loop creates [b1]'s content in A as the new task [t1]. *)
Lemma evicted_pair_is_created_anew_witness :
  let a1 := Ideal.task "a1" "Buy oat milk" None "needsAction" t2 in
  let b1 := Ideal.task "b1" "Buy milk" None "needsAction" t0 in
  let s0 := {| world := Ideal.start [a1] [];
               syncState := {| tasks := pair_ledger; lastSyncTime := t0 |};
               console := []; sleeps := []; calls := [] |} in
  exists s5,
    reconcile Ideal.host L L [a1] [b1] s0 = (Ok tt, s5)
    /\ calls s5
       = [CallUpdate AccountB "L" "b1" (body_of (Some "b1") a1);
          CallCreate AccountA "L" (body_of None b1)]
    /\ ledger s5
       = [("t1-b1", {| accountAId := "t1"; accountBId := "b1";
                       lastSyncedUpdate := t0 |})].
Proof.
  intros a1 b1 s0.
  pose (s2 := snd (processTaskA Ideal.host L L [("b1", b1)] [] a1 s0)).
  destruct (@evicted_pair_is_created_anew Ideal.World Ideal.host Ideal_known
              L L Ideal_fresh [] a1 [] [] b1 [] pair_record AccountB
              Ideal.not_found (Ideal.start [a1] [])
              s0 [] s0 ["a1-b1"] s2 ["a1-b1"] s2 s2)
    as (Hl2 & Habs2 & Hmark & Habs4 & s5 & r & Hrun & Hrec & Hcalls & Hout & Hr);
    try reflexivity.
  - intros k r0 [H|[]]. inversion H. reflexivity.
  - split; repeat constructor; cbn; intuition discriminate.
  - split; intros i Hi; cbn in Hi;
      repeat (destruct Hi as [<-|Hi];
              [apply Ideal_known_other; discriminate|]); destruct Hi.
  - split; intros x Hx; cbn in Hx;
      repeat (destruct Hx as [<-|Hx];
              [apply Ideal_known_other; discriminate|]); destruct Hx.
  - repeat constructor; cbn; intuition discriminate.
  - discriminate.
  - exists s5. split; [|split].
    + cbn [app] in Hrec. rewrite Hrec. reflexivity.
    + rewrite Hcalls. reflexivity.
    + assert (E : r = Ok (Ideal.written "t1" (body_of None b1) None
                            (Ideal.start [a1] []))).
      { pose proof (f_equal fst Hout) as E. cbn [fst] in E.
        rewrite <- E. reflexivity. }
      subst r. destruct Hr as [_ Hl5]. rewrite Hl5. reflexivity.
Defined.

(* ================================================================== *)
(** ** A pass over converged stores

    Two stores and a ledger have converged when every task of either
    store belongs to a pair of the ledger whose other task exists, and
    every pair is quiet: the two tasks agree, or neither was modified
    after the pair's [lastSyncedUpdate]. *)

Section Converged.

Context {World : Type}.
Variable host : Host World.
Variables taskListA taskListB : TaskList.t.

Definition quiet (taskA taskB : Task) (r : SyncRecord) : Prop :=
  tasksAreEqual taskA taskB = true \/ direction host taskA taskB r = None.

Definition converged (SA SB : list Task) (d : Dict.t SyncRecord) : Prop :=
  NoDup (map id SA) /\ NoDup (map id SB) /\ unique_ids d
  /\ (forall a, In a SA ->
        exists r b, find (byA (id a)) (Dict.values d) = Some r
                    /\ In b SB /\ id b = accountBId r /\ quiet a b r)
  /\ (forall b, In b SB ->
        exists r a, In r (Dict.values d) /\ accountBId r = id b
                    /\ In a SA /\ id a = accountAId r).

Definition pair_of (r : SyncRecord) : string * string :=
  (accountAId r, accountBId r).

(** Two ledgers with the same pairs in the same order. *)
Definition same_pairs (d d' : Dict.t SyncRecord) : Prop :=
  map pair_of (Dict.values d) = map pair_of (Dict.values d').

Lemma same_pairs_advanced taskA v d d' :
  same_pairs d d' -> same_pairs d (advanced taskA v d').
Proof.
  unfold same_pairs, advanced. intros ->. symmetry.
  apply Dict_modify_first_map. reflexivity.
Qed.

Lemma same_pairs_find (p : string * string -> bool) d d' :
  same_pairs d d' ->
  option_map pair_of (find (fun r => p (pair_of r)) (Dict.values d))
  = option_map pair_of (find (fun r => p (pair_of r)) (Dict.values d')).
Proof.
  unfold same_pairs. generalize (Dict.values d) (Dict.values d').
  induction l as [|r l IH]; intros [|r' l'] H; try discriminate H;
    [reflexivity|].
  simpl map in H.
  assert (Hr : pair_of r = pair_of r') by congruence.
  assert (Hl : map pair_of l = map pair_of l') by congruence.
  simpl find. rewrite Hr.
  destruct (p (pair_of r')); simpl; [now rewrite Hr | auto].
Qed.

Lemma same_pairs_byA i d d' r :
  same_pairs d d' -> find (byA i) (Dict.values d) = Some r ->
  exists r', find (byA i) (Dict.values d') = Some r' /\ pair_of r' = pair_of r.
Proof.
  intros Hs Hf.
  pose proof (same_pairs_find (fun p => String.eqb (fst p) i) Hs) as E.
  cbn in E. fold (byA i) in E. rewrite Hf in E. cbn in E.
  destruct (find (byA i) (Dict.values d')) as [r'|]; [|discriminate].
  exists r'. cbn in E. split; congruence.
Qed.

Lemma same_pairs_byB i d d' r :
  same_pairs d d' -> find (byB i) (Dict.values d) = Some r ->
  exists r', find (byB i) (Dict.values d') = Some r' /\ pair_of r' = pair_of r.
Proof.
  intros Hs Hf.
  pose proof (same_pairs_find (fun p => String.eqb (snd p) i) Hs) as E.
  cbn in E. fold (byB i) in E. rewrite Hf in E. cbn in E.
  destruct (find (byB i) (Dict.values d')) as [r'|]; [|discriminate].
  exists r'. cbn in E. split; congruence.
Qed.

Lemma recordKey_pair r r' : pair_of r = pair_of r' -> recordKey r = recordKey r'.
Proof. unfold pair_of, recordKey. intros H. inversion H. congruence. Qed.

(** Advancing the record of one task leaves the record found for
    another. *)
Lemma find_byA_advanced_other taskA v d i :
  i <> id taskA ->
  find (byA i) (Dict.values (advanced taskA v d)) = find (byA i) (Dict.values d).
Proof.
  intros Hne. unfold advanced.
  induction d as [|[k r] d IH]; cbn; [reflexivity|].
  destruct (byA (id taskA) r) eqn:Hr; cbn.
  - unfold byA in *. cbn. apply String.eqb_eq in Hr. rewrite Hr.
    destruct (String.eqb_spec (id taskA) i); [congruence | reflexivity].
  - destruct (byA i r); [reflexivity | exact IH].
Qed.

Lemma find_unique_A d r r' i :
  NoDup (idsA d) -> find (byA i) (Dict.values d) = Some r ->
  In r' (Dict.values d) -> accountAId r' = i -> r' = r.
Proof.
  intros Hnd Hf Hin Hi. apply find_some in Hf. destruct Hf as [Hin0 Hp].
  unfold byA in Hp. apply String.eqb_eq in Hp.
  eapply NoDup_map_inj; eauto. congruence.
Qed.

Lemma find_unique_B d r r' i :
  NoDup (idsB d) -> find (byB i) (Dict.values d) = Some r ->
  In r' (Dict.values d) -> accountBId r' = i -> r' = r.
Proof.
  intros Hnd Hf Hin Hi. apply find_some in Hf. destruct Hf as [Hin0 Hp].
  unfold byB in Hp. apply String.eqb_eq in Hp.
  eapply NoDup_map_inj; eauto. congruence.
Qed.

Lemma find_byB_exists d r :
  In r (Dict.values d) ->
  exists r', find (byB (accountBId r)) (Dict.values d) = Some r'.
Proof.
  intros Hin.
  destruct (find (byB (accountBId r)) (Dict.values d)) as [r'|] eqn:Hf;
    [eauto|].
  apply (find_none _ _ Hf) in Hin. unfold byB in Hin.
  rewrite String.eqb_refl in Hin. discriminate.
Qed.

(** On converged stores the first loop makes no call, leaves the world
    alone, changes at most [lastSyncedUpdate] fields, and marks the pair
    of every task of A. *)
Lemma converged_loopA SA SB P0 s :
  converged SA SB (ledger s) ->
  exists P s',
    loopA host taskListA taskListB (snapshot_map SB) P0 SA s = (Ok P, s')
    /\ world s' = world s /\ calls s' = calls s
    /\ same_pairs (ledger s) (ledger s')
    /\ (forall a r, In a SA -> find (byA (id a)) (Dict.values (ledger s)) = Some r ->
                    StrSet.has (recordKey r) P = true).
Proof.
  intros (HndA & HndB & [Hua Hub] & HA & HB).
  destruct (@loopA_invariant World host taskListA taskListB (snapshot_map SB)
              (fun done P1 s1 =>
                 world s1 = world s /\ calls s1 = calls s
                 /\ same_pairs (ledger s) (ledger s1)
                 /\ (forall a, In a SA -> ~ In (id a) (map id done) ->
                       find (byA (id a)) (Dict.values (ledger s1))
                       = find (byA (id a)) (Dict.values (ledger s)))
                 /\ (forall a r, In a done ->
                       find (byA (id a)) (Dict.values (ledger s)) = Some r ->
                       StrSet.has (recordKey r) P1 = true))
              SA [] P0 s) as (P & s' & Hrun & Hw & Hc & Hsp & _ & Hmark).
  - repeat split; auto; try reflexivity; try (intros a r []).
  - intros done a rest P1 s1 P2 s2 Heq (Hw1 & Hc1 & Hsp1 & Hrest1 & Hmark1)
           _ Hstep.
    cbn [app] in Heq.
    assert (Hin : In a SA) by (rewrite Heq; apply in_or_app; right; left; auto).
    assert (Hnew : ~ In (id a) (map id done)).
    { rewrite Heq, map_app in HndA. cbn in HndA.
      apply NoDup_remove_2 in HndA. intros Hd. apply HndA.
      apply in_or_app. auto. }
    destruct (HA a Hin) as (r & b & Hfind & Hb & Hbid & Hquiet).
    assert (Hget : Dict.get (accountBId r) (snapshot_map SB) = Some b)
      by (rewrite <- Hbid; apply snapshot_map_unique; auto).
    unfold stepA in Hstep. rewrite (Hrest1 a Hin Hnew), Hfind, Hget in Hstep.
    destruct Hstep as [HP2 Hdir].
    assert (Hstay : world s2 = world s1 /\ calls s2 = calls s1
                    /\ (ledger s2 = ledger s1
                        \/ exists v, ledger s2 = advanced a v (ledger s1))).
    { destruct (direction host a b r) as [dst|] eqn:Hd.
      - destruct Hquiet as [Heq'|Hnone]; [|congruence].
        unfold copied in Hdir. rewrite Heq' in Hdir.
        destruct Hdir as (? & ? & ?). eauto.
      - destruct Hdir as (? & ? & ?). auto. }
    destruct Hstay as (Hw2 & Hc2 & Hl2).
    repeat split; try congruence.
    + destruct Hl2 as [->|[v ->]]; [exact Hsp1|].
      now apply same_pairs_advanced.
    + intros a' Hin' Hnew'. rewrite map_app in Hnew'. cbn in Hnew'.
      assert (Hne : id a' <> id a).
      { intros E. apply Hnew'. apply in_or_app. right. left. auto. }
      assert (Hnd' : ~ In (id a') (map id done)).
      { intros Hd. apply Hnew'. apply in_or_app. auto. }
      destruct Hl2 as [->|[v ->]]; [auto|].
      rewrite find_byA_advanced_other by exact Hne. auto.
    + intros a' r' Hin' Hf'. subst P2. rewrite StrSet_has_add.
      apply in_app_or in Hin'. destruct Hin' as [Hin'|[<-|[]]].
      * rewrite (Hmark1 a' r' Hin' Hf'). apply orb_true_r.
      * rewrite Hfind in Hf'. inversion Hf'; subst.
        rewrite String.eqb_refl. reflexivity.
  - exists P, s'. repeat split; eauto.
Qed.

(** On converged stores the whole pass makes no call, leaves the world
    alone and keeps the pairs of the ledger. *)
Lemma converged_pass_is_silent SA SB s :
  converged SA SB (ledger s) ->
  exists s',
    reconcile host taskListA taskListB SA SB s = (Ok tt, s')
    /\ world s' = world s /\ calls s' = calls s
    /\ same_pairs (ledger s) (ledger s').
Proof.
  intros Hconv.
  destruct (@converged_loopA SA SB StrSet.empty s Hconv)
    as (P & s1 & HrunA & Hw1 & Hc1 & Hsp & Hmark).
  destruct Hconv as (HndA & HndB & [Hua Hub] & HA & HB).
  erewrite reconcile_loops by exact HrunA.
  destruct (@loopB_invariant World host taskListA taskListB P
              (fun _ s2 => s2 = s1) SB [] s1 eq_refl) as (s' & HrunB & ->).
  - intros done b rest s2 s3 Heq -> _ Hstep.
    cbn [app] in Heq.
    assert (Hin : In b SB) by (rewrite Heq; apply in_or_app; right; left; auto).
    destruct (HB b Hin) as (r & a & Hr & Hrb & Ha & Hra).
    destruct (@find_byB_exists (ledger s) r Hr) as [r0 Hf0].
    rewrite Hrb in Hf0.
    assert (r = r0) by (eapply find_unique_B; eauto). subst r0.
    destruct (@same_pairs_byB (id b) (ledger s) (ledger s1) r Hsp Hf0)
      as (r1 & Hf1 & Hp1).
    destruct (HA a Ha) as (ra & _ & Hfa & _).
    assert (r = ra) by (eapply find_unique_A; eauto). subst ra.
    unfold stepB in Hstep. rewrite Hf1 in Hstep.
    rewrite (@recordKey_pair r1 r Hp1), (Hmark a r Ha Hfa) in Hstep.
    exact Hstep.
  - exists s1. auto.
Qed.

End Converged.

(* ================================================================== *)
(** ** Pair keys

    The key of a pair is [idInA-idInB].  It names the pair as long as the
    A id holds no ["-"]; ids are also taken to be non-empty, since
    [updateTask] refuses an empty id. *)

Fixpoint no_dash (s : string) : bool :=
  match s with
  | EmptyString => true
  | String c s' => negb (Ascii.eqb c "-"%char) && no_dash s'
  end.

Definition plain (s : string) : Prop := s <> EmptyString /\ no_dash s = true.

Lemma pairKey_inj a b a' b' :
  no_dash a = true -> no_dash a' = true ->
  pairKey a b = pairKey a' b' -> a = a' /\ b = b'.
Proof.
  unfold pairKey. revert a'.
  induction a as [|c a IH]; intros [|c' a'] Ha Ha' H; cbn in *.
  - inversion H. auto.
  - inversion H; subst. rewrite Ascii.eqb_refl in Ha'. discriminate.
  - inversion H; subst. rewrite Ascii.eqb_refl in Ha. discriminate.
  - inversion H; subst.
    apply andb_true_iff in Ha, Ha'.
    destruct (IH a' (proj2 Ha) (proj2 Ha') H2) as [-> ->]. auto.
Qed.

Definition pairs (d : Dict.t SyncRecord) : list (string * string) :=
  map pair_of (Dict.values d).

Lemma pairs_In d i j :
  In (i, j) (pairs d) <->
  exists r, In r (Dict.values d) /\ accountAId r = i /\ accountBId r = j.
Proof.
  unfold pairs. rewrite in_map_iff. split.
  - intros (r & Hp & Hin). inversion Hp. eauto.
  - intros (r & Hin & <- & <-). exists r. auto.
Qed.

Lemma pairs_advanced taskA v d : pairs (advanced taskA v d) = pairs d.
Proof. unfold pairs, advanced. apply Dict_modify_first_map. reflexivity. Qed.

Lemma pairs_idsA d i j : In (i, j) (pairs d) -> In i (idsA d).
Proof.
  rewrite pairs_In. intros (r & Hin & <- & _). unfold idsA. now apply in_map.
Qed.

Lemma pairs_idsB d i j : In (i, j) (pairs d) -> In j (idsB d).
Proof.
  rewrite pairs_In. intros (r & Hin & _ & <-). unfold idsB. now apply in_map.
Qed.

Lemma pairs_unique_A d i j j' :
  NoDup (idsA d) -> In (i, j) (pairs d) -> In (i, j') (pairs d) -> j = j'.
Proof.
  rewrite !pairs_In. intros Hnd (r & Hr & Ha & Hb) (r' & Hr' & Ha' & Hb').
  assert (r = r') by (eapply NoDup_map_inj; eauto; congruence).
  congruence.
Qed.

Lemma pairs_unique_B d i i' j :
  NoDup (idsB d) -> In (i, j) (pairs d) -> In (i', j) (pairs d) -> i = i'.
Proof.
  rewrite !pairs_In. intros Hnd (r & Hr & Ha & Hb) (r' & Hr' & Ha' & Hb').
  assert (r = r') by (eapply NoDup_map_inj; eauto; congruence).
  congruence.
Qed.

Lemma find_byA_pairs d i r :
  find (byA i) (Dict.values d) = Some r -> In (i, accountBId r) (pairs d).
Proof.
  intros H. apply find_some in H. destruct H as [Hin Hp].
  unfold byA in Hp. apply String.eqb_eq in Hp.
  apply pairs_In. eauto.
Qed.

Lemma find_byB_pairs d j r :
  find (byB j) (Dict.values d) = Some r -> In (accountAId r, j) (pairs d).
Proof.
  intros H. apply find_some in H. destruct H as [Hin Hp].
  unfold byB in Hp. apply String.eqb_eq in Hp.
  apply pairs_In. eauto.
Qed.

Lemma pairs_find_byA d i j :
  In (i, j) (pairs d) -> NoDup (idsA d) ->
  exists r, find (byA i) (Dict.values d) = Some r /\ accountBId r = j.
Proof.
  intros Hin Hnd.
  destruct (find (byA i) (Dict.values d)) as [r|] eqn:Hf.
  - exists r. split; [reflexivity|].
    eapply pairs_unique_A; eauto. now apply find_byA_pairs.
  - exfalso. apply pairs_In in Hin. destruct Hin as (r & Hr & Ha & _).
    apply (find_none _ _ Hf) in Hr. unfold byA in Hr.
    rewrite Ha, String.eqb_refl in Hr. discriminate.
Qed.

Lemma pairs_find_byB d i j :
  In (i, j) (pairs d) -> NoDup (idsB d) ->
  exists r, find (byB j) (Dict.values d) = Some r /\ accountAId r = i.
Proof.
  intros Hin Hnd.
  destruct (find (byB j) (Dict.values d)) as [r|] eqn:Hf.
  - exists r. split; [reflexivity|].
    eapply pairs_unique_B; eauto. now apply find_byB_pairs.
  - exfalso. apply pairs_In in Hin. destruct Hin as (r & Hr & _ & Hb).
    apply (find_none _ _ Hf) in Hr. unfold byB in Hr.
    rewrite Hb, String.eqb_refl in Hr. discriminate.
Qed.

(** In a keyed ledger, deleting the key of a pair removes that pair and
    no other. *)
Lemma pairs_delete d i j i0 j0 :
  keyed d -> no_dash i = true -> no_dash i0 = true ->
  (In (i, j) (pairs (Dict.delete (pairKey i0 j0) d))
   <-> In (i, j) (pairs d) /\ (i, j) <> (i0, j0)).
Proof.
  intros Hk Hi Hi0. rewrite !pairs_In. split.
  - intros (r & Hin & Ha & Hb). apply Dict_values_In in Hin.
    destruct Hin as [k Hin]. apply Dict_delete_In in Hin.
    destruct Hin as [Hin Hne]. split.
    + exists r. split; [apply Dict_values_In; eauto | auto].
    + intros E. inversion E; subst. apply Hne. apply (Hk _ _ Hin).
  - intros [(r & Hin & Ha & Hb) Hne]. exists r. split; [|auto].
    apply Dict_values_In in Hin. destruct Hin as [k Hin].
    apply Dict_values_In. exists k. apply Dict_delete_In. split; [exact Hin|].
    rewrite (Hk _ _ Hin). unfold recordKey. rewrite Ha, Hb. intros E.
    apply pairKey_inj in E; auto. destruct E; subst. now apply Hne.
Qed.

Lemma find_filter_same {A} (p q : A -> bool) l :
  (forall x, In x l -> p x = true -> q x = true) ->
  find p (filter q l) = find p l.
Proof.
  induction l as [|a l IH]; intros H; cbn; [reflexivity|].
  destruct (p a) eqn:Hp.
  - rewrite (H a (or_introl eq_refl) Hp). cbn. now rewrite Hp.
  - destruct (q a); cbn; [rewrite Hp|]; apply IH; intros x Hx; apply H; now right.
Qed.

(** Deleting the key of one pair leaves the record found for another A
    id, and for another B id. *)
Lemma find_delete_other (q : SyncRecord -> bool) d i0 j0 :
  keyed d ->
  (forall r, In r (Dict.values d) -> q r = true ->
             recordKey r <> pairKey i0 j0) ->
  find q (Dict.values (Dict.delete (pairKey i0 j0) d)) = find q (Dict.values d).
Proof.
  intros Hk Hq. unfold Dict.delete, Dict.values.
  induction d as [|[k r] d IH]; cbn; [reflexivity|].
  assert (Hk' : keyed d) by (intros k' r' Hin; apply Hk; now right).
  assert (Hq' : forall r0, In r0 (Dict.values d) -> q r0 = true ->
                           recordKey r0 <> pairKey i0 j0).
  { intros r0 Hin. apply Hq. cbn. now right. }
  destruct (String.eqb_spec k (pairKey i0 j0)) as [E|Hne]; cbn.
  - destruct (q r) eqn:Hr; [|now apply IH].
    exfalso. apply (Hq r); [cbn; now left | exact Hr|].
    rewrite <- E. symmetry. apply Hk. now left.
  - destruct (q r); [reflexivity | now apply IH].
Qed.

Lemma pairs_app d k r : pairs (d ++ [(k, r)]) = pairs d ++ [pair_of r].
Proof. unfold pairs, Dict.values. now rewrite !map_app. Qed.

Lemma find_app_values (q : SyncRecord -> bool) d k r :
  find q (Dict.values (d ++ [(k, r)]))
  = match find q (Dict.values d) with
    | Some x => Some x
    | None => if q r then Some r else None
    end.
Proof. unfold Dict.values. rewrite map_app, find_app. reflexivity. Qed.

(** The key of a pair whose A id the ledger does not hold is new. *)
Lemma pairKey_fresh d i j :
  keyed d -> no_dash i = true ->
  (forall i', In i' (idsA d) -> no_dash i' = true) ->
  ~ In i (idsA d) ->
  Dict.get (pairKey i j) d = None.
Proof.
  intros Hk Hi Hplain Hnin. apply Dict_get_None. intros Hin.
  unfold Dict.keys in Hin. apply in_map_iff in Hin.
  destruct Hin as ([k r] & Hk' & Hin). cbn in Hk'. subst k.
  pose proof (Hk _ _ Hin) as E. unfold recordKey in E.
  assert (Hr : In (accountAId r) (idsA d)).
  { unfold idsA. apply in_map. apply Dict_values_In. eauto. }
  apply pairKey_inj in E; auto. destruct E as [E _].
  apply Hnin. now rewrite E.
Qed.

(* ================================================================== *)
(** ** Stores that keep what they are told

    What a second pass relies on.  [store acc w] is the content of the
    store of [acc] in the world [w]; in worlds that are [ok] an insert
    appends a task with the requested content, an update of a task that
    exists replaces its content, a delete of a task that exists removes
    it, and the other store is left alone.  The stores know the ids of
    their tasks, and the ids they know are plain. *)

Definition same_content (t : Task) (b : RequestBody) : Prop :=
  title t = rb_title b /\ notes t = rb_notes b
  /\ status t = rb_status b /\ due t = rb_due b.

Definition replace_task (i : string) (t : Task) (l : list Task) : list Task :=
  map (fun x => if String.eqb (id x) i then t else x) l.

Definition remove_task (i : string) (l : list Task) : list Task :=
  filter (fun x => negb (String.eqb (id x) i)) l.

Definition other (acc : Account) : Account :=
  match acc with AccountA => AccountB | AccountB => AccountA end.

Lemma replace_task_ids i t l :
  id t = i -> map id (replace_task i t l) = map id l.
Proof.
  intros Ht. unfold replace_task. rewrite map_map. apply map_ext.
  intros x. destruct (String.eqb_spec (id x) i); congruence.
Qed.

Lemma replace_task_In i t l x :
  In x (replace_task i t l) ->
  (x = t /\ In i (map id l)) \/ (In x l /\ id x <> i).
Proof.
  unfold replace_task. rewrite in_map_iff. intros (y & Hy & Hin).
  destruct (String.eqb_spec (id y) i) as [E|Hne].
  - left. split; [congruence|]. rewrite <- E. now apply in_map.
  - right. subst y. auto.
Qed.

Lemma replace_task_other i t l x :
  In x l -> id x <> i -> In x (replace_task i t l).
Proof.
  intros Hin Hne. unfold replace_task. apply in_map_iff. exists x.
  destruct (String.eqb_spec (id x) i); [contradiction | auto].
Qed.

Lemma replace_task_new i t l :
  In i (map id l) -> In t (replace_task i t l).
Proof.
  intros Hin. apply in_map_iff in Hin. destruct Hin as (x & Hx & Hin).
  unfold replace_task. apply in_map_iff. exists x.
  rewrite Hx, String.eqb_refl. auto.
Qed.

Lemma remove_task_In i l x :
  In x (remove_task i l) <-> In x l /\ id x <> i.
Proof.
  unfold remove_task. rewrite filter_In, negb_true_iff, String.eqb_neq.
  tauto.
Qed.

Lemma remove_task_ids i l j :
  In j (map id (remove_task i l)) <-> In j (map id l) /\ j <> i.
Proof.
  rewrite !in_map_iff. split.
  - intros (x & <- & Hin). apply remove_task_In in Hin.
    split; [exists x|]; tauto.
  - intros [(x & <- & Hin) Hne]. exists x. rewrite remove_task_In. auto.
Qed.

Section Reliable.

Context {World : Type}.
Variable host : Host World.
Variable known : Account -> World -> string -> Prop.
Variable store : Account -> World -> list Task.
Variable ok : World -> Prop.

Record Reliable : Prop := {
  rel_insert : forall acc l b w, ok w ->
    exists t w',
      tasks_insert host acc l b w = (Ok t, w') /\ ok w'
      /\ same_content t b
      /\ store acc w' = store acc w ++ [t]
      /\ store (other acc) w' = store (other acc) w;
  rel_update : forall acc l i b w, ok w -> In i (map id (store acc w)) ->
    exists t w',
      tasks_update host acc l i b w = (Ok t, w') /\ ok w'
      /\ id t = i /\ same_content t b
      /\ store acc w' = replace_task i t (store acc w)
      /\ store (other acc) w' = store (other acc) w;
  rel_delete : forall acc l i w, ok w -> In i (map id (store acc w)) ->
    exists w',
      tasks_delete host acc l i w = (Ok tt, w') /\ ok w'
      /\ store acc w' = remove_task i (store acc w)
      /\ store (other acc) w' = store (other acc) w;
  rel_known : forall acc w x, ok w -> In x (store acc w) -> known acc w (id x);
  rel_unique : forall acc w, ok w -> NoDup (map id (store acc w));
  rel_plain : forall acc w i, ok w -> known acc w i -> plain i
}.

End Reliable.

(* ================================================================== *)
(** ** The first pass converges

    The invariant of a pass over reliable stores.  [restA] and [restB]
    are the snapshot tasks the loops have not reached yet.  Every task of
    a store is either still to come, untouched, or belongs to a settled
    pair; the processed keys are keys of settled pairs. *)

Section Convergence.

Context {World : Type}.
Variable host : Host World.
Variable known : Account -> World -> string -> Prop.
Variable store : Account -> World -> list Task.
Variable ok : World -> Prop.
Variables taskListA taskListB : TaskList.t.
Hypothesis fresh : FreshIds host known.
Hypothesis reliable : Reliable host known store ok.

Definition SA (s : Env World) : list Task := store AccountA (world s).
Definition SB (s : Env World) : list Task := store AccountB (world s).

Definition pairedA (restB : list Task) (P : StrSet.t) (s : Env World)
    (x : Task) : Prop :=
  exists r y,
    find (byA (id x)) (Dict.values (ledger s)) = Some r
    /\ In y (SB s) /\ id y = accountBId r /\ quiet host x y r
    /\ (StrSet.has (recordKey r) P = true \/ ~ In (id y) (map id restB)).

Record Inv (restA restB : list Task) (P : StrSet.t) (s : Env World) : Prop := {
  inv_ok : ok (world s);
  inv_keyed : keyed (ledger s);
  inv_sound : sound known s;
  inv_restA : NoDup (map id restA);
  inv_restB : NoDup (map id restB);
  inv_pendingA : forall a, In a restA -> In a (SA s);
  inv_pendingB : forall b, In b restB ->
    In b (SB s)
    \/ exists i, In (i, id b) (pairs (ledger s))
                 /\ StrSet.has (pairKey i (id b)) P = true;
  inv_A : forall x, In x (SA s) -> In x restA \/ pairedA restB P s x;
  inv_B : forall y, In y (SB s) ->
    In y restB
    \/ exists i, In i (map id (SA s)) /\ In (i, id y) (pairs (ledger s))
                 /\ ~ In i (map id restA);
  inv_live : forall k, StrSet.has k P = true ->
    exists i j, In i (map id (SA s)) /\ In j (map id (SB s))
                /\ k = pairKey i j /\ In (i, j) (pairs (ledger s))
                /\ ~ In i (map id restA)
}.

Lemma ledger_plain_A s i :
  ok (world s) -> sound known s -> In i (idsA (ledger s)) -> no_dash i = true.
Proof.
  intros Hok (_ & Hka & _) Hin.
  apply (rel_plain reliable AccountA (world s)); auto.
Qed.

Lemma store_plain acc w x : ok w -> In x (store acc w) -> plain (id x).
Proof.
  intros Hok Hin. apply (rel_plain reliable acc w); auto.
  apply (rel_known reliable); auto.
Qed.

Lemma recordKey_of_find_A d i r :
  find (byA i) (Dict.values d) = Some r ->
  recordKey r = pairKey i (accountBId r).
Proof.
  intros H. apply find_some in H. destruct H as [_ Hp].
  unfold byA in Hp. apply String.eqb_eq in Hp. unfold recordKey. now rewrite Hp.
Qed.

Lemma recordKey_of_find_B d j r :
  find (byB j) (Dict.values d) = Some r ->
  recordKey r = pairKey (accountAId r) j.
Proof.
  intros H. apply find_some in H. destruct H as [_ Hp].
  unfold byB in Hp. apply String.eqb_eq in Hp. unfold recordKey. now rewrite Hp.
Qed.

Lemma replace_task_self l x :
  NoDup (map id l) -> In x l -> replace_task (id x) x l = l.
Proof.
  intros Hnd Hin. unfold replace_task.
  rewrite <- (map_id l) at 2. apply map_ext_in. intros y Hy.
  destruct (String.eqb_spec (id y) (id x)) as [E|_]; [|reflexivity].
  eapply NoDup_map_inj; eauto.
Qed.

(** The pair key of a pending task of A is not marked as processed. *)
Lemma pending_not_processed a restA restB P s j :
  Inv (a :: restA) restB P s ->
  In (id a, j) (pairs (ledger s)) ->
  StrSet.has (pairKey (id a) j) P = false.
Proof.
  intros HI Hpair.
  destruct (StrSet.has (pairKey (id a) j) P) eqn:Hhas; [exfalso | reflexivity].
  destruct (inv_live HI _ Hhas) as (i' & j' & Hi' & _ & Hk & Hp' & Hnot).
  apply pairKey_inj in Hk.
  - destruct Hk as [<- _]. apply Hnot. cbn. now left.
  - eapply ledger_plain_A; [apply HI | apply HI | eapply pairs_idsA; eauto].
  - eapply ledger_plain_A; [apply HI | apply HI | eapply pairs_idsA; eauto].
Qed.

(** The B partner of a pending task of A is still as the snapshot has
    it. *)
Lemma partner_untouched a restA restB P s r b :
  Inv (a :: restA) restB P s ->
  find (byA (id a)) (Dict.values (ledger s)) = Some r ->
  In b restB -> id b = accountBId r ->
  In b (SB s).
Proof.
  intros HI Hfind Hb Hbid.
  destruct (inv_pendingB HI _ Hb) as [Hin|(i & Hpair & Hhas)]; [exact Hin|].
  exfalso.
  assert (Hp : In (id a, id b) (pairs (ledger s)))
    by (rewrite Hbid; now apply find_byA_pairs).
  assert (i = id a).
  { eapply pairs_unique_B; eauto. apply (inv_sound HI). }
  subst i.
  rewrite (@pending_not_processed a restA restB P s (id b) HI Hp) in Hhas.
  discriminate.
Qed.

(** A tracked pair whose two tasks exist has been processed: whatever
    was written, the pair is settled and marked. *)
Lemma Inv_sync a b r a' b' r' restA restB P s s' :
  Inv (a :: restA) restB P s ->
  find (byA (id a)) (Dict.values (ledger s)) = Some r ->
  In b restB -> id b = accountBId r ->
  ok (world s') -> keyed (ledger s') -> sound known s' ->
  SA s' = replace_task (id a) a' (SA s) -> id a' = id a ->
  SB s' = replace_task (id b) b' (SB s) -> id b' = id b ->
  pairs (ledger s') = pairs (ledger s) ->
  (forall i, i <> id a ->
     find (byA i) (Dict.values (ledger s'))
     = find (byA i) (Dict.values (ledger s))) ->
  find (byA (id a)) (Dict.values (ledger s')) = Some r' ->
  pair_of r' = pair_of r ->
  quiet host a' b' r' ->
  Inv restA restB (StrSet.add (recordKey r) P) s'.
Proof.
  intros HI Hfind Hb Hbid Hok' Hkeyed' Hsound' HSA Hida HSB Hidb Hpairs
         Hframe Hfind' Hpr Hquiet.
  assert (HbSB : In b (SB s)) by (eapply partner_untouched; eauto).
  assert (HaSA : In a (SA s)) by (apply (inv_pendingA HI); now left).
  destruct (inv_sound HI) as [[HuA HuB] _].
  pose proof (inv_restA HI) as HndA. cbn in HndA.
  inversion HndA as [|? ? Hnota HndA']; subst.
  assert (Hkey : recordKey r = pairKey (id a) (id b))
    by (rewrite Hbid; eapply recordKey_of_find_A; eauto).
  assert (Hpair : In (id a, id b) (pairs (ledger s)))
    by (rewrite Hbid; now apply find_byA_pairs).
  assert (HidsA : map id (SA s') = map id (SA s))
    by (rewrite HSA; now apply replace_task_ids).
  assert (HidsB : map id (SB s') = map id (SB s))
    by (rewrite HSB; now apply replace_task_ids).
  constructor; auto.
  - apply (inv_restB HI).
  - intros a0 Ha0. rewrite HSA. apply replace_task_other.
    + apply (inv_pendingA HI). now right.
    + intros E. apply Hnota. rewrite <- E. now apply in_map.
  - intros b0 Hb0. destruct (String.eqb_spec (id b0) (id b)) as [E|Hne].
    + right. exists (id a). rewrite E, Hpairs. split; [exact Hpair|].
      rewrite StrSet_has_add, Hkey, String.eqb_refl. reflexivity.
    + destruct (inv_pendingB HI _ Hb0) as [Hin|(i & Hp & Hh)].
      * left. rewrite HSB. now apply replace_task_other.
      * right. exists i. rewrite Hpairs. split; [exact Hp|].
        rewrite StrSet_has_add, Hh. apply orb_true_r.
  - intros x Hx. rewrite HSA in Hx. apply replace_task_In in Hx.
    destruct Hx as [[-> _]|[Hx Hne]].
    + right. exists r', b'. rewrite Hida.
      split; [exact Hfind'|].
      split; [rewrite HSB; apply replace_task_new; now apply in_map|].
      split; [unfold pair_of in Hpr; congruence|].
      split; [exact Hquiet|].
      left. rewrite (@recordKey_pair r' r Hpr), StrSet_has_add, String.eqb_refl.
      reflexivity.
    + destruct (inv_A HI _ Hx) as [[->|Hin]|(rx & y & Hfx & Hy & Hyid & Hq & Ho)].
      * contradiction.
      * left. exact Hin.
      * right. exists rx, y. rewrite Hframe by exact Hne.
        split; [exact Hfx|].
        split.
        { rewrite HSB. apply replace_task_other; [exact Hy|].
          intros E. apply Hne.
          apply (@pairs_unique_B (ledger s) (id x) (id a) (id b) HuB);
            [|exact Hpair].
          rewrite <- E, Hyid. now apply find_byA_pairs. }
        split; [exact Hyid|]. split; [exact Hq|].
        destruct Ho as [Hh|Hn]; [left | right; exact Hn].
        rewrite StrSet_has_add, Hh. apply orb_true_r.
  - intros y Hy. rewrite HSB in Hy. apply replace_task_In in Hy.
    destruct Hy as [[-> _]|[Hy Hne]].
    + right. exists (id a). rewrite HidsA, Hpairs, Hidb.
      split; [now apply in_map|]. split; [exact Hpair | exact Hnota].
    + destruct (inv_B HI _ Hy) as [Hin|(i & Hi & Hp & Hn)];
        [left; exact Hin|].
      right. exists i. rewrite HidsA, Hpairs. split; [exact Hi|].
      split; [exact Hp|]. intros Hc. apply Hn. cbn. now right.
  - intros k Hk. rewrite StrSet_has_add in Hk. apply orb_true_iff in Hk.
    destruct Hk as [Hk|Hk].
    + apply String.eqb_eq in Hk. subst k. exists (id a), (id b).
      rewrite HidsA, HidsB, Hpairs.
      split; [now apply in_map|]. split; [now apply in_map|]. auto.
    + destruct (inv_live HI _ Hk) as (i & j & Hi & Hj & Hkk & Hp & Hn).
      exists i, j. rewrite HidsA, HidsB, Hpairs.
      repeat split; auto. intros Hc. apply Hn. cbn. now right.
Qed.

Lemma Inv_synced a b r a' b' restA restB P s s' :
  Inv (a :: restA) restB P s ->
  find (byA (id a)) (Dict.values (ledger s)) = Some r ->
  In b restB -> id b = accountBId r ->
  ok (world s') -> keyed (ledger s') -> sound known s' ->
  SA s' = replace_task (id a) a' (SA s) -> id a' = id a ->
  SB s' = replace_task (id b) b' (SB s) -> id b' = id b ->
  (ledger s' = ledger s /\ direction host a' b' r = None)
  \/ (exists v, ledger s' = advanced a v (ledger s)
                /\ tasksAreEqual a' b' = true) ->
  Inv restA restB (StrSet.add (recordKey r) P) s'.
Proof.
  intros HI Hfind Hb Hbid Hok' Hkeyed' Hsound' HSA Hida HSB Hidb
         [[Hl Hdir]|(v & Hl & Heq)].
  - eapply (@Inv_sync a b r a' b' r); eauto.
    + now rewrite Hl.
    + intros i _. now rewrite Hl.
    + now rewrite Hl.
    + now right.
  - eapply (@Inv_sync a b r a' b' (setLastSyncedUpdate v r)); eauto.
    + rewrite Hl. apply pairs_advanced.
    + intros i Hne. rewrite Hl. now apply find_byA_advanced_other.
    + rewrite Hl. unfold advanced. now apply Dict_modify_first_find.
    + now left.
Qed.

(** Reliable stores settle every call at its first attempt. *)
Lemma update_settles acc l i b w r w' :
  ok w -> In i (map id (store acc w)) ->
  outcome host (tasks_update host acc l i b) w = (r, w') ->
  exists t, r = Ok t /\ ok w' /\ id t = i /\ same_content t b
            /\ store acc w' = replace_task i t (store acc w)
            /\ store (other acc) w' = store (other acc) w.
Proof.
  intros Hok Hin Hout.
  destruct (rel_update reliable acc l i b w Hok Hin)
    as (t & w1 & Hu & Hok1 & Hid & Hsame & Hst & Hoth).
  rewrite (outcome_first_ok host _ _ Hu) in Hout.
  assert (r = Ok t) by congruence. assert (w' = w1) by congruence. subst.
  exists t. split; [reflexivity|]. tauto.
Qed.

Lemma insert_settles acc l b w r w' :
  ok w ->
  outcome host (tasks_insert host acc l b) w = (r, w') ->
  exists t, r = Ok t /\ ok w' /\ same_content t b
            /\ store acc w' = store acc w ++ [t]
            /\ store (other acc) w' = store (other acc) w.
Proof.
  intros Hok Hout.
  destruct (rel_insert reliable acc l b w Hok)
    as (t & w1 & Hu & Hok1 & Hsame & Hst & Hoth).
  rewrite (outcome_first_ok host _ _ Hu) in Hout.
  assert (r = Ok t) by congruence. assert (w' = w1) by congruence. subst.
  exists t. split; [reflexivity|]. tauto.
Qed.

Lemma delete_settles acc l i w r w' :
  ok w -> In i (map id (store acc w)) ->
  outcome host (tasks_delete host acc l i) w = (r, w') ->
  ok w' /\ store acc w' = remove_task i (store acc w)
  /\ store (other acc) w' = store (other acc) w.
Proof.
  intros Hok Hin Hout.
  destruct (rel_delete reliable acc l i w Hok Hin)
    as (w1 & Hu & Hok1 & Hst & Hoth).
  rewrite (outcome_first_ok host _ _ Hu) in Hout.
  assert (w' = w1) by congruence. subst. auto.
Qed.

Lemma option_eqb_refl x : option_eqb x x = true.
Proof. destruct x; cbn; [apply String.eqb_refl | reflexivity]. Qed.

(** A task written from another one equals it for [tasksAreEqual]. *)
Lemma written_equal_r t x i :
  same_content t (body_of i x) -> tasksAreEqual x t = true.
Proof.
  intros (Ht & Hn & Hs & Hd). cbn in Ht, Hn, Hs, Hd. unfold tasksAreEqual.
  rewrite Ht, Hn, Hs, Hd, !String.eqb_refl, !option_eqb_refl. reflexivity.
Qed.

Lemma written_equal_l t x i :
  same_content t (body_of i x) -> tasksAreEqual t x = true.
Proof.
  intros (Ht & Hn & Hs & Hd). cbn in Ht, Hn, Hs, Hd. unfold tasksAreEqual.
  rewrite Ht, Hn, Hs, Hd, !String.eqb_refl, !option_eqb_refl. reflexivity.
Qed.

(** A tracked task of A whose partner is gone has been deleted. *)
Lemma Inv_deleteA a r restA restB P s s' :
  Inv (a :: restA) restB P s ->
  find (byA (id a)) (Dict.values (ledger s)) = Some r ->
  ok (world s') -> keyed (ledger s') -> sound known s' ->
  SA s' = remove_task (id a) (SA s) -> SB s' = SB s ->
  ledger s' = Dict.delete (recordKey r) (ledger s) ->
  Inv restA restB P s'.
Proof.
  intros HI Hfind Hok' Hkeyed' Hsound' HSA HSB Hl.
  pose proof (inv_restA HI) as HndA. cbn in HndA.
  inversion HndA as [|? ? Hnota HndA']; subst.
  pose proof (inv_keyed HI) as Hkeyed. pose proof (inv_ok HI) as Hok.
  pose proof (inv_sound HI) as Hsound.
  assert (Hkey : recordKey r = pairKey (id a) (accountBId r))
    by (eapply recordKey_of_find_A; eauto).
  rewrite Hkey in Hl.
  assert (Hpa : no_dash (id a) = true).
  { apply (@store_plain AccountA (world s) a); [exact Hok|].
    apply (inv_pendingA HI). now left. }
  assert (Hkeep : forall i j, In (i, j) (pairs (ledger s)) -> i <> id a ->
                              In (i, j) (pairs (ledger s'))).
  { intros i j Hp Hne. rewrite Hl. apply pairs_delete; auto.
    - eapply ledger_plain_A; eauto. eapply pairs_idsA; eauto.
    - split; [exact Hp|]. intros E. inversion E. contradiction. }
  assert (Hfind' : forall x, id x <> id a -> In x (SA s) ->
            find (byA (id x)) (Dict.values (ledger s'))
            = find (byA (id x)) (Dict.values (ledger s))).
  { intros x Hne Hx. rewrite Hl. apply find_delete_other; [exact Hkeyed|].
    intros r0 Hr0 Hq E. unfold byA in Hq. apply String.eqb_eq in Hq.
    unfold recordKey in E. rewrite Hq in E.
    apply pairKey_inj in E; [destruct E; contradiction | | exact Hpa].
    apply (@store_plain AccountA (world s) x); auto. }
  constructor; auto.
  - apply (inv_restB HI).
  - intros a0 Ha0. rewrite HSA. apply remove_task_In.
    split; [apply (inv_pendingA HI); now right|].
    intros E. apply Hnota. rewrite <- E. now apply in_map.
  - intros b0 Hb0. destruct (inv_pendingB HI _ Hb0) as [Hin|(i & Hp & Hh)].
    + left. now rewrite HSB.
    + right. exists i. split; [|exact Hh]. apply Hkeep; [exact Hp|].
      intros ->.
      rewrite (@pending_not_processed a restA restB P s (id b0) HI Hp) in Hh.
      discriminate.
  - intros x Hx. rewrite HSA in Hx. apply remove_task_In in Hx.
    destruct Hx as [Hx Hne].
    destruct (inv_A HI _ Hx) as [[->|Hin]|(rx & y & Hfx & Hy & Hyid & Hq & Ho)].
    + contradiction.
    + now left.
    + right. exists rx, y. rewrite Hfind' by auto. rewrite HSB. auto.
  - intros y Hy. rewrite HSB in Hy.
    destruct (inv_B HI _ Hy) as [Hin|(i & Hi & Hp & Hn)]; [now left|].
    right. exists i.
    assert (Hne : i <> id a) by (intros ->; apply Hn; cbn; now left).
    split; [rewrite HSA; apply remove_task_ids; auto|].
    split; [now apply Hkeep|]. intros Hc. apply Hn. cbn. now right.
  - intros k Hk.
    destruct (inv_live HI _ Hk) as (i & j & Hi & Hj & Hkk & Hp & Hn).
    exists i, j.
    assert (Hne : i <> id a) by (intros ->; apply Hn; cbn; now left).
    rewrite HSA, HSB. split; [apply remove_task_ids; auto|].
    split; [exact Hj|]. split; [exact Hkk|]. split; [now apply Hkeep|].
    intros Hc. apply Hn. cbn. now right.
Qed.

(** An untracked task of A has been created in B and paired. *)
Lemma Inv_createB a t restA restB P s s' :
  Inv (a :: restA) restB P s ->
  find (byA (id a)) (Dict.values (ledger s)) = None ->
  ok (world s') -> keyed (ledger s') -> sound known s' ->
  SA s' = SA s -> SB s' = SB s ++ [t] ->
  tasksAreEqual a t = true ->
  ledger s' = Dict.set (pairKey (id a) (id t)) (new_record_A a t) (ledger s) ->
  Inv restA restB (StrSet.add (pairKey (id a) (id t)) P) s'.
Proof.
  intros HI Hfind Hok' Hkeyed' Hsound' HSA HSB Heq Hl.
  pose proof (inv_restA HI) as HndA. cbn in HndA.
  inversion HndA as [|? ? Hnota HndA']; subst.
  pose proof (inv_keyed HI) as Hkeyed. pose proof (inv_ok HI) as Hok.
  pose proof (inv_sound HI) as Hsound.
  assert (HaSA : In a (SA s)) by (apply (inv_pendingA HI); now left).
  assert (Hpa : no_dash (id a) = true)
    by (apply (@store_plain AccountA (world s) a); auto).
  assert (Hl' : ledger s'
                = ledger s ++ [(pairKey (id a) (id t), new_record_A a t)]).
  { rewrite Hl. apply Dict_set_fresh. apply pairKey_fresh; auto.
    - intros i' Hi'. eapply ledger_plain_A; eauto.
    - now apply find_byA_none_ids. }
  assert (Hpairs : pairs (ledger s') = pairs (ledger s) ++ [(id a, id t)])
    by (rewrite Hl'; apply pairs_app).
  assert (Hfa : find (byA (id a)) (Dict.values (ledger s'))
                = Some (new_record_A a t)).
  { rewrite Hl', find_app_values, Hfind. unfold byA. cbn.
    now rewrite String.eqb_refl. }
  assert (Hfo : forall x r, find (byA x) (Dict.values (ledger s)) = Some r ->
                            find (byA x) (Dict.values (ledger s')) = Some r).
  { intros x r Hf. now rewrite Hl', find_app_values, Hf. }
  constructor; auto.
  - apply (inv_restB HI).
  - intros a0 Ha0. rewrite HSA. apply (inv_pendingA HI). now right.
  - intros b0 Hb0. destruct (inv_pendingB HI _ Hb0) as [Hin|(i & Hp & Hh)].
    + left. rewrite HSB. apply in_or_app. now left.
    + right. exists i. rewrite Hpairs. split; [apply in_or_app; now left|].
      rewrite StrSet_has_add, Hh. apply orb_true_r.
  - intros x Hx. rewrite HSA in Hx.
    destruct (inv_A HI _ Hx) as [[<-|Hin]|(rx & y & Hfx & Hy & Hyid & Hq & Ho)].
    + right. exists (new_record_A a t), t. split; [exact Hfa|].
      split; [rewrite HSB; apply in_or_app; right; now left|].
      split; [reflexivity|]. split; [now left|]. left.
      unfold recordKey. cbn. rewrite StrSet_has_add, String.eqb_refl.
      reflexivity.
    + now left.
    + right. exists rx, y. split; [now apply Hfo|].
      split; [rewrite HSB; apply in_or_app; now left|].
      split; [exact Hyid|]. split; [exact Hq|].
      destruct Ho as [Hh|Hn]; [left | right; exact Hn].
      rewrite StrSet_has_add, Hh. apply orb_true_r.
  - intros y Hy. rewrite HSB in Hy. apply in_app_or in Hy.
    destruct Hy as [Hy|[<-|[]]].
    + destruct (inv_B HI _ Hy) as [Hin|(i & Hi & Hp & Hn)]; [now left|].
      right. exists i. rewrite HSA, Hpairs. split; [exact Hi|].
      split; [apply in_or_app; now left|].
      intros Hc. apply Hn. cbn. now right.
    + right. exists (id a). rewrite HSA, Hpairs. split; [now apply in_map|].
      split; [apply in_or_app; right; now left | exact Hnota].
  - intros k Hk. rewrite StrSet_has_add in Hk. apply orb_true_iff in Hk.
    destruct Hk as [Hk|Hk].
    + apply String.eqb_eq in Hk. subst k. exists (id a), (id t).
      rewrite HSA, HSB, Hpairs, map_app. split; [now apply in_map|].
      split; [apply in_or_app; right; cbn; now left|].
      split; [reflexivity|].
      split; [apply in_or_app; right; now left | exact Hnota].
    + destruct (inv_live HI _ Hk) as (i & j & Hi & Hj & Hkk & Hp & Hn).
      exists i, j. rewrite HSA, HSB, Hpairs, map_app. split; [exact Hi|].
      split; [apply in_or_app; now left|]. split; [exact Hkk|].
      split; [apply in_or_app; now left|].
      intros Hc. apply Hn. cbn. now right.
Qed.

(** One iteration of the first loop keeps the invariant. *)
Lemma stepA_Inv a restA restB P s P' s' :
  Inv (a :: restA) restB P s ->
  stepA host taskListA taskListB (snapshot_map restB) P a s P' s' ->
  Inv restA restB P' s'.
Proof.
  intros HI Hstep.
  pose proof (inv_ok HI) as Hok.
  assert (HaSA : In a (SA s)) by (apply (inv_pendingA HI); now left).
  assert (Hkeyed' : keyed (ledger s'))
    by (eapply stepA_keyed; [apply HI | exact Hstep]).
  assert (Hsound' : sound known s').
  { eapply stepA_sound; [exact fresh | apply HI | | exact Hstep].
    apply (rel_known reliable); auto. }
  assert (HuSA : NoDup (map id (SA s))) by (apply (rel_unique reliable), Hok).
  assert (HuSB : NoDup (map id (SB s))) by (apply (rel_unique reliable), Hok).
  unfold stepA in Hstep.
  destruct (find (byA (id a)) (Dict.values (ledger s))) as [r|] eqn:Hfind.
  - destruct (Dict.get (accountBId r) (snapshot_map restB)) as [b|] eqn:Hget.
    + apply snapshot_map_get in Hget. destruct Hget as [Hbid Hb].
      assert (HbSB : In b (SB s)) by (eapply partner_untouched; eauto).
      assert (HselfA : SA s = replace_task (id a) a (SA s))
        by (symmetry; now apply replace_task_self).
      assert (HselfB : SB s = replace_task (id b) b (SB s))
        by (symmetry; now apply replace_task_self).
      destruct Hstep as [-> Hdir].
      destruct (direction host a b r) as [dst|] eqn:Hd.
      * unfold copied in Hdir. destruct (tasksAreEqual a b) eqn:Heq.
        { destruct Hdir as (Hw & _ & Hl).
          apply (@Inv_synced a b r a b restA restB P s s'); auto.
          - now rewrite Hw.
          - unfold SA. rewrite Hw. exact HselfA.
          - unfold SB. rewrite Hw. exact HselfB.
          - right. eauto. }
        destruct (String.eqb_spec (id (target dst a b)) EmptyString) as [E|Hne].
        { exfalso. destruct dst; cbn in E.
          - now destruct (@store_plain AccountA (world s) a Hok HaSA).
          - now destruct (@store_plain AccountB (world s) b Hok HbSB). }
        destruct Hdir as (_ & r0 & Hout & Hl).
        unfold update_request in Hout.
        destruct dst; cbn [target source list_of] in Hout, Hl.
        -- destruct (@update_settles AccountA _ _ _ _ _ _ Hok
                       (in_map id _ _ HaSA) Hout)
             as (t & -> & Hok' & Hid & Hsame & Hst & Hoth).
           cbn [other] in Hoth.
           apply (@Inv_synced a b r t b restA restB P s s'); auto.
           ++ unfold SB. rewrite Hoth. exact HselfB.
           ++ right. exists (updated b). split; [exact Hl|].
              eapply written_equal_l; eauto.
        -- destruct (@update_settles AccountB _ _ _ _ _ _ Hok
                       (in_map id _ _ HbSB) Hout)
             as (t & -> & Hok' & Hid & Hsame & Hst & Hoth).
           cbn [other] in Hoth.
           apply (@Inv_synced a b r a t restA restB P s s'); auto.
           ++ unfold SA. rewrite Hoth. exact HselfA.
           ++ right. exists (updated a). split; [exact Hl|].
              eapply written_equal_r; eauto.
      * destruct Hdir as (Hw & _ & Hl).
        apply (@Inv_synced a b r a b restA restB P s s'); auto.
        -- now rewrite Hw.
        -- unfold SA. rewrite Hw. exact HselfA.
        -- unfold SB. rewrite Hw. exact HselfB.
    + destruct Hstep as (-> & _ & (r0 & Hout) & Hl).
      destruct (@delete_settles AccountA _ _ _ _ _ Hok (in_map id _ _ HaSA) Hout)
        as (Hok' & Hst & Hoth).
      eapply Inv_deleteA; eauto.
  - destruct Hstep as (_ & r0 & Hout & Hres).
    destruct (@insert_settles AccountB _ _ _ _ _ Hok Hout)
      as (t & -> & Hok' & Hsame & Hst & Hoth).
    destruct Hres as [Hl ->].
    eapply Inv_createB; eauto.
    eapply written_equal_r; eauto.
Qed.

Lemma pairedA_tail b restB P s x :
  pairedA (b :: restB) P s x -> pairedA restB P s x.
Proof.
  intros (r & y & Hf & Hy & Hyid & Hq & Ho). exists r, y.
  repeat (split; [assumption|]).
  destruct Ho as [Hh|Hn]; [now left | right].
  intros Hc. apply Hn. cbn. now right.
Qed.

(** A task of B whose pair the first loop has marked is left alone. *)
Lemma Inv_skipB b r restB P s :
  Inv [] (b :: restB) P s ->
  find (byB (id b)) (Dict.values (ledger s)) = Some r ->
  StrSet.has (recordKey r) P = true ->
  Inv [] restB P s.
Proof.
  intros HI Hfind Hhas.
  pose proof (inv_restB HI) as HndB. cbn in HndB.
  inversion HndB as [|? ? Hnotb HndB']; subst.
  constructor;
    [apply HI | apply HI | apply HI | apply HI | exact HndB' | intros a []
    | | | | apply (inv_live HI)].
  - intros b0 Hb0. apply (inv_pendingB HI). now right.
  - intros x Hx. destruct (inv_A HI _ Hx) as [[]|Hp].
    right. eapply pairedA_tail; eauto.
  - intros y Hy. destruct (inv_B HI _ Hy) as [[<-|Hin]|Hr];
      [| now left | now right].
    right.
    destruct (inv_live HI _ Hhas) as (i & j & Hi & _ & Hk & Hp & _).
    rewrite (recordKey_of_find_B _ _ Hfind) in Hk.
    apply pairKey_inj in Hk.
    + destruct Hk as [<- <-]. exists (accountAId r). auto.
    + eapply ledger_plain_A; [apply HI | apply HI |].
      eapply pairs_idsA. eapply find_byB_pairs; eauto.
    + eapply ledger_plain_A; [apply HI | apply HI |].
      eapply pairs_idsA; eauto.
Qed.

(** A pending task of B whose pair is not marked is still in the store. *)
Lemma pendingB_present b r restB P s :
  Inv [] (b :: restB) P s ->
  find (byB (id b)) (Dict.values (ledger s)) = Some r ->
  StrSet.has (recordKey r) P = false ->
  In b (SB s).
Proof.
  intros HI Hfind Hhas.
  destruct (inv_pendingB HI b) as [Hin|(i & Hp & Hh)];
    [now left | exact Hin | exfalso].
  destruct (inv_sound HI) as [[HuA HuB] _].
  assert (i = accountAId r).
  { eapply pairs_unique_B; eauto. eapply find_byB_pairs; eauto. }
  subst i. rewrite <- (recordKey_of_find_B _ _ Hfind), Hhas in Hh.
  discriminate.
Qed.

(** A tracked task of B whose pair the first loop has not marked has
    been deleted. *)
Lemma Inv_deleteB b r restB P s s' :
  Inv [] (b :: restB) P s ->
  find (byB (id b)) (Dict.values (ledger s)) = Some r ->
  StrSet.has (recordKey r) P = false ->
  ok (world s') -> keyed (ledger s') -> sound known s' ->
  SA s' = SA s -> SB s' = remove_task (id b) (SB s) ->
  ledger s' = Dict.delete (recordKey r) (ledger s) ->
  Inv [] restB P s'.
Proof.
  intros HI Hfind Hhas Hok' Hkeyed' Hsound' HSA HSB Hl.
  pose proof (inv_restB HI) as HndB. cbn in HndB.
  inversion HndB as [|? ? Hnotb HndB']; subst.
  pose proof (inv_keyed HI) as Hkeyed. pose proof (inv_ok HI) as Hok.
  pose proof (inv_sound HI) as Hsound.
  destruct (inv_sound HI) as [[HuA HuB] _].
  assert (Hkey : recordKey r = pairKey (accountAId r) (id b))
    by (eapply recordKey_of_find_B; eauto).
  assert (Hpr : In (accountAId r, id b) (pairs (ledger s)))
    by (eapply find_byB_pairs; eauto).
  assert (Hplain : forall i j, In (i, j) (pairs (ledger s)) ->
                               no_dash i = true).
  { intros i j Hp. eapply ledger_plain_A; eauto. eapply pairs_idsA; eauto. }
  rewrite Hkey in Hl.
  assert (Hkeep : forall i j, In (i, j) (pairs (ledger s)) -> j <> id b ->
                              In (i, j) (pairs (ledger s'))).
  { intros i j Hp Hne. rewrite Hl. apply pairs_delete; eauto.
    split; [exact Hp|]. intros E. inversion E. contradiction. }
  assert (Hfind' : forall i rx,
            find (byA i) (Dict.values (ledger s)) = Some rx ->
            accountBId rx <> id b ->
            find (byA i) (Dict.values (ledger s')) = Some rx).
  { intros i rx Hf Hne. rewrite Hl, find_delete_other; auto.
    intros r0 Hr0 Hq E. unfold byA in Hq. apply String.eqb_eq in Hq.
    assert (Hp0 : In (accountAId r0, accountBId r0) (pairs (ledger s)))
      by (apply pairs_In; eauto).
    unfold recordKey in E. apply pairKey_inj in E; eauto.
    destruct E as [E1 E2]. apply Hne.
    apply (@pairs_unique_A (ledger s) i (accountBId rx) (id b) HuA).
    - now apply find_byA_pairs.
    - rewrite <- Hq, <- E2. exact Hp0. }
  assert (Hmarked : forall i, In (i, id b) (pairs (ledger s)) ->
                              StrSet.has (pairKey i (id b)) P = false).
  { intros i Hp.
    assert (i = accountAId r) by (eapply pairs_unique_B; eauto).
    subst i. now rewrite <- Hkey. }
  constructor; auto.
  - apply (inv_restA HI).
  - intros a [].
  - intros b0 Hb0.
    assert (Hne : id b0 <> id b).
    { intros E. apply Hnotb. rewrite <- E. now apply in_map. }
    destruct (inv_pendingB HI b0) as [Hin|(i & Hp & Hh)]; [now right| |].
    + left. rewrite HSB. apply remove_task_In. auto.
    + right. exists i. auto.
  - intros x Hx. rewrite HSA in Hx.
    destruct (inv_A HI _ Hx) as [[]|(rx & y & Hfx & Hy & Hyid & Hq & Ho)].
    right.
    assert (Hne : id y <> id b).
    { destruct Ho as [Hh|Hn].
      - intros E.
        assert (Hpx : In (id x, id b) (pairs (ledger s)))
          by (rewrite <- E, Hyid; now apply find_byA_pairs).
        rewrite (recordKey_of_find_A _ _ Hfx), <- Hyid, E in Hh.
        rewrite (Hmarked _ Hpx) in Hh. discriminate.
      - intros E. apply Hn. cbn. now left. }
    exists rx, y. split; [apply Hfind'; [exact Hfx | congruence]|].
    split; [rewrite HSB; apply remove_task_In; auto|].
    split; [exact Hyid|]. split; [exact Hq|].
    destruct Ho as [Hh|Hn]; [now left | right].
    intros Hc. apply Hn. cbn. now right.
  - intros y Hy. rewrite HSB in Hy. apply remove_task_In in Hy.
    destruct Hy as [Hy Hne].
    destruct (inv_B HI _ Hy) as [[<-|Hin]|(i & Hi & Hp & Hn)];
      [contradiction | now left | right].
    exists i. rewrite HSA. auto.
  - intros k Hk.
    destruct (inv_live HI _ Hk) as (i & j & Hi & Hj & Hkk & Hp & Hn).
    exists i, j.
    assert (Hne : j <> id b).
    { intros ->. subst k. rewrite (Hmarked _ Hp) in Hk. discriminate. }
    rewrite HSA, HSB. split; [exact Hi|].
    split; [apply remove_task_ids; auto|]. auto.
Qed.

(** An untracked task of B has been created in A and paired. *)
Lemma Inv_createA b t restB P s s' :
  Inv [] (b :: restB) P s ->
  find (byB (id b)) (Dict.values (ledger s)) = None ->
  ok (world s') -> keyed (ledger s') -> sound known s' ->
  SA s' = SA s ++ [t] -> SB s' = SB s ->
  ~ In (id t) (idsA (ledger s)) ->
  tasksAreEqual t b = true ->
  ledger s' = Dict.set (pairKey (id t) (id b)) (new_record_B t b) (ledger s) ->
  Inv [] restB P s'.
Proof.
  intros HI Hfind Hok' Hkeyed' Hsound' HSA HSB Hnew Heq Hl.
  pose proof (inv_restB HI) as HndB. cbn in HndB.
  inversion HndB as [|? ? Hnotb HndB']; subst.
  pose proof (inv_keyed HI) as Hkeyed. pose proof (inv_ok HI) as Hok.
  pose proof (inv_sound HI) as Hsound.
  assert (HtSA : In t (SA s')).
  { rewrite HSA. apply in_or_app. right. now left. }
  assert (Hpt : no_dash (id t) = true)
    by (apply (@store_plain AccountA (world s') t); auto).
  assert (HbSB : In b (SB s)).
  { destruct (inv_pendingB HI b) as [Hin|(i & Hp & _)];
      [now left | exact Hin | exfalso].
    apply (find_byB_none_ids _ _ Hfind). eapply pairs_idsB; eauto. }
  assert (Hl' : ledger s'
                = ledger s ++ [(pairKey (id t) (id b), new_record_B t b)]).
  { rewrite Hl. apply Dict_set_fresh. apply pairKey_fresh; auto.
    intros i' Hi'. eapply ledger_plain_A; eauto. }
  assert (Hpairs : pairs (ledger s') = pairs (ledger s) ++ [(id t, id b)])
    by (rewrite Hl'; apply pairs_app).
  assert (Hfa : find (byA (id t)) (Dict.values (ledger s'))
                = Some (new_record_B t b)).
  { rewrite Hl', find_app_values.
    destruct (find (byA (id t)) (Dict.values (ledger s))) as [r0|] eqn:Hf0.
    - exfalso. apply Hnew. eapply pairs_idsA. eapply find_byA_pairs; eauto.
    - unfold byA. cbn. now rewrite String.eqb_refl. }
  assert (Hfo : forall x r, find (byA x) (Dict.values (ledger s)) = Some r ->
                            find (byA x) (Dict.values (ledger s')) = Some r).
  { intros x r Hf. now rewrite Hl', find_app_values, Hf. }
  constructor; auto.
  - apply (inv_restA HI).
  - intros a [].
  - intros b0 Hb0. destruct (inv_pendingB HI b0) as [Hin|(i & Hp & Hh)];
      [now right | |].
    + left. now rewrite HSB.
    + right. exists i. rewrite Hpairs. split; [apply in_or_app; now left|].
      exact Hh.
  - intros x Hx. rewrite HSA in Hx. apply in_app_or in Hx.
    destruct Hx as [Hx|[<-|[]]].
    + destruct (inv_A HI _ Hx) as [[]|(rx & y & Hfx & Hy & Hyid & Hq & Ho)].
      right. exists rx, y. split; [now apply Hfo|].
      split; [now rewrite HSB|]. split; [exact Hyid|]. split; [exact Hq|].
      destruct Ho as [Hh|Hn]; [now left | right].
      intros Hc. apply Hn. cbn. now right.
    + right. exists (new_record_B t b), b. split; [exact Hfa|].
      split; [now rewrite HSB|]. split; [reflexivity|].
      split; [now left|]. now right.
  - intros y Hy. rewrite HSB in Hy.
    destruct (inv_B HI _ Hy) as [[<-|Hin]|(i & Hi & Hp & Hn)].
    + right. exists (id t). rewrite Hpairs. split; [now apply in_map|].
      split; [apply in_or_app; right; now left | auto].
    + now left.
    + right. exists i. rewrite HSA, Hpairs, map_app.
      split; [apply in_or_app; now left|].
      split; [apply in_or_app; now left | auto].
  - intros k Hk.
    destruct (inv_live HI _ Hk) as (i & j & Hi & Hj & Hkk & Hp & Hn).
    exists i, j. rewrite HSA, HSB, Hpairs, map_app.
    split; [apply in_or_app; now left|]. split; [exact Hj|].
    split; [exact Hkk|]. split; [apply in_or_app; now left | auto].
Qed.

(** One iteration of the second loop keeps the invariant. *)
Lemma stepB_Inv b restB P s s' :
  Inv [] (b :: restB) P s ->
  stepB host taskListA taskListB P b s s' ->
  Inv [] restB P s'.
Proof.
  intros HI Hstep.
  pose proof (inv_ok HI) as Hok.
  pose proof (inv_sound HI) as Hsound.
  assert (Hkb : known AccountB (world s) (id b)).
  { destruct (inv_pendingB HI b) as [Hin|(i & Hp & _)]; [now left | |].
    - apply (rel_known reliable); auto.
    - destruct Hsound as (_ & _ & HkB). apply HkB. eapply pairs_idsB; eauto. }
  assert (Hkeyed' : keyed (ledger s'))
    by (eapply stepB_keyed; [apply HI | exact Hstep]).
  assert (Hsound' : sound known s')
    by (eapply stepB_sound; [exact fresh | apply HI | exact Hkb | exact Hstep]).
  unfold stepB in Hstep.
  destruct (find (byB (id b)) (Dict.values (ledger s))) as [r|] eqn:Hfind.
  - destruct (StrSet.has (recordKey r) P) eqn:Hhas.
    + subst s'. eapply Inv_skipB; eauto.
    + destruct Hstep as (_ & (r0 & Hout) & Hl).
      pose proof (pendingB_present HI Hfind Hhas) as HbSB.
      destruct (@delete_settles AccountB _ _ _ _ _ Hok (in_map id _ _ HbSB) Hout)
        as (Hok' & Hst & Hoth).
      eapply Inv_deleteB; eauto.
  - destruct Hstep as (_ & r0 & Hout & Hres).
    destruct (@insert_settles AccountA _ _ _ _ _ Hok Hout)
      as (t & -> & Hok' & Hsame & Hst & Hoth).
    destruct (outcome_insert_fresh fresh _ _ _ _ Hout) as [Hnew _].
    eapply Inv_createA; eauto.
    + intros Hin. apply Hnew. destruct Hsound as (_ & HkA & _). auto.
    + eapply written_equal_l; eauto.
Qed.

Lemma loopA_Inv restA restB :
  forall P s,
    Inv restA restB P s ->
    exists P' s',
      loopA host taskListA taskListB (snapshot_map restB) P restA s = (Ok P', s')
      /\ Inv [] restB P' s'.
Proof.
  induction restA as [|a restA IH]; intros P s HI.
  - exists P, s. split; [reflexivity | exact HI].
  - destruct (processTaskA_spec host taskListA taskListB (snapshot_map restB)
                P a s) as (P1 & s1 & Hrun & _ & Hstep).
    erewrite loopA_cons by exact Hrun.
    apply IH. eapply stepA_Inv; eauto.
Qed.

Lemma loopB_Inv P restB :
  forall s,
    Inv [] restB P s ->
    exists s',
      loopB host taskListA taskListB P restB s = (Ok tt, s')
      /\ Inv [] [] P s'.
Proof.
  induction restB as [|b restB IH]; intros s HI.
  - exists s. split; [reflexivity | exact HI].
  - destruct (processTaskB_spec host taskListA taskListB P b s)
      as (s1 & Hrun & _ & Hstep).
    erewrite loopB_cons by exact Hrun.
    apply IH. eapply stepB_Inv; eauto.
Qed.

(** Before the pass every task is pending. *)
Lemma Inv_start s :
  ok (world s) -> keyed (ledger s) -> sound known s ->
  Inv (SA s) (SB s) StrSet.empty s.
Proof.
  intros Hok Hkeyed Hsound. constructor; auto.
  - apply (rel_unique reliable), Hok.
  - apply (rel_unique reliable), Hok.
  - intros k Hk. discriminate Hk.
Qed.

(** After the pass the stores and the ledger are converged. *)
Lemma Inv_converged P s :
  Inv [] [] P s -> converged host (SA s) (SB s) (ledger s).
Proof.
  intros HI. pose proof (inv_ok HI) as Hok.
  destruct (inv_sound HI) as [Hu _].
  split; [apply (rel_unique reliable), Hok|].
  split; [apply (rel_unique reliable), Hok|].
  split; [exact Hu|]. split.
  - intros a Ha.
    destruct (inv_A HI _ Ha) as [[]|(r & y & Hf & Hy & Hyid & Hq & _)].
    exists r, y. auto.
  - intros b Hb. destruct (inv_B HI _ Hb) as [[]|(i & Hi & Hp & _)].
    apply pairs_In in Hp. destruct Hp as (r & Hr & HrA & HrB).
    apply in_map_iff in Hi. destruct Hi as (a & Hida & Ha).
    exists r, a. split; [exact Hr|]. split; [exact HrB|].
    split; [exact Ha | congruence].
Qed.


End Convergence.

(* ================================================================== *)
(** ** The reference host keeps what it is told

    With an empty fault queue the reference host is reliable: its worlds
    are [Ideal_ok] when no fault is queued, no store holds an id twice,
    and every id in a store is plain and older than the counter. *)

Lemma no_dash_uint d : no_dash (NilEmpty.string_of_uint d) = true.
Proof. induction d; cbn; auto. Qed.

Lemma nat_str_no_dash n : no_dash (nat_str n) = true.
Proof.
  unfold nat_str, NilZero.string_of_uint.
  destruct (Nat.to_uint n) eqn:E; try reflexivity; rewrite <- E;
    apply no_dash_uint.
Qed.

Lemma NoDup_map_filter {A B} (f : A -> B) (p : A -> bool) l :
  NoDup (map f l) -> NoDup (map f (filter p l)).
Proof.
  induction l as [|x l IH]; cbn; [auto|]. intros H.
  inversion H as [|? ? Hnin Hnd]; subst.
  destruct (p x); cbn; [constructor|]; auto.
  intros Hin. apply Hnin. apply in_map_iff in Hin.
  destruct Hin as (y & Hy & Hin). apply filter_In in Hin.
  apply in_map_iff. exists y. tauto.
Qed.

Lemma find_by_id i (l : list Task) :
  In i (map id l) ->
  exists old, find (fun t => String.eqb (id t) i) l = Some old.
Proof.
  intros Hin. apply in_map_iff in Hin. destruct Hin as (x & Hx & Hin).
  destruct (find (fun t => String.eqb (id t) i) l) as [old|] eqn:Hf;
    [eauto|].
  apply (find_none _ _ Hf) in Hin. cbn in Hin.
  rewrite Hx, String.eqb_refl in Hin. discriminate.
Qed.

Definition Ideal_plain (acc : Account) (w : Ideal.World) (i : string) : Prop :=
  Ideal_known acc w i /\ plain i.

Definition Ideal_ok (w : Ideal.World) : Prop :=
  Ideal.faults w = []
  /\ (forall acc, NoDup (map id (Ideal.store acc w)))
  /\ (forall acc x, In x (Ideal.store acc w) -> Ideal_plain acc w (id x)).

Lemma Ideal_plain_fresh : FreshIds Ideal.host Ideal_plain.
Proof.
  constructor.
  - intros acc l b w r w' acc' i H [Hk Hp]. split; [|exact Hp].
    eapply (insert_keeps Ideal_fresh); eauto.
  - intros acc l i0 b w r w' acc' i H [Hk Hp]. split; [|exact Hp].
    eapply (update_keeps Ideal_fresh); eauto.
  - intros acc l i0 w r w' acc' i H [Hk Hp]. split; [|exact Hp].
    eapply (delete_keeps Ideal_fresh); eauto.
  - intros acc l b w t w' H.
    destruct (insert_fresh Ideal_fresh _ _ _ _ H) as [Hnew Hold].
    split; [intros [Hk _]; auto|]. split; [exact Hold|].
    cbn [tasks_insert Ideal.host] in H.
    unfold Ideal.insert, Ideal.guarded, Ideal.pop_fault in H.
    destruct (Ideal.faults w) as [|[e|] rest]; cbn in H;
      inversion H; subst; cbn;
      (split; [discriminate | cbn; apply nat_str_no_dash]).
Qed.

Lemma Ideal_guarded_ok T (f : Ideal.World -> Result T * Ideal.World) w :
  Ideal.faults w = [] -> Ideal.guarded f w = f w.
Proof.
  intros Hf. unfold Ideal.guarded, Ideal.pop_fault. rewrite Hf. reflexivity.
Qed.

Lemma Ideal_known_later acc acc' w w' i :
  (Ideal.nextId w <= Ideal.nextId w')%nat ->
  Ideal_known acc w i -> Ideal_known acc' w' i.
Proof. intros Hle Hk n Hn. apply Hk. lia. Qed.

(** A world that differs from an [Ideal_ok] one in the store of [acc]. *)
Lemma Ideal_ok_with acc l w w' :
  Ideal_ok w ->
  Ideal.faults w' = [] ->
  (Ideal.nextId w <= Ideal.nextId w')%nat ->
  Ideal.store acc w' = l ->
  Ideal.store (other acc) w' = Ideal.store (other acc) w ->
  NoDup (map id l) ->
  (forall x, In x l -> Ideal_plain acc w' (id x)) ->
  Ideal_ok w'.
Proof.
  intros (Hf & Hnd & Hkn) Hf' Hle Hst Hoth Hndl Hknl.
  split; [exact Hf'|]. split.
  - intros acc'. destruct acc, acc'; cbn [other] in *;
      rewrite ?Hst, ?Hoth; auto.
  - intros acc' x Hx.
    assert (Hold : forall a, In x (Ideal.store a w) -> Ideal_plain acc' w' (id x)).
    { intros a Ha. destruct (Hkn a x Ha) as [Hk Hp]. split; [|exact Hp].
      eapply Ideal_known_later; eauto. }
    destruct acc, acc'; cbn [other] in *; rewrite ?Hst, ?Hoth in Hx;
      eauto.
Qed.

Lemma Ideal_reliable : Reliable Ideal.host Ideal_plain Ideal.store Ideal_ok.
Proof.
  constructor.
  - intros acc l b w Hok. pose proof Hok as (Hf & Hnd & Hkn).
    cbn [tasks_insert Ideal.host]. unfold Ideal.insert.
    rewrite Ideal_guarded_ok by exact Hf.
    eexists _, _. split; [reflexivity|].
    set (t := Ideal.written ("t" +++ nat_str (Ideal.nextId w)) b None w).
    assert (Hst : Ideal.store acc
                    (Ideal.tick (Ideal.with_store acc (Ideal.store acc w ++ [t]) w))
                  = Ideal.store acc w ++ [t]) by (destruct acc; reflexivity).
    assert (Hoth : Ideal.store (other acc)
                     (Ideal.tick (Ideal.with_store acc (Ideal.store acc w ++ [t]) w))
                   = Ideal.store (other acc) w) by (destruct acc; reflexivity).
    split; [|split; [repeat split | split; [exact Hst | exact Hoth]]].
    apply (@Ideal_ok_with acc (Ideal.store acc w ++ [t]) w _ Hok);
      [exact Hf | | exact Hst | exact Hoth | | ].
    + destruct acc; cbn; lia.
    + rewrite map_app. apply NoDup_app; [apply Hnd | repeat constructor; cbn; tauto |].
      intros i Hi [<-|[]]. apply in_map_iff in Hi.
      destruct Hi as (x & Hx & Hin). destruct (Hkn acc x Hin) as [Hk _].
      apply (Hk (Ideal.nextId w)); [lia | exact Hx].
    + intros x Hx. apply in_app_or in Hx. destruct Hx as [Hx|[<-|[]]].
      * destruct (Hkn acc x Hx) as [Hk Hp]. split; [|exact Hp].
        eapply Ideal_known_later; [|exact Hk]. destruct acc; cbn; lia.
      * split.
        -- intros n Hn E. cbn in E. inversion E as [E'].
           apply nat_str_inj in E'. destruct acc; cbn in Hn; lia.
        -- split; [discriminate | cbn; apply nat_str_no_dash].
  - intros acc l i b w Hok Hin. pose proof Hok as (Hf & Hnd & Hkn).
    cbn [tasks_update Ideal.host]. unfold Ideal.update.
    rewrite Ideal_guarded_ok by exact Hf.
    destruct (find_by_id _ _ Hin) as [old Hold]. rewrite Hold.
    eexists _, _. split; [reflexivity|].
    set (t := Ideal.written i b (Some old) w).
    fold (replace_task i t (Ideal.store acc w)).
    assert (Hst : Ideal.store acc
                    (Ideal.tick (Ideal.with_store acc
                                   (replace_task i t (Ideal.store acc w)) w))
                  = replace_task i t (Ideal.store acc w))
      by (destruct acc; reflexivity).
    assert (Hoth : Ideal.store (other acc)
                     (Ideal.tick (Ideal.with_store acc
                                    (replace_task i t (Ideal.store acc w)) w))
                   = Ideal.store (other acc) w) by (destruct acc; reflexivity).
    split; [|split; [reflexivity
                    | split; [repeat split | split; [exact Hst | exact Hoth]]]].
    apply (@Ideal_ok_with acc (replace_task i t (Ideal.store acc w)) w _ Hok);
      [exact Hf | | exact Hst | exact Hoth | | ].
    + destruct acc; cbn; lia.
    + rewrite replace_task_ids by reflexivity. apply Hnd.
    + intros x Hx.
      assert (Hi : Ideal_plain acc w (id x)).
      { apply replace_task_In in Hx. destruct Hx as [[-> Hi]|[Hx _]].
        - apply in_map_iff in Hi. destruct Hi as (y & Hy & Hi).
          cbn. rewrite <- Hy. now apply Hkn.
        - now apply Hkn. }
      destruct Hi as [Hk Hp]. split; [|exact Hp].
      eapply Ideal_known_later; [|exact Hk]. destruct acc; cbn; lia.
  - intros acc l i w Hok Hin. pose proof Hok as (Hf & Hnd & Hkn).
    cbn [tasks_delete Ideal.host]. unfold Ideal.delete.
    rewrite Ideal_guarded_ok by exact Hf.
    assert (Hhas : Ideal.has_id i (Ideal.store acc w) = true).
    { unfold Ideal.has_id. apply existsb_exists. apply in_map_iff in Hin.
      destruct Hin as (x & Hx & Hin). exists x. split; [exact Hin|].
      now rewrite Hx, String.eqb_refl. }
    rewrite Hhas. eexists. split; [reflexivity|].
    fold (remove_task i (Ideal.store acc w)).
    assert (Hst : Ideal.store acc
                    (Ideal.with_store acc (remove_task i (Ideal.store acc w)) w)
                  = remove_task i (Ideal.store acc w))
      by (destruct acc; reflexivity).
    assert (Hoth : Ideal.store (other acc)
                     (Ideal.with_store acc (remove_task i (Ideal.store acc w)) w)
                   = Ideal.store (other acc) w) by (destruct acc; reflexivity).
    split; [|split; [exact Hst | exact Hoth]].
    apply (@Ideal_ok_with acc (remove_task i (Ideal.store acc w)) w _ Hok);
      [exact Hf | | exact Hst | exact Hoth | | ].
    + destruct acc; cbn; lia.
    + apply NoDup_map_filter, Hnd.
    + intros x Hx. apply remove_task_In in Hx. destruct Hx as [Hx _].
      destruct (Hkn acc x Hx) as [Hk Hp]. split; [|exact Hp].
      eapply Ideal_known_later; [|exact Hk]. destruct acc; cbn; lia.
  - intros acc w x (_ & _ & Hkn) Hx. now apply Hkn.
  - intros acc w (_ & Hnd & _). apply Hnd.
  - intros acc w i _ [_ Hp]. exact Hp.
Qed.


(** On the same lists the second pass is silent, yet it still moves the
    [lastSyncedUpdate] of the pairs the first pass wrote: the store has
    stamped the written tasks with a later [updated], and the second pass
    finds them modified but equal. *)
Example second_pass_advances_timestamps :
  let tasksA := [Ideal.task "a1" "Buy oat milk" None "needsAction" t2;
                 Ideal.task "a2" "Call mum" None "needsAction" t1;
                 Ideal.task "a3" "Old chore" None "completed" t0] in
  let tasksB := [Ideal.task "b1" "Buy milk" None "needsAction" t1;
                 Ideal.task "b2" "Water plants" None "needsAction" t1] in
  let ledger0 := [("a1-b1", pair_record);
                  ("a3-b3", {| accountAId := "a3"; accountBId := "b3";
                               lastSyncedUpdate := t0 |})] in
  let s1 := snd (reconcile Ideal.host L L tasksA tasksB
                   (Ideal.env tasksA tasksB ledger0)) in
  let s2 := snd (reconcile Ideal.host L L
                   (Ideal.store AccountA (world s1))
                   (Ideal.store AccountB (world s1)) s1) in
  length (calls s1) = 4%nat
  /\ calls s2 = calls s1
  /\ world s2 = world s1
  /\ map lastSyncedUpdate (Dict.values (ledger s1)) = [t2; t1; t1]
  /\ map lastSyncedUpdate (Dict.values (ledger s2))
     = ["2025-01-01T00:00:00.000Z"; "2025-01-01T00:00:01.000Z";
        "2025-01-01T00:00:02.000Z"].
Proof. vm_compute. repeat split. Qed.


(* ================================================================== *)
(** * The rest of the program

    What follows covers the code around the reconciliation: the retry
    wrapper for any operation, the error paths of the loop bodies, the
    pass as a whole, the pagination of [getAllTasks], the choice of the
    task lists, and the loading and saving of the state file. *)

(* ================================================================== *)
(** ** More on [retryWithBackoff] (lines 54-84) *)

Section RetryMore.

Context {World : Type}.
Variable host : Host World.

Lemma retryLoop_attempt T (op : M World T) name retries :
  forall n attempt s,
    (attempt + n = retries)%nat ->
    exists s0, op s0 = retryLoop host (S n) op name retries attempt s.
Proof.
  induction n as [|n IH]; intros attempt s Hn; cbn [retryLoop];
    unfold try_catch; destruct (op s) as [[v|e] s1] eqn:Hop.
  - exists s. exact Hop.
  - assert (Hlt : (attempt <? retries)%nat = false) by (apply Nat.ltb_ge; lia).
    rewrite Hlt, andb_false_r, andb_false_l. exists s. exact Hop.
  - exists s. exact Hop.
  - destruct (isRateLimitError e && (attempt <? retries)%nat).
    + unfold bind at 1 2. unfold log at 1. unfold sleep at 1. cbn [fst snd].
      apply IH. lia.
    + destruct ((attempt <? retries)%nat && isServerError host e).
      * unfold bind at 1 2. unfold log at 1. unfold sleep at 1. cbn [fst snd].
        apply IH. lia.
      * exists s. exact Hop.
Qed.

(** X1. Whatever [retryWithBackoff] answers is the answer of one attempt
    of the operation, value or error, together with the state that
    attempt left: the closing [throw new Error(`Failed after ...`)] is
    never reached, and after the last attempt nothing more is logged or
    slept. *)
Theorem retryWithBackoff_answers_an_attempt T (op : M World T) name retries s :
  exists s0, op s0 = retryWithBackoff host op name retries s.
Proof.
  unfold retryWithBackoff. apply retryLoop_attempt. reflexivity.
Qed.

Lemma firstn_cons_length {A} (x : A) l l' :
  l = firstn (length l) l' -> x :: l = firstn (length (x :: l)) (x :: l').
Proof. intros H. cbn. now rewrite <- H. Qed.

Lemma retryLoop_trace T (f : World -> Result T * World) name retries :
  forall n attempt s,
    (attempt + n = retries)%nat ->
    let s' := snd (retryLoop host (S n) (request f) name retries attempt s) in
    exists ds msgs,
      sleeps s' = sleeps s ++ ds
      /\ console s' = console s ++ map (pair ErrorLevel) msgs
      /\ length msgs = length ds
      /\ ds = firstn (length ds) (schedule n attempt).
Proof.
  induction n as [|n IH]; intros attempt s Hn; cbn zeta;
    destruct (f (world s)) as [[v|e] w'] eqn:Hf.
  - erewrite retryLoop_ok by (unfold request; rewrite Hf; reflexivity).
    exists [], []. cbn. rewrite !app_nil_r. auto.
  - erewrite retryLoop_throw;
      [| unfold request; rewrite Hf; reflexivity | left; lia].
    exists [], []. cbn. rewrite !app_nil_r. auto.
  - erewrite retryLoop_ok by (unfold request; rewrite Hf; reflexivity).
    exists [], []. cbn. rewrite !app_nil_r. auto.
  - destruct (isTransient host e) eqn:Htr.
    + destruct (@retryLoop_again World host T (request f) name retries (S n)
                  attempt s e
                  {| world := w'; syncState := syncState s;
                     console := console s; sleeps := sleeps s;
                     calls := calls s |}) as [msg Hmsg];
        [unfold request; rewrite Hf; reflexivity | lia | exact Htr |].
      rewrite Hmsg.
      destruct (IH (attempt + 1)%nat
                  (backed_off {| world := w'; syncState := syncState s;
                                 console := console s; sleeps := sleeps s;
                                 calls := calls s |} msg
                              (INITIAL_DELAY_MS * 2 ^ Z.of_nat attempt)))
        as (ds & msgs & Hs & Hc & Hlen & Hpre); [lia|].
      cbn [backed_off sleeps console] in Hs, Hc.
      exists (INITIAL_DELAY_MS * 2 ^ Z.of_nat attempt :: ds), (msg :: msgs).
      rewrite Hs, Hc, <- !app_assoc. cbn [app map length].
      repeat split; auto.
      cbn [schedule]. apply firstn_cons_length.
      replace (S attempt) with (attempt + 1)%nat by lia. exact Hpre.
    + erewrite retryLoop_throw;
        [| unfold request; rewrite Hf; reflexivity | right; exact Htr].
      exists [], []. cbn. rewrite !app_nil_r. auto.
Qed.

(** X2. One call through [retryWithBackoff] sleeps the first few of the
    delays 1000, 2000, 4000, 8000, 16000 ms and nothing else, so it
    never waits more than 31 seconds in all, and it prints exactly one
    error line per delay. *)
Theorem retryWithBackoff_waits_at_most_31s T (f : World -> Result T * World)
    name s :
  let s' := snd (retryWithBackoff host (request f) name MAX_RETRIES s) in
  exists ds msgs,
    sleeps s' = sleeps s ++ ds
    /\ ds = firstn (length ds) [1000; 2000; 4000; 8000; 16000]
    /\ fold_right Z.add 0 ds <= 31000
    /\ console s' = console s ++ map (pair ErrorLevel) msgs
    /\ length msgs = length ds.
Proof.
  cbn zeta. unfold retryWithBackoff.
  destruct (@retryLoop_trace T f name MAX_RETRIES MAX_RETRIES 0%nat s eq_refl)
    as (ds & msgs & Hs & Hc & Hlen & Hpre).
  exists ds, msgs. change (schedule MAX_RETRIES 0) with
    [1000; 2000; 4000; 8000; 16000] in Hpre.
  repeat split; auto.
  rewrite Hpre.
  destruct (length ds) as [|[|[|[|[|[|k]]]]]]; cbn; lia.
Qed.

End RetryMore.

(* ================================================================== *)
(** ** The error paths of the loop bodies (lines 304-404 and 407-440) *)

Section StepErrors.

Context {World : Type}.
Variable host : Host World.
Variables taskListA taskListB : TaskList.t.

Lemma copyOnto_missing_id dst taskA taskB syncRecord announce s :
  tasksAreEqual taskA taskB = false ->
  id (target dst taskA taskB) = EmptyString ->
  copyOnto host dst taskListA taskListB taskA taskB syncRecord announce s
  = (Ok tt,
     {| world := world s; syncState := syncState s;
        console := console s
                   ++ [(ErrorLevel,
                        "Failed to update task in " +++ account_letter dst
                        +++ ". Code: undefined Message: "
                        +++ "Cannot update task: taskId is missing")];
        sleeps := sleeps s; calls := calls s |}).
Proof.
  intros Heq Hid. unfold copyOnto.
  fold (target dst taskA taskB). fold (source dst taskA taskB).
  rewrite Heq, Hid. cbn [negb]. unfold try_catch, bind at 1 2.
  rewrite updateTask_missing_id. reflexivity.
Qed.

(** X3. A write that is due for a task whose id is empty never reaches
    the store: [updateTask] throws before any request, the loop catches
    the error and prints it, the record stays as it was (its
    [lastSyncedUpdate] does not advance) and the pair still counts as
    processed. *)
Theorem missing_id_update_is_caught dst tasksBMap P taskA taskB syncRecord s :
  find (byA (id taskA)) (Dict.values (ledger s)) = Some syncRecord ->
  Dict.get (accountBId syncRecord) tasksBMap = Some taskB ->
  direction host taskA taskB syncRecord = Some dst ->
  tasksAreEqual taskA taskB = false ->
  id (target dst taskA taskB) = EmptyString ->
  exists s',
    processTaskA host taskListA taskListB tasksBMap P taskA s
    = (Ok (StrSet.add (recordKey syncRecord) P), s')
    /\ calls s' = calls s
    /\ sleeps s' = sleeps s
    /\ world s' = world s
    /\ syncState s' = syncState s
    /\ ends_with s'
         [(ErrorLevel,
           "Failed to update task in " +++ account_letter dst
           +++ ". Code: undefined Message: Cannot update task: taskId is missing")].
Proof.
  intros Hfind Hget Hdir Heq Hid.
  unfold processTaskA. unfold bind at 1. unfold get_syncState at 1.
  cbn [fst snd]. fold (byA (id taskA)). unfold ledger in Hfind.
  rewrite Hfind, Hget.
  unfold direction in Hdir.
  set (aModified := date_gt host (updated taskA) (lastSyncedUpdate syncRecord)) in *.
  set (bModified := date_gt host (updated taskB) (lastSyncedUpdate syncRecord)) in *.
  unfold bind at 1 2 3. unfold log at 1 2 3. cbn [fst snd].
  assert (Hfinish : forall announce msg s0,
    calls s0 = calls s -> sleeps s0 = sleeps s -> world s0 = world s ->
    syncState s0 = syncState s ->
    exists s',
      bind (bind (log Info msg)
              (fun _ => copyOnto host dst taskListA taskListB taskA taskB
                          syncRecord announce))
           (fun _ => ret (StrSet.add (recordKey syncRecord) P)) s0
      = (Ok (StrSet.add (recordKey syncRecord) P), s')
      /\ calls s' = calls s /\ sleeps s' = sleeps s /\ world s' = world s
      /\ syncState s' = syncState s
      /\ ends_with s'
           [(ErrorLevel,
             "Failed to update task in " +++ account_letter dst
             +++ ". Code: undefined Message: Cannot update task: taskId is missing")]).
  { intros announce msg s0 Hc Hs Hw Hst. unfold bind at 1 2. unfold log at 1.
    cbn [fst snd]. rewrite copyOnto_missing_id by assumption.
    eexists. split; [reflexivity|]. cbn.
    repeat split; auto. eexists. reflexivity. }
  destruct (aModified && bModified).
  - destruct (date_gt host (updated taskA) (updated taskB));
      inversion Hdir; subst dst; apply Hfinish; reflexivity.
  - destruct aModified; [inversion Hdir; subst dst; apply Hfinish; reflexivity|].
    destruct bModified; [inversion Hdir; subst dst; apply Hfinish; reflexivity|].
    discriminate.
Qed.

(** X4. An update that the store refuses with an error that is neither
    transient nor a 404 or 400 (a 403, say) is made once, caught and
    logged; the record stays in the ledger with its old
    [lastSyncedUpdate], so the next pass will try again, and the pair
    still counts as processed. *)
Theorem refused_update_keeps_record
    dst tasksBMap P taskA taskB syncRecord s e w' :
  find (byA (id taskA)) (Dict.values (ledger s)) = Some syncRecord ->
  Dict.get (accountBId syncRecord) tasksBMap = Some taskB ->
  direction host taskA taskB syncRecord = Some dst ->
  tasksAreEqual taskA taskB = false ->
  id (target dst taskA taskB) <> EmptyString ->
  update_request host taskListA taskListB dst taskA taskB (world s)
  = (Throw e, w') ->
  isTransient host e = false ->
  is_404_or_400 e = false ->
  exists s',
    processTaskA host taskListA taskListB tasksBMap P taskA s
    = (Ok (StrSet.add (recordKey syncRecord) P), s')
    /\ calls s' = calls s ++ [update_call taskListA taskListB dst taskA taskB]
    /\ world s' = w'
    /\ ledger s' = ledger s
    /\ find (byA (id taskA)) (Dict.values (ledger s')) = Some syncRecord.
Proof.
  intros Hfind Hget Hdir Heq Hid Hreq Htr H404.
  destruct (processTaskA_spec host taskListA taskListB tasksBMap P taskA s)
    as (P' & s' & Hrun & _ & Hstep).
  unfold stepA in Hstep. rewrite Hfind, Hget, Hdir in Hstep.
  destruct Hstep as [-> Hcopy]. unfold copied in Hcopy.
  rewrite Heq in Hcopy. apply String.eqb_neq in Hid. rewrite Hid in Hcopy.
  destruct Hcopy as (Hc & r & Hout & Hl).
  rewrite (outcome_first_fatal host _ _ Hreq Htr) in Hout.
  assert (r = Throw e) by congruence. assert (world s' = w') by congruence.
  subst r. rewrite H404 in Hl.
  exists s'. rewrite Hl. auto.
Qed.

(** X5. A create that the store refuses with an error that is not
    transient is made once, caught and logged: the iteration returns
    normally, the ledger gets no record and, in the first loop, no pair
    is marked, so the task is still unmatched at the next pass.  The
    same holds in both loops. *)
Theorem refused_create_leaves_no_record :
  (forall tasksBMap P taskA s e w',
      find (byA (id taskA)) (Dict.values (ledger s)) = None ->
      tasks_insert host AccountB (TaskList.id taskListB) (body_of None taskA)
        (world s) = (Throw e, w') ->
      isTransient host e = false ->
      exists s',
        processTaskA host taskListA taskListB tasksBMap P taskA s = (Ok P, s')
        /\ calls s'
           = calls s
             ++ [CallCreate AccountB (TaskList.id taskListB) (body_of None taskA)]
        /\ world s' = w'
        /\ ledger s' = ledger s)
  /\
  (forall P taskB s e w',
      find (byB (id taskB)) (Dict.values (ledger s)) = None ->
      tasks_insert host AccountA (TaskList.id taskListA) (body_of None taskB)
        (world s) = (Throw e, w') ->
      isTransient host e = false ->
      exists s',
        processTaskB host taskListA taskListB P taskB s = (Ok tt, s')
        /\ calls s'
           = calls s
             ++ [CallCreate AccountA (TaskList.id taskListA) (body_of None taskB)]
        /\ world s' = w'
        /\ ledger s' = ledger s).
Proof.
  split.
  - intros tasksBMap P taskA s e w' Hfind Hreq Htr.
    destruct (processTaskA_spec host taskListA taskListB tasksBMap P taskA s)
      as (P' & s' & Hrun & _ & Hstep).
    unfold stepA in Hstep. rewrite Hfind in Hstep.
    destruct Hstep as (Hc & r & Hout & Hr).
    rewrite (outcome_first_fatal host _ _ Hreq Htr) in Hout.
    assert (r = Throw e) by congruence. assert (world s' = w') by congruence.
    subst r. destruct Hr as [Hl ->]. exists s'. auto.
  - intros P taskB s e w' Hfind Hreq Htr.
    destruct (processTaskB_spec host taskListA taskListB P taskB s)
      as (s' & Hrun & _ & Hstep).
    unfold stepB in Hstep. rewrite Hfind in Hstep.
    destruct Hstep as (Hc & r & Hout & Hr).
    rewrite (outcome_first_fatal host _ _ Hreq Htr) in Hout.
    assert (r = Throw e) by congruence. assert (world s' = w') by congruence.
    subst r. exists s'. auto.
Qed.

(** X6. A record whose [lastSyncedUpdate] is not a date freezes its
    pair: every comparison with an invalid date is false, so neither
    task ever counts as modified, no call is made and the ledger stays
    as it is, however the two tasks differ. *)
Theorem invalid_ledger_date_freezes_pair tasksBMap P taskA taskB syncRecord s :
  find (byA (id taskA)) (Dict.values (ledger s)) = Some syncRecord ->
  Dict.get (accountBId syncRecord) tasksBMap = Some taskB ->
  Date_getTime host (lastSyncedUpdate syncRecord) = None ->
  exists s',
    processTaskA host taskListA taskListB tasksBMap P taskA s
    = (Ok (StrSet.add (recordKey syncRecord) P), s')
    /\ calls s' = calls s
    /\ world s' = world s
    /\ ledger s' = ledger s.
Proof.
  intros Hfind Hget Hdate.
  destruct (processTaskA_spec host taskListA taskListB tasksBMap P taskA s)
    as (P' & s' & Hrun & _ & Hstep).
  unfold stepA in Hstep. rewrite Hfind, Hget in Hstep.
  assert (Hno : forall x, date_gt host x (lastSyncedUpdate syncRecord) = false).
  { intros x. unfold date_gt. rewrite Hdate.
    destruct (Date_getTime host x); reflexivity. }
  unfold direction in Hstep. rewrite !Hno in Hstep. cbn [andb] in Hstep.
  destruct Hstep as (-> & Hw & Hc & Hl). exists s'. auto.
Qed.

End StepErrors.

Definition Ideal_failing_env (fs : list (option Error)) (a b : list Task)
    (ledger : Dict.t SyncRecord) : Env Ideal.World :=
  {| world := Ideal_failing fs a b;
     syncState := {| tasks := ledger; lastSyncTime := t0 |};
     console := []; sleeps := []; calls := [] |}.

(** A record whose B id is empty: the write to B is due and is caught. *)
Lemma missing_id_update_is_caught_witness :
  let a := Ideal.task "a1" "Buy oat milk" None "needsAction" t2 in
  let b := Ideal.task EmptyString "Buy milk" None "needsAction" t0 in
  let r := {| accountAId := "a1"; accountBId := EmptyString;
              lastSyncedUpdate := t0 |} in
  let s := Ideal.env [a] [b] [("a1-", r)] in
  exists s',
    processTaskA Ideal.host L L [(EmptyString, b)] [] a s = (Ok ["a1-"], s')
    /\ calls s' = []
    /\ syncState s' = syncState s
    /\ ends_with s'
         [(ErrorLevel,
           "Failed to update task in B. Code: undefined Message: Cannot update task: taskId is missing")].
Proof.
  intros a b r s.
  destruct (@missing_id_update_is_caught _ Ideal.host L L AccountB
              [(EmptyString, b)] [] a b r s)
    as (s' & H1 & H2 & H3 & H4 & H5 & H6); try reflexivity.
  exists s'. auto.
Defined.

(** The update of [b1] is answered with 403: the record stays. *)
Lemma refused_update_keeps_record_witness :
  let a := Ideal.task "a1" "Buy oat milk" None "needsAction" t2 in
  let b := Ideal.task "b1" "Buy milk" None "needsAction" t0 in
  let s := Ideal_failing_env [Some forbidden] [a] [b] pair_ledger in
  exists s',
    processTaskA Ideal.host L L [("b1", b)] [] a s = (Ok ["a1-b1"], s')
    /\ calls s' = [CallUpdate AccountB "L" "b1" (body_of (Some "b1") a)]
    /\ ledger s' = pair_ledger.
Proof.
  intros a b s.
  destruct (@refused_update_keeps_record _ Ideal.host L L AccountB
              [("b1", b)] [] a b pair_record s forbidden
              (Ideal_failing [] [a] [b]))
    as (s' & H1 & H2 & H3 & H4 & H5); try reflexivity.
  - discriminate.
  - exists s'. auto.
Defined.

(** Both creates are answered with 403: no record is written. *)
Lemma refused_create_leaves_no_record_witness :
  let a := Ideal.task "a1" "Buy milk" None "needsAction" t0 in
  let b := Ideal.task "b1" "Call mum" None "needsAction" t1 in
  (exists s',
     processTaskA Ideal.host L L [] [] a
       (Ideal_failing_env [Some forbidden] [a] [] []) = (Ok [], s')
     /\ calls s' = [CallCreate AccountB "L" (body_of None a)]
     /\ ledger s' = [])
  /\
  (exists s',
     processTaskB Ideal.host L L [] b
       (Ideal_failing_env [Some forbidden] [] [b] []) = (Ok tt, s')
     /\ calls s' = [CallCreate AccountA "L" (body_of None b)]
     /\ ledger s' = []).
Proof.
  intros a b.
  destruct (@refused_create_leaves_no_record _ Ideal.host L L) as [HA HB].
  split.
  - destruct (HA [] [] a (Ideal_failing_env [Some forbidden] [a] [] [])
                forbidden (Ideal_failing [] [a] []))
      as (s' & H1 & H2 & H3 & H4); try reflexivity.
    exists s'. auto.
  - destruct (HB [] b (Ideal_failing_env [Some forbidden] [] [b] [])
                forbidden (Ideal_failing [] [] [b]))
      as (s' & H1 & H2 & H3 & H4); try reflexivity.
    exists s'. auto.
Defined.

(** The ledger says ["yesterday"]: A's later edit is never copied. *)
Lemma invalid_ledger_date_freezes_pair_witness :
  let a := Ideal.task "a1" "Buy oat milk" None "needsAction" t2 in
  let b := Ideal.task "b1" "Buy milk" None "needsAction" t0 in
  let r := {| accountAId := "a1"; accountBId := "b1";
              lastSyncedUpdate := "yesterday" |} in
  let s := Ideal.env [a] [b] [("a1-b1", r)] in
  exists s',
    processTaskA Ideal.host L L [("b1", b)] [] a s = (Ok ["a1-b1"], s')
    /\ calls s' = []
    /\ ledger s' = [("a1-b1", r)].
Proof.
  intros a b r s.
  destruct (@invalid_ledger_date_freezes_pair _ Ideal.host L L
              [("b1", b)] [] a b r s)
    as (s' & H1 & H2 & H3 & H4); try reflexivity.
  exists s'. auto.
Defined.

(* ================================================================== *)
(** ** The pass as a whole (lines 281-440) *)

Section PassFacts.

Context {World : Type}.
Variable host : Host World.
Variables taskListA taskListB : TaskList.t.

(** A call goes to the list chosen for its account. *)
Definition well_addressed (c : Call) : Prop :=
  match c with
  | CallCreate acc l _ => l = list_of taskListA taskListB acc
  | CallUpdate acc l _ _ => l = list_of taskListA taskListB acc
  | CallDelete acc l _ => l = list_of taskListA taskListB acc
  end.

Lemma stepA_calls tasksBMap P taskA s P' s' :
  stepA host taskListA taskListB tasksBMap P taskA s P' s' ->
  exists new, calls s' = calls s ++ new /\ (length new <= 1)%nat
              /\ Forall well_addressed new.
Proof.
  unfold stepA. intros H.
  destruct (find (byA (id taskA)) (Dict.values (ledger s))) as [r|].
  - destruct (Dict.get (accountBId r) tasksBMap) as [taskB|].
    + destruct H as [_ H].
      destruct (direction host taskA taskB r) as [dst|].
      * unfold copied in H. destruct (tasksAreEqual taskA taskB).
        { destruct H as (_ & -> & _). exists []. rewrite app_nil_r. auto. }
        destruct (String.eqb (id (target dst taskA taskB)) EmptyString).
        { destruct H as (_ & -> & _). exists []. rewrite app_nil_r. auto. }
        destruct H as (-> & _). eexists. split; [reflexivity|].
        split; [reflexivity|]. repeat constructor.
      * destruct H as (_ & -> & _). exists []. rewrite app_nil_r. auto.
    + destruct H as (_ & -> & _). eexists. split; [reflexivity|].
      split; [reflexivity|]. repeat constructor.
  - destruct H as (-> & _). eexists. split; [reflexivity|].
    split; [reflexivity|]. repeat constructor.
Qed.

Lemma stepB_calls P taskB s s' :
  stepB host taskListA taskListB P taskB s s' ->
  exists new, calls s' = calls s ++ new /\ (length new <= 1)%nat
              /\ Forall well_addressed new.
Proof.
  unfold stepB. intros H.
  destruct (find (byB (id taskB)) (Dict.values (ledger s))) as [r|].
  - destruct (StrSet.has (recordKey r) P).
    + subst s'. exists []. rewrite app_nil_r. auto.
    + destruct H as (-> & _). eexists. split; [reflexivity|].
      split; [reflexivity|]. repeat constructor.
  - destruct H as (-> & _). eexists. split; [reflexivity|].
    split; [reflexivity|]. repeat constructor.
Qed.

Lemma loopA_calls tasksBMap :
  forall l P s,
  exists P' s' new,
    loopA host taskListA taskListB tasksBMap P l s = (Ok P', s')
    /\ calls s' = calls s ++ new /\ (length new <= length l)%nat
    /\ Forall well_addressed new
    /\ lastSyncTime (syncState s') = lastSyncTime (syncState s).
Proof.
  induction l as [|a l IH]; intros P s.
  - exists P, s, []. rewrite app_nil_r. cbn. auto.
  - destruct (processTaskA_spec host taskListA taskListB tasksBMap P a s)
      as (P1 & s1 & Hrun & Ht & Hstep).
    apply stepA_calls in Hstep. destruct Hstep as (n1 & Hc1 & Hl1 & Hw1).
    destruct (IH P1 s1) as (P' & s' & n2 & Hloop & Hc2 & Hl2 & Hw2 & Ht2).
    exists P', s', (n1 ++ n2). erewrite loopA_cons by exact Hrun.
    split; [exact Hloop|]. rewrite Hc2, Hc1, <- app_assoc.
    split; [reflexivity|]. rewrite length_app. cbn [length].
    split; [lia|]. split; [apply Forall_app; auto | congruence].
Qed.

Lemma loopB_calls P :
  forall l s,
  exists s' new,
    loopB host taskListA taskListB P l s = (Ok tt, s')
    /\ calls s' = calls s ++ new /\ (length new <= length l)%nat
    /\ Forall well_addressed new
    /\ lastSyncTime (syncState s') = lastSyncTime (syncState s).
Proof.
  induction l as [|b l IH]; intros s.
  - exists s, []. rewrite app_nil_r. cbn. auto.
  - destruct (processTaskB_spec host taskListA taskListB P b s)
      as (s1 & Hrun & Ht & Hstep).
    apply stepB_calls in Hstep. destruct Hstep as (n1 & Hc1 & Hl1 & Hw1).
    destruct (IH s1) as (s' & n2 & Hloop & Hc2 & Hl2 & Hw2 & Ht2).
    exists s', (n1 ++ n2). erewrite loopB_cons by exact Hrun.
    split; [exact Hloop|]. rewrite Hc2, Hc1, <- app_assoc.
    split; [reflexivity|]. rewrite length_app. cbn [length].
    split; [lia|]. split; [apply Forall_app; auto | congruence].
Qed.

(** X7. Failures are isolated per task: whatever the stores answer, the
    two loops run to their end without throwing.  The pass makes at most
    one create, update or delete per task of the two snapshots, each on
    the list chosen for its account, and leaves [lastSyncTime] alone. *)
Theorem reconcile_isolates_failures tasksA tasksB s :
  exists s' new,
    reconcile host taskListA taskListB tasksA tasksB s = (Ok tt, s')
    /\ calls s' = calls s ++ new
    /\ (length new <= length tasksA + length tasksB)%nat
    /\ Forall well_addressed new
    /\ lastSyncTime (syncState s') = lastSyncTime (syncState s).
Proof.
  destruct (loopA_calls (Dict.of_entries (map (fun t => (id t, t)) tasksB))
              tasksA StrSet.empty s)
    as (P & s1 & n1 & HA & Hc1 & Hl1 & Hw1 & Ht1).
  destruct (loopB_calls P tasksB s1) as (s' & n2 & HB & Hc2 & Hl2 & Hw2 & Ht2).
  exists s', (n1 ++ n2). erewrite reconcile_loops by exact HA.
  split; [exact HB|]. rewrite Hc2, Hc1, <- app_assoc.
  split; [reflexivity|]. rewrite length_app.
  split; [lia|]. split; [apply Forall_app; auto | congruence].
Qed.

(** X8. Every record sits under the key made of its two ids: a pass
    that starts from such a ledger ends with such a ledger, whatever the
    stores answer.  The pass deletes records by that key, so this is
    what makes its deletions take effect. *)
Theorem reconcile_keeps_keys tasksA tasksB s :
  (forall k r, In (k, r) (ledger s) ->
               k = accountAId r +++ "-" +++ accountBId r) ->
  exists s',
    reconcile host taskListA taskListB tasksA tasksB s = (Ok tt, s')
    /\ forall k r, In (k, r) (ledger s') ->
                   k = accountAId r +++ "-" +++ accountBId r.
Proof.
  intros Hk. fold (keyed (ledger s)) in Hk.
  destruct (@loopA_invariant World host taskListA taskListB
              (Dict.of_entries (map (fun t => (id t, t)) tasksB))
              (fun _ _ s1 => keyed (ledger s1)) tasksA [] StrSet.empty s Hk)
    as (P & s1 & HA & Hk1).
  { intros done a rest P0 s0 P1 s1 _ Hk0 _ Hstep. eapply stepA_keyed; eauto. }
  destruct (@loopB_invariant World host taskListA taskListB P
              (fun _ s2 => keyed (ledger s2)) tasksB [] s1 Hk1)
    as (s' & HB & Hk').
  { intros done b rest s0 s2 _ Hk0 _ Hstep. eapply stepB_keyed; eauto. }
  exists s'. erewrite reconcile_loops by exact HA. split; [exact HB|].
  exact Hk'.
Qed.

End PassFacts.

(* ================================================================== *)
(** ** The first pass, from an empty ledger *)

Section FirstPass.

Context {World : Type}.
Variable host : Host World.
Variable known : Account -> World -> string -> Prop.
Variables taskListA taskListB : TaskList.t.
Hypothesis fresh : FreshIds host known.

Definition create_in_B (taskA : Task) : Call :=
  CallCreate AccountB (TaskList.id taskListB) (body_of None taskA).

Definition create_in_A (taskB : Task) : Call :=
  CallCreate AccountA (TaskList.id taskListA) (body_of None taskB).

Lemma find_byA_fresh d i :
  ~ In i (idsA d) -> find (byA i) (Dict.values d) = None.
Proof.
  intros Hnin. destruct (find (byA i) (Dict.values d)) as [r|] eqn:Hf;
    [exfalso | reflexivity].
  apply Hnin. eapply pairs_idsA. eapply find_byA_pairs. exact Hf.
Qed.

Lemma find_byB_fresh d j :
  ~ In j (idsB d) -> find (byB j) (Dict.values d) = None.
Proof.
  intros Hnin. destruct (find (byB j) (Dict.values d)) as [r|] eqn:Hf;
    [exfalso | reflexivity].
  apply Hnin. eapply pairs_idsB. eapply find_byB_pairs. exact Hf.
Qed.

Lemma NoDup_middle (done : list Task) x rest :
  NoDup (map id (done ++ x :: rest)) -> ~ In (id x) (map id done).
Proof.
  rewrite map_app. cbn. intros H Hin. apply NoDup_remove_2 in H.
  apply H. apply in_or_app. now left.
Qed.

(** X9. Tasks are matched through the ledger only, never by their
    content.  From an empty ledger the pass therefore calls [createTask]
    on B for every task of A and then on A for every task of B, in
    snapshot order, and makes no other call, even when the two lists
    hold the same tasks.  (Ids are unique within a snapshot, and the id
    a store hands out is none it has used before.) *)
Theorem first_pass_creates_everything tasksA tasksB s :
  ledger s = [] ->
  NoDup (map id tasksA) ->
  NoDup (map id tasksB) ->
  (forall b, In b tasksB -> known AccountB (world s) (id b)) ->
  exists s',
    reconcile host taskListA taskListB tasksA tasksB s = (Ok tt, s')
    /\ calls s' = calls s ++ map create_in_B tasksA ++ map create_in_A tasksB.
Proof.
  intros Hempty HndA HndB HkB.
  destruct (@loopA_invariant World host taskListA taskListB
              (Dict.of_entries (map (fun t => (id t, t)) tasksB))
              (fun done _ s1 =>
                 calls s1 = calls s ++ map create_in_B done
                 /\ (forall i, In i (idsA (ledger s1)) -> In i (map id done))
                 /\ (forall j, In j (idsB (ledger s1)) ->
                               ~ known AccountB (world s) j)
                 /\ (forall acc i, known acc (world s) i ->
                                   known acc (world s1) i))
              tasksA [] StrSet.empty s)
    as (P & s1 & HA & Hc1 & _ & HB1 & Hw1).
  { rewrite Hempty. cbn. rewrite app_nil_r. repeat split; auto; intros ? []. }
  { intros done a rest P0 s0 P1 s2 Heq (Hc0 & HA0 & HB0 & Hw0) _ Hstep.
    cbn [app] in Heq.
    assert (Hnew : ~ In (id a) (map id done))
      by (apply NoDup_middle with (rest := rest); now rewrite <- Heq).
    assert (Hw : forall acc i, known acc (world s0) i -> known acc (world s2) i)
      by (eapply stepA_keeps; eauto).
    unfold stepA in Hstep.
    rewrite find_byA_fresh in Hstep by (intros Hin; apply Hnew; auto).
    destruct Hstep as (Hc & r & Hout & Hr).
    split; [rewrite Hc, Hc0, map_app, <- app_assoc; reflexivity|].
    rewrite map_app.
    destruct r as [newTaskB|e].
    - destruct Hr as [Hl _].
      destruct (outcome_insert_fresh fresh _ _ _ _ Hout) as [Hfresh _].
      rewrite Hl. split; [|split].
      + intros i Hi. apply ids_set_In in Hi. apply in_or_app.
        destruct Hi as [->|Hi]; [right; now left | left; auto].
      + intros j Hj. apply ids_set_In in Hj.
        destruct Hj as [->|Hj]; [|auto]. intros Hk. apply Hfresh. auto.
      + auto.
    - destruct Hr as [Hl _]. rewrite Hl. split; [|split]; auto.
      intros i Hi. apply in_or_app. left. auto. }
  destruct (@loopB_invariant World host taskListA taskListB P
              (fun done s2 =>
                 calls s2 = calls s1 ++ map create_in_A done
                 /\ (forall j, In j (idsB (ledger s2)) ->
                       ~ known AccountB (world s) j \/ In j (map id done)))
              tasksB [] s1)
    as (s' & HB & Hc' & _).
  { cbn. rewrite app_nil_r. split; [reflexivity|]. intros j Hj. left. auto. }
  { intros done b rest s0 s2 Heq (Hc0 & HB0) _ Hstep. cbn [app] in Heq.
    assert (Hnew : ~ In (id b) (map id done))
      by (apply NoDup_middle with (rest := rest); now rewrite <- Heq).
    assert (Hin : In b tasksB)
      by (rewrite Heq; apply in_or_app; right; now left).
    unfold stepB in Hstep.
    rewrite find_byB_fresh in Hstep.
    2:{ intros Hj. destruct (HB0 _ Hj) as [Hu|Hd]; [apply Hu; auto | auto]. }
    destruct Hstep as (Hc & r & Hout & Hr).
    split; [rewrite Hc, Hc0, map_app, <- app_assoc; reflexivity|].
    rewrite map_app. intros j Hj.
    assert (Hold : In j (idsB (ledger s0)) ->
                   ~ known AccountB (world s) j \/ In j (map id done ++ map id [b])).
    { intros Hj0. destruct (HB0 _ Hj0); [now left | right].
      apply in_or_app. now left. }
    destruct r as [newTaskA|e]; rewrite Hr in Hj; [|auto].
    apply ids_set_In in Hj. destruct Hj as [->|Hj]; [|auto].
    right. apply in_or_app. right. now left. }
  exists s'. erewrite reconcile_loops by exact HA. split; [exact HB|].
  rewrite Hc', Hc1, <- app_assoc. reflexivity.
Qed.

End FirstPass.

Lemma reconcile_keeps_keys_witness :
  let tasksA := [Ideal.task "a1" "Buy oat milk" None "needsAction" t2;
                 Ideal.task "a2" "Call mum" None "needsAction" t1;
                 Ideal.task "a3" "Old chore" None "completed" t0] in
  let tasksB := [Ideal.task "b1" "Buy milk" None "needsAction" t1;
                 Ideal.task "b2" "Water plants" None "needsAction" t1] in
  let ledger0 := [("a1-b1", pair_record);
                  ("a3-b3", {| accountAId := "a3"; accountBId := "b3";
                               lastSyncedUpdate := t0 |})] in
  exists s',
    reconcile Ideal.host L L tasksA tasksB (Ideal.env tasksA tasksB ledger0)
    = (Ok tt, s')
    /\ forall k r, In (k, r) (ledger s') ->
                   k = accountAId r +++ "-" +++ accountBId r.
Proof.
  intros tasksA tasksB ledger0.
  apply (@reconcile_keeps_keys _ Ideal.host L L).
  intros k r Hin. cbn in Hin.
  destruct Hin as [H|[H|[]]]; inversion H; reflexivity.
Defined.

(** The same task on both sides and nothing in the ledger: it is created
    once more on each side. *)
Lemma first_pass_creates_everything_witness :
  let a := Ideal.task "a1" "Buy milk" None "needsAction" t0 in
  let b := Ideal.task "b1" "Buy milk" None "needsAction" t0 in
  exists s',
    reconcile Ideal.host L L [a] [b] (Ideal.env [a] [b] []) = (Ok tt, s')
    /\ calls s'
       = [CallCreate AccountB "L" (body_of None a);
          CallCreate AccountA "L" (body_of None b)].
Proof.
  intros a b.
  apply (@first_pass_creates_everything _ Ideal.host Ideal_known L L
           Ideal_fresh [a] [b] (Ideal.env [a] [b] [])).
  - reflexivity.
  - repeat constructor. cbn. tauto.
  - repeat constructor. cbn. tauto.
  - intros x [<-|[]]. apply Ideal_known_other. discriminate.
Defined.

(* ================================================================== *)
(** ** [getAllTasks] (lines 140-168) *)

Section Paging.

Context {World : Type}.
Variable host : Host World.
Variable acc : Account.
Variable taskListId : string.

(** [response.data.items], when there are any. *)
Definition page_items (p : Page) : list Task :=
  match items p with Some l => l | None => [] end.

(** The store answers the request for [tok] and those for the tokens
    that follow with [pages], each carrying a token for the next;
    [tok'] is the token of the last of them. *)
Inductive served : option string -> World -> list Page
                   -> option string -> World -> Prop :=
| served_none tok w : served tok w [] tok w
| served_more tok w p w1 rest tok' w' :
    tasks_list host acc taskListId tok w = (Ok p, w1) ->
    truthy (nextPageToken p) = true ->
    served (nextPageToken p) w1 rest tok' w' ->
    served tok w (p :: rest) tok' w'.

Definition paused (s : Env World) (w : World) (pauses : list Z) : Env World :=
  {| world := w; syncState := syncState s; console := console s;
     sleeps := sleeps s ++ pauses; calls := calls s |}.

Lemma retry_request_ok T (f : World -> Result T * World) name s v w' :
  f (world s) = (Ok v, w') ->
  retryWithBackoff host (request f) name MAX_RETRIES s = (Ok v, paused s w' []).
Proof.
  intros Hf. unfold retryWithBackoff.
  erewrite retryLoop_ok by (unfold request; rewrite Hf; reflexivity).
  unfold paused. now rewrite app_nil_r.
Qed.

Lemma retry_request_fatal T (f : World -> Result T * World) name s e w' :
  f (world s) = (Throw e, w') -> isTransient host e = false ->
  retryWithBackoff host (request f) name MAX_RETRIES s = (Throw e, paused s w' []).
Proof.
  intros Hf Htr. unfold retryWithBackoff.
  erewrite retryLoop_throw;
    [| unfold request; rewrite Hf; reflexivity | right; exact Htr].
  unfold paused. now rewrite app_nil_r.
Qed.

Lemma paused_nil s : paused s (world s) [] = s.
Proof. unfold paused. rewrite app_nil_r. now destruct s. Qed.

(** The loop after the pages that carried a token. *)
Lemma getAllTasksLoop_served tok w pages tok' w' :
  served tok w pages tok' w' ->
  forall fuel tasks0 s,
    world s = w ->
    getAllTasksLoop host (length pages + fuel) acc taskListId tasks0 tok s
    = getAllTasksLoop host fuel acc taskListId
        (tasks0 ++ flat_map page_items pages) tok'
        (paused s w' (repeat 200 (length pages))).
Proof.
  induction 1 as [tok w|tok w p w1 rest tok' w' Hreq Hmore Hrest IH];
    intros fuel tasks0 s Hw; subst w.
  - cbn. now rewrite app_nil_r, paused_nil.
  - cbn [length Nat.add getAllTasksLoop].
    unfold bindF at 1, liftF at 1.
    erewrite retry_request_ok by exact Hreq. rewrite Hmore.
    unfold bindF at 1, liftF at 1, sleep.
    cbn [paused world syncState console sleeps calls].
    rewrite app_nil_r. erewrite IH by reflexivity.
    unfold paused. cbn [world syncState console sleeps calls flat_map repeat].
    rewrite <- !app_assoc. cbn [app].
    unfold page_items at 2.
    destruct (items p); cbn [app]; rewrite <- ?app_assoc; reflexivity.
Qed.

(** X10. [getAllTasks] returns the items of all the pages in the order
    they were served; a page without [items] counts for nothing, and the
    listing ends at the first page whose token is missing or empty.  It
    pauses 200 ms after every page but the last and changes nothing
    else. *)
Theorem getAllTasks_concatenates_pages pages tok w1 p s w' fuel :
  served None (world s) pages tok w1 ->
  tasks_list host acc taskListId tok w1 = (Ok p, w') ->
  truthy (nextPageToken p) = false ->
  (length pages < fuel)%nat ->
  getAllTasks host fuel acc taskListId s
  = Some (Ok (flat_map page_items (pages ++ [p])),
          {| world := w'; syncState := syncState s; console := console s;
             sleeps := sleeps s ++ repeat 200 (length pages);
             calls := calls s |}).
Proof.
  intros Hs Hreq Hlast Hfuel. unfold getAllTasks.
  replace fuel with (length pages + S (fuel - length pages - 1))%nat by lia.
  erewrite getAllTasksLoop_served by eauto.
  cbn [getAllTasksLoop app]. unfold bindF at 1, liftF at 1.
  erewrite retry_request_ok by exact Hreq. rewrite Hlast.
  unfold liftF, ret, paused. cbn [world syncState console sleeps calls].
  rewrite app_nil_r, flat_map_app. cbn [flat_map]. rewrite app_nil_r.
  unfold page_items. destruct (items p); rewrite ?app_nil_r; reflexivity.
Qed.

(** X11. A page the store refuses with an error that is not transient
    ends the listing with that error, also after pages that were
    served: the tasks gathered so far are not returned. *)
Theorem getAllTasks_fails_as_a_whole pages tok w1 e s w' fuel :
  served None (world s) pages tok w1 ->
  tasks_list host acc taskListId tok w1 = (Throw e, w') ->
  isTransient host e = false ->
  (length pages < fuel)%nat ->
  getAllTasks host fuel acc taskListId s
  = Some (Throw e,
          {| world := w'; syncState := syncState s; console := console s;
             sleeps := sleeps s ++ repeat 200 (length pages);
             calls := calls s |}).
Proof.
  intros Hs Hreq Htr Hfuel. unfold getAllTasks.
  replace fuel with (length pages + S (fuel - length pages - 1))%nat by lia.
  erewrite getAllTasksLoop_served by eauto.
  cbn [getAllTasksLoop app]. unfold bindF at 1, liftF at 1.
  erewrite retry_request_fatal by eauto.
  unfold paused. cbn [world syncState console sleeps calls].
  rewrite app_nil_r. reflexivity.
Qed.

(** X12. The loop has no page limit of its own: against a store that
    sends a token with every page, [getAllTasks] never returns, however
    long it is left to run. *)
Theorem getAllTasks_never_stops_by_itself :
  (forall tok w, exists p w',
      tasks_list host acc taskListId tok w = (Ok p, w')
      /\ truthy (nextPageToken p) = true) ->
  forall fuel s, getAllTasks host fuel acc taskListId s = None.
Proof.
  intros Hmore fuel. unfold getAllTasks.
  generalize (@nil Task) (@None string).
  induction fuel as [|fuel IH]; intros tasks0 tok s; [reflexivity|].
  cbn [getAllTasksLoop].
  destruct (Hmore tok (world s)) as (p & w' & Hreq & Htok).
  unfold bindF at 1, liftF at 1.
  erewrite retry_request_ok by exact Hreq. rewrite Htok.
  unfold bindF at 1, liftF at 1, sleep. apply IH.
Qed.

End Paging.

(** Two more hosts for the listing: one that serves a store in pages of
    [size] tasks, with the offset of the next page as its token, and one
    that sends a token with every page. *)
Module Paged.

Definition offset (tok : option string) : nat :=
  match tok with
  | Some t => match Iso.number t 0 with Some z => Z.to_nat z | None => 0%nat end
  | None => 0%nat
  end.

Definition list_page (size : nat) (acc : Account) (taskListId : string)
    (tok : option string) : Ideal.World -> Result Page * Ideal.World :=
  Ideal.guarded (fun w =>
    let rest := skipn (offset tok) (Ideal.store acc w) in
    (Ok {| items := Some (firstn size rest);
           nextPageToken := if (size <? length rest)%nat
                            then Some (nat_str (offset tok + size))
                            else None |}, w)).

Definition with_list
    (f : Account -> string -> option string
         -> Ideal.World -> Result Page * Ideal.World) : Host Ideal.World :=
  {| Date_getTime := Iso.parse;
     ToNumber := Iso.to_number;
     Error_stack := fun msg => Some ("Error: " +++ msg);
     Date_now := fun w => Iso.format (Ideal.clock w);
     env_TASK_LIST_NAME := Ideal.listName;
     fs_readState := Ideal.disk;
     fs_writeState := Ideal.write_state;
     tasklists_list := Ideal.list_lists;
     tasks_list := f;
     tasks_insert := Ideal.insert;
     tasks_update := Ideal.update;
     tasks_delete := Ideal.delete |}.

Definition host (size : nat) : Host Ideal.World := with_list (list_page size).

Definition endless : Host Ideal.World :=
  with_list (fun _ _ _ w =>
               (Ok {| items := None; nextPageToken := Some "more" |}, w)).

Definition five : list Task :=
  [Ideal.task "k1" "one" None "needsAction" t0;
   Ideal.task "k2" "two" None "needsAction" t0;
   Ideal.task "k3" "three" None "needsAction" t0;
   Ideal.task "k4" "four" None "needsAction" t0;
   Ideal.task "k5" "five" None "needsAction" t0].

End Paged.

(** Five tasks in pages of two: three requests, two pauses. *)
Lemma getAllTasks_concatenates_pages_witness :
  let s := Ideal.env Paged.five [] [] in
  getAllTasks (Paged.host 2) 3 AccountA "L" s
  = Some (Ok Paged.five,
          {| world := world s; syncState := syncState s; console := [];
             sleeps := [200; 200]; calls := [] |}).
Proof.
  intros s.
  apply (@getAllTasks_concatenates_pages _ (Paged.host 2) AccountA "L"
           [{| items := Some (firstn 2 Paged.five);
               nextPageToken := Some "2" |};
            {| items := Some (firstn 2 (skipn 2 Paged.five));
               nextPageToken := Some "4" |}]
           (Some "4") (world s)
           {| items := Some (skipn 4 Paged.five); nextPageToken := None |}
           s (world s) 3).
  - eapply served_more; [reflexivity | reflexivity |].
    eapply served_more; [reflexivity | reflexivity |].
    apply served_none.
  - reflexivity.
  - reflexivity.
  - cbn. lia.
Defined.

(** The second page is refused with 403: the first two tasks are lost
    with it. *)
Lemma getAllTasks_fails_as_a_whole_witness :
  let s := Ideal_failing_env [None; Some forbidden] Paged.five [] [] in
  getAllTasks (Paged.host 2) 3 AccountA "L" s
  = Some (Throw forbidden,
          {| world := Ideal_failing [] Paged.five [];
             syncState := syncState s; console := [];
             sleeps := [200]; calls := [] |}).
Proof.
  intros s.
  apply (@getAllTasks_fails_as_a_whole _ (Paged.host 2) AccountA "L"
           [{| items := Some (firstn 2 Paged.five);
               nextPageToken := Some "2" |}]
           (Some "2") (Ideal_failing [Some forbidden] Paged.five [])
           forbidden s (Ideal_failing [] Paged.five []) 3).
  - eapply served_more; [reflexivity | reflexivity |]. apply served_none.
  - reflexivity.
  - reflexivity.
  - cbn. lia.
Defined.

Lemma getAllTasks_never_stops_by_itself_witness :
  getAllTasks Paged.endless 1000 AccountA "L" (Ideal.env [] [] []) = None.
Proof.
  apply (@getAllTasks_never_stops_by_itself _ Paged.endless AccountA "L").
  intros tok w. eexists _, _. split; reflexivity.
Defined.

(* ================================================================== *)
(** ** Around the loops: the task lists, the state file, [main] *)

Section Around.

Context {World : Type}.
Variable host : Host World.

(** [response.data.items || []] *)
Definition lists_of (o : option (list TaskList.t)) : list TaskList.t :=
  match o with Some l => l | None => [] end.

Lemma getTaskLists_ok acc s o w' :
  tasklists_list host acc (world s) = (Ok o, w') ->
  getTaskLists host acc s = (Ok (lists_of o), paused s w' []).
Proof.
  intros H. unfold getTaskLists, retryWithBackoff.
  erewrite retryLoop_ok
    by (unfold bind, request; rewrite H; reflexivity).
  unfold paused. now rewrite app_nil_r.
Qed.

Lemma getTaskLists_fatal acc s e w' :
  tasklists_list host acc (world s) = (Throw e, w') ->
  isTransient host e = false ->
  getTaskLists host acc s = (Throw e, paused s w' []).
Proof.
  intros H Htr. unfold getTaskLists, retryWithBackoff.
  erewrite retryLoop_throw;
    [| unfold bind, request; rewrite H; reflexivity | right; exact Htr].
  unfold paused. now rewrite app_nil_r.
Qed.

(** X13. When one of the accounts has no task list, the pass ends at
    once: it prints a notice and returns normally without fetching a
    task, making a call, touching the ledger or writing the state file,
    and without closing the log group it opened. *)
Theorem no_task_list_ends_the_pass fuel s oA w1 oB w2 :
  tasklists_list host AccountA (world s) = (Ok oA, w1) ->
  tasklists_list host AccountB w1 = (Ok oB, w2) ->
  lists_of oA = [] \/ lists_of oB = [] ->
  syncTaskLists host fuel s
  = Some (Ok tt,
          {| world := w2; syncState := syncState s;
             console := console s
                        ++ [(StartGroup, "Sync Group");
                            (Info, "Starting sync...");
                            (Notice, "No task lists found in one or both accounts")];
             sleeps := sleeps s; calls := calls s |}).
Proof.
  intros HA HB Hnone. unfold syncTaskLists.
  unfold bindF at 1, liftF at 1, log at 1.
  unfold bindF at 1, liftF at 1, log at 1.
  unfold bindF at 1, liftF at 1.
  erewrite getTaskLists_ok by exact HA.
  unfold bindF at 1, liftF at 1.
  erewrite getTaskLists_ok by exact HB.
  unfold paused. cbn [world syncState console sleeps calls].
  rewrite !app_nil_r, <- !app_assoc. cbn [app].
  destruct Hnone as [-> | ->]; [|destruct (lists_of oA)];
    unfold liftF, log; cbn [world syncState console sleeps calls];
    rewrite <- !app_assoc; reflexivity.
Qed.

Lemma findTaskListByName_title acc name s l s' :
  findTaskListByName host acc name s = (Ok (Some l), s') ->
  TaskList.title l = name.
Proof.
  unfold findTaskListByName, bind.
  destruct (getTaskLists host acc s) as [[lists|e] s1]; [|discriminate].
  unfold ret. intros H.
  assert (Hf : find (fun l0 => String.eqb (TaskList.title l0) name) lists
               = Some l) by congruence.
  apply find_some in Hf. now apply String.eqb_eq.
Qed.

(** X14. The two lists of a pass are either the first list of each
    account, or two lists that both bear the name in [TASK_LIST_NAME]:
    a name found in one account only is not used for that account
    either. *)
Theorem chosen_lists_are_never_mixed firstA firstB s la lb s' :
  chooseTaskLists host firstA firstB s = (Ok (la, lb), s') ->
  (la = firstA /\ lb = firstB)
  \/ (exists name,
        env_TASK_LIST_NAME host (world s) = Some name
        /\ name <> EmptyString
        /\ TaskList.title la = name /\ TaskList.title lb = name).
Proof.
  unfold chooseTaskLists.
  destruct (env_TASK_LIST_NAME host (world s)) as [name|] eqn:Henv;
    cbn [truthy opt_str].
  2:{ unfold ret. intros H. left. split; congruence. }
  destruct (String.eqb_spec name EmptyString) as [->|Hne]; cbn [negb].
  { unfold ret. intros H. left. split; congruence. }
  unfold bind at 1.
  destruct (findTaskListByName host AccountA name s) as [[fa|e] s1] eqn:HfA;
    [|discriminate].
  unfold bind at 1.
  destruct (findTaskListByName host AccountB name s1) as [[fb|e] s2] eqn:HfB;
    [|discriminate].
  destruct fa as [la0|], fb as [lb0|]; unfold bind, log, ret; cbn [fst snd];
    intros H; try (left; split; congruence).
  right. exists name.
  apply findTaskListByName_title in HfA, HfB.
  repeat split; auto; congruence.
Qed.

(** X15. A pass that returns normally has either found no task list, or
    written the state file as its last request: what it wrote is the
    state it ends with, ledger and all, and the [lastSyncTime] in it is
    the time of that moment. *)
Theorem finished_pass_has_saved_its_state fuel s s' :
  syncTaskLists host fuel s = Some (Ok tt, s') ->
  ends_with s' [(Notice, "No task lists found in one or both accounts")]
  \/ exists w0,
       fs_writeState host (syncState s') w0 = (Ok tt, world s')
       /\ lastSyncTime (syncState s') = Date_now host w0.
Proof.
  unfold syncTaskLists. intros H.
  apply bindF_Ok in H. destruct H as (_ & s1 & _ & H).
  apply bindF_Ok in H. destruct H as (_ & s2 & _ & H).
  apply bindF_Ok in H. destruct H as (taskListsA & s3 & _ & H).
  apply bindF_Ok in H. destruct H as (taskListsB & s4 & _ & H).
  assert (Hnone : liftF (log Notice "No task lists found in one or both accounts") s4
                  = Some (Ok tt, s') ->
                  ends_with s' [(Notice, "No task lists found in one or both accounts")]).
  { unfold liftF, log. intros E. inversion E; subst. cbn. eexists. reflexivity. }
  destruct taskListsA as [|firstA restA]; [left; auto|].
  destruct taskListsB as [|firstB restB]; [left; auto|].
  right.
  apply bindF_Ok in H. destruct H as (lists & s5 & _ & H).
  apply bindF_Ok in H. destruct H as (_ & s6 & _ & H).
  apply bindF_Ok in H. destruct H as (tasksA & s7 & _ & H).
  apply bindF_Ok in H. destruct H as (tasksB & s8 & _ & H).
  apply bindF_Ok in H. destruct H as (_ & s9 & _ & H).
  apply bindF_Ok in H. destruct H as (_ & s10 & _ & H).
  apply bindF_Ok in H. destruct H as (u11 & s11 & H11 & H).
  apply bindF_Ok in H. destruct H as (u12 & s12 & H12 & H).
  apply bindF_Ok in H. destruct H as (u13 & s13 & H13 & H).
  unfold liftF, log in H13, H.
  injection H13 as _ Hs13. injection H as Hs'. subst s13 s'.
  cbn [world syncState].
  unfold liftF, set_lastSyncTime, put_syncState in H11.
  injection H11 as _ Hs11. subst s11.
  unfold liftF, saveSyncState, bind, get_syncState, request in H12.
  cbn [fst snd world syncState] in H12.
  destruct (fs_writeState host
              {| tasks := tasks (syncState s10);
                 lastSyncTime := Date_now host (world s10) |} (world s10))
    as [[[]|e] w] eqn:Hw; [|discriminate].
  unfold log in H12. injection H12 as _ Hs12. subst s12.
  cbn [world syncState]. exists (world s10). split; [exact Hw | reflexivity].
Qed.

(** X16. What one run saves, the next run loads: when the file system
    gives back what was written, [loadSyncState] in a new process puts
    in place the very state that [saveSyncState] wrote. *)
Theorem saved_state_is_loaded_back s s1 :
  (forall st w w', fs_writeState host st w = (Ok tt, w') ->
                   fs_readState host w' = Some st) ->
  saveSyncState host s = (Ok tt, s1) ->
  exists s2,
    loadSyncState host (initialEnv (world s1)) = (Ok tt, s2)
    /\ syncState s2 = syncState s
    /\ world s2 = world s1.
Proof.
  intros Hfs. unfold saveSyncState, bind, get_syncState, request.
  cbn [fst snd].
  destruct (fs_writeState host (syncState s) (world s)) as [[[]|e] w] eqn:Hw;
    [|discriminate].
  unfold log. intros H. injection H as Hs1. subst s1. cbn [world].
  unfold loadSyncState. cbn [initialEnv world].
  rewrite (Hfs _ _ _ Hw). eexists. split; [reflexivity|]. cbn. auto.
Qed.

(** X17. When the task lists of the first account cannot be read, for
    an error that is not transient, the run ends there: after the two
    opening lines [main] prints ["Sync failed: ..."] with the message of
    that error, then its stack as a debug line when it has one (for a
    thrown value that is not an [Error], ["Sync failed: ..."] with its
    string form), and exits with 1; nothing was fetched, called or
    written. *)
Theorem main_fails_without_task_lists fuel w e w' :
  tasklists_list host AccountA w = (Throw e, w') ->
  isTransient host e = false ->
  exists s,
    main host fuel w = Some (1, s)
    /\ world s = w' /\ calls s = [] /\ sleeps s = []
    /\ ends_with s ([(StartGroup, "Sync Group"); (Info, "Starting sync...")]
                    ++ failure_lines e).
Proof.
  intros Hreq Htr. unfold main.
  unfold bindF at 1, liftF at 1.
  assert (Hload : exists s1,
            loadSyncState host (initialEnv w) = (Ok tt, s1)
            /\ world s1 = w /\ calls s1 = [] /\ sleeps s1 = []).
  { unfold loadSyncState. cbn [initialEnv world].
    destruct (fs_readState host w); eexists; (split; [reflexivity|]);
      cbn; auto. }
  destruct Hload as (s1 & -> & Hw1 & Hc1 & Hs1).
  unfold syncTaskLists.
  unfold bindF at 1, liftF at 1, log at 1.
  unfold bindF at 1, liftF at 1, log at 1.
  unfold bindF at 1, liftF at 1.
  erewrite getTaskLists_fatal; [| cbn [world]; rewrite Hw1; exact Hreq | exact Htr].
  eexists. split; [reflexivity|]. rewrite reportFailure_lines.
  unfold paused, log. cbn.
  rewrite Hc1, Hs1. repeat split; auto.
  exists (console s1). rewrite <- !app_assoc. reflexivity.
Qed.

(** X18. [tasksAreEqual] compares exactly what the client sends: two
    tasks are equal if and only if the title, notes, status and due of
    one are those of the request body [createTask] and [updateTask]
    build from the other.  A task written from another one is therefore
    equal to it, whatever id and timestamps the store gives it. *)
Theorem tasksAreEqual_is_the_payload (taskId : option string) task1 task2 :
  tasksAreEqual task1 task2 = true
  <-> rb_title (body_of taskId task1) = title task2
      /\ rb_notes (body_of taskId task1) = notes task2
      /\ rb_status (body_of taskId task1) = status task2
      /\ rb_due (body_of taskId task1) = due task2.
Proof.
  assert (Hopt : forall x y, option_eqb x y = true <-> x = y).
  { intros [x|] [y|]; cbn; try (split; [discriminate | congruence]).
    - rewrite String.eqb_eq. split; congruence.
    - tauto. }
  unfold tasksAreEqual. cbn [body_of rb_title rb_notes rb_status rb_due].
  rewrite !andb_true_iff, !String.eqb_eq, !Hopt. tauto.
Qed.

End Around.

(** The reference world with given task lists and a [TASK_LIST_NAME]. *)
Definition Ideal_lists (la lb : list TaskList.t) (name : option string)
    : Ideal.World :=
  {| Ideal.storeA := []; Ideal.storeB := [];
     Ideal.listsA := la; Ideal.listsB := lb;
     Ideal.nextId := 1; Ideal.clock := 1735689600000; Ideal.disk := None;
     Ideal.listName := name; Ideal.faults := [] |}.

Definition work (i : string) : TaskList.t :=
  {| TaskList.id := i; TaskList.title := "Work" |}.

(** Account A has no list at all. *)
Lemma no_task_list_ends_the_pass_witness :
  let w := Ideal_lists [] [L] None in
  let s := initialEnv w in
  syncTaskLists Ideal.host 0 s
  = Some (Ok tt,
          {| world := w; syncState := freshState;
             console := [(StartGroup, "Sync Group");
                         (Info, "Starting sync...");
                         (Notice, "No task lists found in one or both accounts")];
             sleeps := []; calls := [] |}).
Proof.
  intros w s.
  apply (@no_task_list_ends_the_pass _ Ideal.host 0 s (Some []) w (Some [L]) w).
  - reflexivity.
  - reflexivity.
  - left. reflexivity.
Defined.

(** ["Work"] exists in both accounts, behind the default lists. *)
Lemma chosen_lists_are_never_mixed_witness :
  let s := initialEnv (Ideal_lists [L; work "LA2"] [L; work "LB2"] (Some "Work")) in
  let la := work "LA2" in
  let lb := work "LB2" in
  fst (chooseTaskLists Ideal.host L L s) = Ok (la, lb)
  /\ ((la = L /\ lb = L)
      \/ exists name,
           env_TASK_LIST_NAME Ideal.host (world s) = Some name
           /\ name <> EmptyString
           /\ TaskList.title la = name /\ TaskList.title lb = name).
Proof.
  intros s la lb. split; [reflexivity|].
  apply (@chosen_lists_are_never_mixed _ Ideal.host L L s la lb
           (snd (chooseTaskLists Ideal.host L L s))).
  reflexivity.
Defined.

(** A pass that creates one task, then saves. *)
Lemma finished_pass_has_saved_its_state_witness :
  let s := Ideal.env [Ideal.task "a1" "Buy milk" None "needsAction" t0] [] [] in
  exists s',
    syncTaskLists Ideal.host 10 s = Some (Ok tt, s')
    /\ (ends_with s' [(Notice, "No task lists found in one or both accounts")]
        \/ exists w0,
             fs_writeState Ideal.host (syncState s') w0 = (Ok tt, world s')
             /\ lastSyncTime (syncState s') = Date_now Ideal.host w0).
Proof.
  intros s.
  destruct (syncTaskLists Ideal.host 10 s) as [[[[]|e] s']|] eqn:H;
    try (vm_compute in H; discriminate).
  exists s'. split; [reflexivity|].
  exact (@finished_pass_has_saved_its_state _ Ideal.host 10 s s' H).
Defined.

Lemma Ideal_disk_is_faithful st w w' :
  fs_writeState Ideal.host st w = (Ok tt, w') ->
  fs_readState Ideal.host w' = Some st.
Proof.
  cbn [fs_writeState fs_readState Ideal.host].
  unfold Ideal.write_state, Ideal.guarded, Ideal.pop_fault.
  destruct (Ideal.faults w) as [|[e|] rest]; cbn; intros H;
    inversion H; reflexivity.
Qed.

Lemma saved_state_is_loaded_back_witness :
  let s := Ideal.env [] [] pair_ledger in
  let s1 := snd (saveSyncState Ideal.host s) in
  exists s2,
    loadSyncState Ideal.host (initialEnv (world s1)) = (Ok tt, s2)
    /\ syncState s2 = syncState s
    /\ world s2 = world s1.
Proof.
  intros s s1.
  apply (@saved_state_is_loaded_back _ Ideal.host s s1 Ideal_disk_is_faithful).
  reflexivity.
Defined.

(** The first request of the run is refused with 403, an [Error] that
    has a stack. *)
Lemma main_fails_without_task_lists_witness :
  exists s,
    main Ideal.host 10 (Ideal_failing [Some forbidden] [] []) = Some (1, s)
    /\ world s = Ideal_failing [] [] [] /\ calls s = [] /\ sleeps s = []
    /\ ends_with s [(StartGroup, "Sync Group"); (Info, "Starting sync...");
                    (ErrorLevel, "Sync failed: Forbidden");
                    (Debug, "Error: Forbidden")].
Proof.
  apply (@main_fails_without_task_lists _ Ideal.host 10
           (Ideal_failing [Some forbidden] [] []) forbidden
           (Ideal_failing [] [] [])); reflexivity.
Defined.

(* ================================================================== *)
(** ** What the pass deletes *)

Lemma pairs_set_In k r d p :
  In p (pairs (Dict.set k r d)) -> p = pair_of r \/ In p (pairs d).
Proof.
  unfold pairs. rewrite !in_map_iff. intros (r0 & <- & Hin).
  apply Dict_set_values in Hin. destruct Hin as [->|Hin]; [now left|].
  right. eauto.
Qed.

Lemma pairs_delete_In k d p :
  In p (pairs (Dict.delete k d)) -> In p (pairs d).
Proof.
  unfold pairs. rewrite !in_map_iff. intros (r0 & <- & Hin).
  apply Dict_delete_values in Hin. eauto.
Qed.

Section DeleteSafety.

Context {World : Type}.
Variable host : Host World.
Variable known : Account -> World -> string -> Prop.
Variables taskListA taskListB : TaskList.t.
Hypothesis fresh : FreshIds host known.

Variables tasksA tasksB : list Task.
Variable s : Env World.

(** A delete is justified by a pair of the ledger the pass started
    from, whose other task is in neither snapshot of its account. *)
Definition justified (c : Call) : Prop :=
  match c with
  | CallDelete AccountA _ i =>
      exists j, In (i, j) (pairs (ledger s)) /\ ~ In j (map id tasksB)
  | CallDelete AccountB _ j =>
      exists i, In (i, j) (pairs (ledger s)) /\ ~ In i (map id tasksA)
  | _ => True
  end.

Lemma copied_pairs dst taskA taskB syncRecord s1 s2 p :
  copied host taskListA taskListB dst taskA taskB syncRecord s1 s2 ->
  In p (pairs (ledger s2)) -> In p (pairs (ledger s1)).
Proof.
  unfold copied. intros H.
  destruct (tasksAreEqual taskA taskB).
  { destruct H as (_ & _ & ->). now rewrite pairs_advanced. }
  destruct (String.eqb (id (target dst taskA taskB)) EmptyString).
  { destruct H as (_ & _ & ->). auto. }
  destruct H as (_ & r & _ & ->).
  destruct r as [t|e]; [now rewrite pairs_advanced|].
  destruct (is_404_or_400 e); [apply pairs_delete_In | auto].
Qed.

Lemma copied_calls dst taskA taskB syncRecord s1 s2 :
  copied host taskListA taskListB dst taskA taskB syncRecord s1 s2 ->
  exists new, calls s2 = calls s1 ++ new /\ Forall justified new.
Proof.
  unfold copied. intros H.
  destruct (tasksAreEqual taskA taskB).
  { destruct H as (_ & -> & _). exists []. now rewrite app_nil_r. }
  destruct (String.eqb (id (target dst taskA taskB)) EmptyString).
  { destruct H as (_ & -> & _). exists []. now rewrite app_nil_r. }
  destruct H as (-> & _). eexists. split; [reflexivity|].
  repeat constructor.
Qed.

(** The invariant of the first loop. *)
Definition safeA (done : list Task) (P : StrSet.t) (s1 : Env World) : Prop :=
  sound known s1
  /\ (forall acc i, known acc (world s) i -> known acc (world s1) i)
  /\ (exists new, calls s1 = calls s ++ new /\ Forall justified new)
  /\ (forall i j, In (i, j) (pairs (ledger s1)) ->
        In (i, j) (pairs (ledger s))
        \/ (In i (map id done) /\ ~ known AccountB (world s) j))
  /\ (forall i j, In (i, j) (pairs (ledger s1)) ->
        In i (map id done) -> In j (map id tasksB) ->
        StrSet.has (pairKey i j) P = true).

Lemma stepA_safe done a rest P0 s0 P1 s1 :
  tasksA = done ++ a :: rest ->
  NoDup (map id tasksA) ->
  known AccountA (world s) (id a) ->
  safeA done P0 s0 ->
  stepA host taskListA taskListB (snapshot_map tasksB) P0 a s0 P1 s1 ->
  safeA (done ++ [a]) P1 s1.
Proof.
  intros Heq Hnd Hka (Hs0 & Hw0 & (new & Hc0 & Hj0) & Hold0 & Hmark0) Hstep.
  assert (Hnew : ~ In (id a) (map id done))
    by (apply NoDup_middle with (rest := rest); now rewrite <- Heq).
  assert (Hw : forall acc i, known acc (world s0) i -> known acc (world s1) i)
    by (eapply stepA_keeps; eauto).
  assert (Hs1 : sound known s1) by (eapply stepA_sound; eauto).
  assert (Hgrow : forall k, StrSet.has k P0 = true -> StrSet.has k P1 = true)
    by (intros k; eapply stepA_processed_grows; eauto).
  destruct Hs0 as [[HuA _] [_ HkB]].
  split; [exact Hs1|]. split; [auto|].
  unfold stepA in Hstep. rewrite map_app. cbn [map].
  destruct (find (byA (id a)) (Dict.values (ledger s0))) as [r|] eqn:Hfind.
  - assert (Hpr : In (id a, accountBId r) (pairs (ledger s0)))
      by now apply find_byA_pairs.
    assert (Hsame : forall j, In (id a, j) (pairs (ledger s0)) ->
                              j = accountBId r)
      by (intros j Hj; eapply pairs_unique_A; eauto).
    assert (Hinit : In (id a, accountBId r) (pairs (ledger s))).
    { destruct (Hold0 _ _ Hpr) as [H|[H _]]; [exact H | contradiction]. }
    destruct (Dict.get (accountBId r) (snapshot_map tasksB)) as [b|] eqn:Hget.
    + destruct Hstep as [-> Hdir].
      assert (Hsub : forall p, In p (pairs (ledger s1)) ->
                               In p (pairs (ledger s0))).
      { intros p. destruct (direction host a b r).
        - eapply copied_pairs; eauto.
        - destruct Hdir as (_ & _ & ->). auto. }
      assert (Hcalls : exists new1, calls s1 = calls s0 ++ new1
                                    /\ Forall justified new1).
      { destruct (direction host a b r).
        - eapply copied_calls; eauto.
        - destruct Hdir as (_ & -> & _). exists []. now rewrite app_nil_r. }
      destruct Hcalls as (new1 & Hc1 & Hj1).
      split; [|split].
      * exists (new ++ new1). rewrite Hc1, Hc0, <- app_assoc.
        split; [reflexivity | now apply Forall_app].
      * intros i j Hp. destruct (Hold0 _ _ (Hsub _ Hp)) as [H|[H1 H2]];
          [now left | right]. split; [apply in_or_app; now left | exact H2].
      * intros i j Hp Hi Hj. apply Hsub in Hp. rewrite StrSet_has_add.
        apply in_app_or in Hi. destruct Hi as [Hi|[<-|[]]].
        -- rewrite (Hmark0 _ _ Hp Hi Hj). apply orb_true_r.
        -- rewrite (Hsame _ Hp), <- (recordKey_of_find_A _ _ Hfind),
             String.eqb_refl. reflexivity.
    + destruct Hstep as (-> & Hc1 & _ & Hl).
      assert (Hsub : forall p, In p (pairs (ledger s1)) ->
                               In p (pairs (ledger s0)))
        by (intros p; rewrite Hl; apply pairs_delete_In).
      apply snapshot_map_none in Hget.
      split; [|split].
      * eexists. rewrite Hc1, Hc0, <- app_assoc. split; [reflexivity|].
        apply Forall_app. split; [exact Hj0|]. repeat constructor.
        cbn. eauto.
      * intros i j Hp. destruct (Hold0 _ _ (Hsub _ Hp)) as [H|[H1 H2]];
          [now left | right]. split; [apply in_or_app; now left | exact H2].
      * intros i j Hp Hi Hj. apply Hsub in Hp.
        apply in_app_or in Hi. destruct Hi as [Hi|[<-|[]]]; [eauto|].
        exfalso. apply Hget. now rewrite <- (Hsame _ Hp).
  - assert (Hnone : forall j, ~ In (id a, j) (pairs (ledger s0))).
    { intros j Hj. apply (find_byA_none_ids _ _ Hfind).
      eapply pairs_idsA; eauto. }
    destruct Hstep as (Hc1 & r & Hout & Hr).
    split.
    { eexists. rewrite Hc1, Hc0, <- app_assoc. split; [reflexivity|].
      apply Forall_app. split; [exact Hj0|]. repeat constructor. }
    destruct r as [newTaskB|e].
    + destruct Hr as [Hl ->].
      destruct (outcome_insert_fresh fresh _ _ _ _ Hout) as [Hfresh _].
      split.
      * intros i j Hp. rewrite Hl in Hp. apply pairs_set_In in Hp.
        destruct Hp as [Hp|Hp].
        -- right. inversion Hp; subst.
           split; [apply in_or_app; right; now left|]. auto.
        -- destruct (Hold0 _ _ Hp) as [H|[H1 H2]]; [now left | right].
           split; [apply in_or_app; now left | exact H2].
      * intros i j Hp Hi Hj. rewrite StrSet_has_add.
        rewrite Hl in Hp. apply pairs_set_In in Hp.
        destruct Hp as [Hp|Hp].
        -- inversion Hp; subst. now rewrite String.eqb_refl.
        -- apply in_app_or in Hi. destruct Hi as [Hi|[<-|[]]].
           ++ rewrite (Hmark0 _ _ Hp Hi Hj). apply orb_true_r.
           ++ exfalso. eapply Hnone; eauto.
    + destruct Hr as [Hl ->]. rewrite Hl. split.
      * intros i j Hp. destruct (Hold0 _ _ Hp) as [H|[H1 H2]];
          [now left | right]. split; [apply in_or_app; now left | exact H2].
      * intros i j Hp Hi Hj.
        apply in_app_or in Hi. destruct Hi as [Hi|[<-|[]]]; [eauto|].
        exfalso. eapply Hnone; eauto.
Qed.

(** The invariant of the second loop; [sA] and [P] are what the first
    loop left. *)
Definition safeB (sA : Env World) (done : list Task) (s2 : Env World) : Prop :=
  (exists new, calls s2 = calls s ++ new /\ Forall justified new)
  /\ (forall i j, In (i, j) (pairs (ledger s2)) ->
        In (i, j) (pairs (ledger sA)) \/ In j (map id done)).

Lemma stepB_safe sA P done b rest s0 s1 :
  tasksB = done ++ b :: rest ->
  NoDup (map id tasksB) ->
  known AccountB (world s) (id b) ->
  safeA tasksA P sA ->
  safeB sA done s0 ->
  stepB host taskListA taskListB P b s0 s1 ->
  safeB sA (done ++ [b]) s1.
Proof.
  intros Heq Hnd Hkb (_ & _ & _ & HoldA & HmarkA) ((new & Hc0 & Hj0) & Hold0)
         Hstep.
  assert (Hnew : ~ In (id b) (map id done))
    by (apply NoDup_middle with (rest := rest); now rewrite <- Heq).
  assert (Hin : In (id b) (map id tasksB)).
  { rewrite Heq, map_app. apply in_or_app. right. now left. }
  assert (Hkeep : forall i j,
            In (i, j) (pairs (ledger s0)) ->
            In (i, j) (pairs (ledger sA)) \/ In j (map id (done ++ [b]))).
  { intros i j Hp. destruct (Hold0 _ _ Hp) as [H|H]; [now left | right].
    rewrite map_app. apply in_or_app. now left. }
  unfold stepB in Hstep.
  destruct (find (byB (id b)) (Dict.values (ledger s0))) as [r|] eqn:Hfind.
  - destruct (StrSet.has (recordKey r) P) eqn:Hhas.
    + subst s1. split; [eauto | exact Hkeep].
    + destruct Hstep as (Hc1 & _ & Hl). split.
      * eexists. rewrite Hc1, Hc0, <- app_assoc. split; [reflexivity|].
        apply Forall_app. split; [exact Hj0|]. repeat constructor.
        cbn. exists (accountAId r).
        assert (HpA : In (accountAId r, id b) (pairs (ledger sA))).
        { destruct (Hold0 _ _ (find_byB_pairs _ _ Hfind)) as [H|H];
            [exact H | contradiction]. }
        split.
        -- destruct (HoldA _ _ HpA) as [H|[_ H]]; [exact H | contradiction].
        -- intros HiA.
           rewrite (recordKey_of_find_B _ _ Hfind),
             (HmarkA _ _ HpA HiA Hin) in Hhas. discriminate.
      * intros i j Hp. rewrite Hl in Hp. apply pairs_delete_In in Hp. auto.
  - destruct Hstep as (Hc1 & r & Hout & Hr). split.
    + eexists. rewrite Hc1, Hc0, <- app_assoc. split; [reflexivity|].
      apply Forall_app. split; [exact Hj0|]. repeat constructor.
    + intros i j Hp. destruct r as [newTaskA|e]; rewrite Hr in Hp; [|auto].
      apply pairs_set_In in Hp. destruct Hp as [Hp|Hp]; [|auto].
      right. inversion Hp; subst. rewrite map_app. apply in_or_app.
      right. now left.
Qed.

(** X19. The pass deletes a task only when the ledger it started from
    pairs that task with a task that is in no snapshot of the other
    account; whatever the stores answer, no other task is ever deleted.
    (Ids are unique within each snapshot and within the ledger, and the
    stores know the ids they have handed out.) *)
Theorem deletes_only_follow_a_missing_partner :
  unique_ids (ledger s) ->
  ledger_known known s ->
  snapshots_known known tasksA tasksB s ->
  NoDup (map id tasksA) ->
  NoDup (map id tasksB) ->
  exists s' new,
    reconcile host taskListA taskListB tasksA tasksB s = (Ok tt, s')
    /\ calls s' = calls s ++ new
    /\ forall acc l i, In (CallDelete acc l i) new ->
         match acc with
         | AccountA =>
             exists j, In (i, j) (pairs (ledger s)) /\ ~ In j (map id tasksB)
         | AccountB =>
             exists i0, In (i0, i) (pairs (ledger s)) /\ ~ In i0 (map id tasksA)
         end.
Proof.
  intros Hu Hl [HkA HkB] HndA HndB.
  destruct (@loopA_invariant World host taskListA taskListB
              (snapshot_map tasksB) safeA tasksA [] StrSet.empty s)
    as (P & sA & HA & HIA).
  { split; [split; assumption|]. split; [auto|].
    split; [exists []; now rewrite app_nil_r|].
    split; [intros i j Hp; now left | intros i j _ []]. }
  { intros done a rest P0 s0 P1 s1 Heq HI _ Hstep. cbn [app] in Heq.
    eapply stepA_safe; eauto. apply HkA. rewrite Heq.
    apply in_or_app. right. now left. }
  cbn [app] in HIA.
  destruct (@loopB_invariant World host taskListA taskListB P
              (safeB sA) tasksB [] sA)
    as (s' & HB & (new & Hc & Hj) & _).
  { split; [apply HIA | intros i j Hp; now left]. }
  { intros done b rest s0 s1 Heq HI _ Hstep. cbn [app] in Heq.
    eapply stepB_safe; eauto. apply HkB. rewrite Heq.
    apply in_or_app. right. now left. }
  exists s', new. split.
  - unfold reconcile, bind. fold (snapshot_map tasksB). rewrite HA. exact HB.
  - split; [exact Hc|]. intros acc l i Hin.
    rewrite Forall_forall in Hj. specialize (Hj _ Hin).
    destruct acc; exact Hj.
Qed.

End DeleteSafety.

(** The mixed lists again: the only delete is that of [a3], whose
    partner [b3] is gone. *)
Lemma deletes_only_follow_a_missing_partner_witness :
  let tasksA := [Ideal.task "a1" "Buy oat milk" None "needsAction" t2;
                 Ideal.task "a2" "Call mum" None "needsAction" t1;
                 Ideal.task "a3" "Old chore" None "completed" t0] in
  let tasksB := [Ideal.task "b1" "Buy milk" None "needsAction" t1;
                 Ideal.task "b2" "Water plants" None "needsAction" t1] in
  let ledger0 := [("a1-b1", pair_record);
                  ("a3-b3", {| accountAId := "a3"; accountBId := "b3";
                               lastSyncedUpdate := t0 |})] in
  let s := Ideal.env tasksA tasksB ledger0 in
  exists s' new,
    reconcile Ideal.host L L tasksA tasksB s = (Ok tt, s')
    /\ calls s' = calls s ++ new
    /\ forall acc l i, In (CallDelete acc l i) new ->
         match acc with
         | AccountA =>
             exists j, In (i, j) (pairs (ledger s)) /\ ~ In j (map id tasksB)
         | AccountB =>
             exists i0, In (i0, i) (pairs (ledger s)) /\ ~ In i0 (map id tasksA)
         end.
Proof.
  intros tasksA tasksB ledger0 s.
  apply (@deletes_only_follow_a_missing_partner _ Ideal.host Ideal_known L L
           Ideal_fresh tasksA tasksB s).
  - split; repeat constructor; cbn; intuition discriminate.
  - split; intros i Hi; cbn in Hi;
      repeat (destruct Hi as [<-|Hi];
              [apply Ideal_known_other; discriminate|]); destruct Hi.
  - split; intros x Hx; cbn in Hx;
      repeat (destruct Hx as [<-|Hx];
              [apply Ideal_known_other; discriminate|]); destruct Hx.
  - repeat constructor; cbn; intuition discriminate.
  - repeat constructor; cbn; intuition discriminate.
Defined.

(* ================================================================== *)
(** ** Retries inside the loops *)

Section RetriedCreate.

Context {World : Type}.
Variable host : Host World.
Variables taskListA taskListB : TaskList.t.

Lemma outcome_second_ok T (f : World -> Result T * World) w e w1 v w2 :
  f w = (Throw e, w1) -> isTransient host e = true -> f w1 = (Ok v, w2) ->
  outcome host f w = (Ok v, w2).
Proof.
  intros H1 Htr H2. unfold outcome.
  change (schedule MAX_RETRIES 0) with [1000; 2000; 4000; 8000; 16000].
  cbn [retry_policy_spec]. rewrite H1, Htr.
  cbn [retry_policy_spec]. rewrite H2. reflexivity.
Qed.

(** X20. A transient failure of the store is invisible to the ledger: a
    create that fails once with a transient error and succeeds when it
    is retried counts as one [createTask], and the task is paired with
    the task of the second answer exactly as if the first request had
    succeeded. *)
Theorem retried_create_is_paired tasksBMap P taskA s e w1 newTaskB w2 :
  find (byA (id taskA)) (Dict.values (ledger s)) = None ->
  tasks_insert host AccountB (TaskList.id taskListB) (body_of None taskA)
    (world s) = (Throw e, w1) ->
  isTransient host e = true ->
  tasks_insert host AccountB (TaskList.id taskListB) (body_of None taskA) w1
  = (Ok newTaskB, w2) ->
  exists s',
    processTaskA host taskListA taskListB tasksBMap P taskA s
    = (Ok (StrSet.add (pairKey (id taskA) (id newTaskB)) P), s')
    /\ calls s'
       = calls s
         ++ [CallCreate AccountB (TaskList.id taskListB) (body_of None taskA)]
    /\ world s' = w2
    /\ ledger s'
       = Dict.set (pairKey (id taskA) (id newTaskB))
           {| accountAId := id taskA; accountBId := id newTaskB;
              lastSyncedUpdate := updated taskA |} (ledger s).
Proof.
  intros Hfind H1 Htr H2.
  destruct (processTaskA_spec host taskListA taskListB tasksBMap P taskA s)
    as (P' & s' & Hrun & _ & Hstep).
  unfold stepA in Hstep. rewrite Hfind in Hstep.
  destruct Hstep as (Hc & r & Hout & Hr).
  rewrite (outcome_second_ok _ _ H1 Htr H2) in Hout.
  assert (r = Ok newTaskB) by congruence. assert (world s' = w2) by congruence.
  subst r. destruct Hr as [Hl ->]. exists s'. auto.
Qed.

End RetriedCreate.

(** The store answers 503, then creates the task. *)
Lemma retried_create_is_paired_witness :
  let a := Ideal.task "a1" "Buy milk" None "needsAction" t0 in
  exists s',
    processTaskA Ideal.host L L [] [] a
      (Ideal_failing_env [Some unavailable] [a] [] []) = (Ok ["a1-t1"], s')
    /\ calls s' = [CallCreate AccountB "L" (body_of None a)]
    /\ sleeps s' = [1000]
    /\ ledger s' = [("a1-t1", {| accountAId := "a1"; accountBId := "t1";
                                 lastSyncedUpdate := t0 |})].
Proof.
  intros a.
  pose (res := Ideal.insert AccountB "L" (body_of None a)
                 (Ideal_failing [] [a] [])).
  destruct (@retried_create_is_paired _ Ideal.host L L [] [] a
              (Ideal_failing_env [Some unavailable] [a] [] []) unavailable
              (Ideal_failing [] [a] []) (answer a res) (snd res))
    as (s' & H1 & H2 & H3 & H4); try reflexivity.
  exists s'. split; [exact H1|]. split; [exact H2|]. split; [|exact H4].
  pose proof (f_equal (fun x => sleeps (snd x)) H1) as E. cbn [snd] in E.
  rewrite <- E. reflexivity.
Defined.

(* ================================================================== *)
(** ** [shouldSyncTask] (lines 214-216) *)

Section DateOrder.

Context {World : Type}.
Variable host : Host World.

(** X21. [shouldSyncTask] is a strict order on timestamps: nothing is
    newer than itself, two timestamps are never each newer than the
    other, newer-than is transitive, and a timestamp that is not a date
    is neither newer nor older than anything. *)
Theorem shouldSyncTask_is_a_strict_order x y z :
  shouldSyncTask host x x = false
  /\ (shouldSyncTask host x y = true -> shouldSyncTask host y x = false)
  /\ (shouldSyncTask host x y = true -> shouldSyncTask host y z = true ->
      shouldSyncTask host x z = true)
  /\ (Date_getTime host x = None ->
      shouldSyncTask host x y = false /\ shouldSyncTask host y x = false).
Proof.
  unfold shouldSyncTask, date_gt.
  destruct (Date_getTime host x) as [a|], (Date_getTime host y) as [b|],
    (Date_getTime host z) as [c|];
    repeat split; intros; try discriminate; try reflexivity;
    rewrite ?Z.ltb_irrefl; try reflexivity;
    repeat match goal with
           | H : (_ <? _) = true |- _ => apply Z.ltb_lt in H
           end;
    try (apply Z.ltb_lt; lia); try (apply Z.ltb_ge; lia).
Qed.

End DateOrder.

Lemma shouldSyncTask_is_a_strict_order_witness :
  shouldSyncTask Ideal.host t2 t1 = true
  /\ shouldSyncTask Ideal.host t1 t0 = true
  /\ shouldSyncTask Ideal.host t2 t0 = true
  /\ shouldSyncTask Ideal.host t1 t2 = false
  /\ shouldSyncTask Ideal.host "yesterday" t0 = false
  /\ shouldSyncTask Ideal.host t0 "yesterday" = false.
Proof.
  destruct (@shouldSyncTask_is_a_strict_order _ Ideal.host t2 t1 t0)
    as (_ & Hasym & Htrans & _).
  destruct (@shouldSyncTask_is_a_strict_order _ Ideal.host "yesterday" t0 t0)
    as (_ & _ & _ & Hbad).
  split; [reflexivity|]. split; [reflexivity|].
  split; [apply Htrans; reflexivity|].
  split; [apply Hasym; reflexivity|].
  apply Hbad. reflexivity.
Defined.
